(** * iris-lib: the Chat messaging core (src/chat.js)

    A shallow embedding of the [Chat] class: secret and channel-id
    derivation, the conversation store operations ([save], [send],
    [messageReceived]), presence ([setOnline], [getOnline]) and the
    invite-link exchange ([formatChatLink], the constructor's chat-link
    branch, [getMyChatLinks]).

    JavaScript values are modelled dynamically ([jsval]); strings are
    sequences of UTF-16 code units, as in the language.  The replicated
    graph store (Gun) is a finite map from paths to values; [Gun.SEA] and
    the few builtins whose result the module only passes around are the
    fields of two classes. *)

From Stdlib Require Import ZArith List Lia QArith Qround Lqa.
From stdpp Require Import base tactics option list gmap strings pretty.

Local Open Scope Z_scope.

(* ===================================================================== *)
(** * Part I: definitions *)
(* ===================================================================== *)

(** ** JavaScript strings and values *)

(** A JavaScript string is a sequence of 16-bit code units. *)
Abbreviation jsstring := (list Z).

(** The code units of an ASCII literal. *)
Definition js (s : string) : jsstring :=
  List.map (fun a : Ascii.ascii => Z.of_N (Ascii.N_of_ascii a))
           (String.list_ascii_of_string s).

Definition code_unit (c : Z) : Prop := 0 <= c < 65536.

Definition is_high_surrogate (c : Z) : bool := (55296 <=? c) && (c <=? 56319).
Definition is_low_surrogate (c : Z) : bool := (56320 <=? c) && (c <=? 57343).

(** Well-formed UTF-16: every code unit is in range and every surrogate is
    half of a high/low pair. *)
Fixpoint well_formed (s : jsstring) : Prop :=
  match s with
  | [] => True
  | c :: r =>
      code_unit c /\
      if is_low_surrogate c then False
      else if is_high_surrogate c then
        match r with
        | d :: r' => is_low_surrogate d = true /\ well_formed r'
        | [] => False
        end
      else well_formed r
  end.

(** The values the module handles.  Numbers are the integers (time stamps in
    seconds, [{a: 1}]); an object is its own-property list in insertion
    order.  Arrays and functions do not occur as data here. *)
#[warnings="-register-all"]
Inductive jsval : Type :=
| JUndefined
| JNull
| JBool (b : bool)
| JNum (n : Z)
| JStr (s : jsstring)
| JObj (fields : list (jsstring * jsval)).

(** [typeof v]; note [typeof null === "object"]. *)
Definition typeof (v : jsval) : jsstring :=
  match v with
  | JUndefined => js "undefined"
  | JNull => js "object"
  | JBool _ => js "boolean"
  | JNum _ => js "number"
  | JStr _ => js "string"
  | JObj _ => js "object"
  end.

(** ToBoolean. *)
Definition truthy (v : jsval) : bool :=
  match v with
  | JUndefined | JNull => false
  | JBool b => b
  | JNum n => negb (n =? 0)
  | JStr s => match s with [] => false | _ => true end
  | JObj _ => true
  end.

(** ToString, as used by [+] with a string operand, by template literals and
    by [encodeURIComponent]. *)
Definition ToString (v : jsval) : jsstring :=
  match v with
  | JUndefined => js "undefined"
  | JNull => js "null"
  | JBool true => js "true"
  | JBool false => js "false"
  | JNum n => js (pretty n)
  | JStr s => s
  | JObj _ => js "[object Object]"
  end.

Definition jsstring_eqb (a b : jsstring) : bool := bool_decide (a = b).

(** Own-property lookup in a property list. *)
Fixpoint assoc {V : Type} (k : jsstring) (o : list (jsstring * V)) : option V :=
  match o with
  | [] => None
  | (k', v) :: r => if jsstring_eqb k' k then Some v else assoc k r
  end.

(** [v.name] on a value that is neither [null] nor [undefined] (on those the
    access throws a TypeError; callers test for it first). *)
Definition js_prop (v : jsval) (name : jsstring) : jsval :=
  match v with
  | JObj fs => default JUndefined (assoc name fs)
  | _ => JUndefined
  end.

Definition nullish (v : jsval) : bool :=
  match v with JUndefined | JNull => true | _ => false end.

(** [a === b].  Two object values are never the same reference here: every
    comparison in the module has a freshly parsed or decrypted operand. *)
Definition strict_eq (a b : jsval) : bool :=
  match a, b with
  | JUndefined, JUndefined => true
  | JNull, JNull => true
  | JBool x, JBool y => bool_decide (x = y)
  | JNum x, JNum y => x =? y
  | JStr x, JStr y => jsstring_eqb x y
  | _, _ => false
  end.

(** ** Plain objects used as maps ([this.secrets] and the two id caches) *)

(** [o[k] = v]: an existing key keeps its place, a new one goes last. *)
Fixpoint obj_set {V : Type} (k : jsstring) (v : V) (o : list (jsstring * V))
  : list (jsstring * V) :=
  match o with
  | [] => [(k, v)]
  | (k', v') :: r =>
      if jsstring_eqb k' k then (k', v) :: r else (k', v') :: obj_set k v r
  end.

(** [o[k]], [undefined] when absent. *)
Definition obj_get (k : jsstring) (o : list (jsstring * jsval)) : jsval :=
  default JUndefined (assoc k o).

Definition is_digit (c : Z) : bool := (48 <=? c) && (c <=? 57).

Fixpoint digits_value (acc : Z) (s : jsstring) : Z :=
  match s with
  | [] => acc
  | c :: r => digits_value (10 * acc + (c - 48)) r
  end.

(** An array index: the canonical decimal form of an integer below 2^32-1. *)
Definition array_index (s : jsstring) : option Z :=
  match s with
  | [] => None
  | c :: r =>
      if forallb is_digit s && (negb (c =? 48) || match r with [] => true | _ => false end)
         && (Z.of_nat (length s) <=? 10)
      then let n := digits_value 0 s in
           if n <? 4294967295 then Some n else None
      else None
  end.

Fixpoint insert_index (k : Z * jsstring) (l : list (Z * jsstring)) : list (Z * jsstring) :=
  match l with
  | [] => [k]
  | h :: r => if fst k <=? fst h then k :: h :: r else h :: insert_index k r
  end.

(** [Object.keys(o)]: array-index keys in ascending numeric order first, then
    the other keys in insertion order. *)
Definition Object_keys {V : Type} (o : list (jsstring * V)) : list jsstring :=
  let ks := List.map fst o in
  let idx := List.fold_right
               (fun k acc => match array_index k with
                             | Some n => insert_index (n, k) acc
                             | None => acc
                             end) [] ks in
  List.map snd idx ++
  List.filter (fun k => match array_index k with Some _ => false | None => true end) ks.

(** ** URI component encoding (the builtins behind [formatChatLink]) *)

(** The characters [encodeURIComponent] leaves alone:
    A-Z a-z 0-9 - _ . ! ~ * ' ( ) *)
Definition unreserved (c : Z) : bool :=
  ((65 <=? c) && (c <=? 90)) || ((97 <=? c) && (c <=? 122)) ||
  ((48 <=? c) && (c <=? 57)) ||
  (c =? 45) || (c =? 95) || (c =? 46) || (c =? 33) || (c =? 126) ||
  (c =? 42) || (c =? 39) || (c =? 40) || (c =? 41).

(** Upper-case hexadecimal digit of [0 <= d < 16]. *)
Definition hex_digit (d : Z) : Z := if d <? 10 then 48 + d else 55 + d.

Definition hex_value (c : Z) : option Z :=
  if (48 <=? c) && (c <=? 57) then Some (c - 48)
  else if (65 <=? c) && (c <=? 70) then Some (c - 55)
  else if (97 <=? c) && (c <=? 102) then Some (c - 87)
  else None.

(** [%XX] for one octet. *)
Definition percent (b : Z) : jsstring := [37; hex_digit (b / 16); hex_digit (b mod 16)].

(** The UTF-8 octets of a code point. *)
Definition utf8 (cp : Z) : list Z :=
  if cp <? 128 then [cp]
  else if cp <? 2048 then [192 + cp / 64; 128 + cp mod 64]
  else if cp <? 65536 then [224 + cp / 4096; 128 + (cp / 64) mod 64; 128 + cp mod 64]
  else [240 + cp / 262144; 128 + (cp / 4096) mod 64; 128 + (cp / 64) mod 64; 128 + cp mod 64].

Definition percent_utf8 (cp : Z) : jsstring := List.concat (List.map percent (utf8 cp)).

(** [encodeURIComponent(s)]; [None] is the URIError thrown on a lone
    surrogate. *)
Fixpoint encodeURIComponent (s : jsstring) : option jsstring :=
  match s with
  | [] => Some []
  | c :: r =>
      if unreserved c then option_map (cons c) (encodeURIComponent r)
      else if is_low_surrogate c then None
      else if is_high_surrogate c then
        match r with
        | d :: r' =>
            if is_low_surrogate d
            then option_map (app (percent_utf8 ((c - 55296) * 1024 + (d - 56320) + 65536)))
                            (encodeURIComponent r')
            else None
        | [] => None
        end
      else option_map (app (percent_utf8 c)) (encodeURIComponent r)
  end.

(** Reads [%XX]: the octet and the rest. *)
Definition read_percent (s : jsstring) : option (Z * jsstring) :=
  match s with
  | 37 :: h :: l :: r =>
      match hex_value h, hex_value l with
      | Some x, Some y => Some (16 * x + y, r)
      | _, _ => None
      end
  | _ => None
  end.

(** Reads one UTF-8 continuation octet [%XX] with [XX] in 80..BF: its six
    payload bits and the rest. *)
Definition read_continuation (s : jsstring) : option (Z * jsstring) :=
  match read_percent s with
  | Some (b, r) => if (128 <=? b) && (b <? 192) then Some (b - 128, r) else None
  | None => None
  end.

(** The UTF-16 code units of a code point. *)
Definition utf16 (cp : Z) : jsstring :=
  if cp <? 65536 then [cp]
  else [55296 + (cp - 65536) / 1024; 56320 + (cp - 65536) mod 1024].

(** Decodes the escape sequence at the head of [s] (which starts with [%]):
    the code point and the rest.  Overlong forms, surrogates and values above
    10FFFF are not UTF-8. *)
Definition read_escape (s : jsstring) : option (Z * jsstring) :=
  match read_percent s with
  | None => None
  | Some (b, r) =>
      if b <? 128 then Some (b, r)
      else if b <? 192 then None
      else if b <? 224 then
        match read_continuation r with
        | Some (x, r1) =>
            let cp := (b - 192) * 64 + x in
            if 128 <=? cp then Some (cp, r1) else None
        | None => None
        end
      else if b <? 240 then
        match read_continuation r with
        | Some (x, r1) =>
            match read_continuation r1 with
            | Some (y, r2) =>
                let cp := (b - 224) * 4096 + x * 64 + y in
                if (2048 <=? cp) && negb ((55296 <=? cp) && (cp <=? 57343))
                then Some (cp, r2) else None
            | None => None
            end
        | None => None
        end
      else if b <? 248 then
        match read_continuation r with
        | Some (x, r1) =>
            match read_continuation r1 with
            | Some (y, r2) =>
                match read_continuation r2 with
                | Some (z, r3) =>
                    let cp := (b - 240) * 262144 + x * 4096 + y * 64 + z in
                    if (65536 <=? cp) && (cp <=? 1114111) then Some (cp, r3) else None
                | None => None
                end
            | None => None
            end
        | None => None
        end
      else None
  end.

Fixpoint decode_fuel (fuel : nat) (s : jsstring) : option jsstring :=
  match fuel with
  | O => match s with [] => Some [] | _ => None end
  | S fuel' =>
      match s with
      | [] => Some []
      | c :: r =>
          if c =? 37 then
            match read_escape s with
            | Some (cp, rest) => option_map (app (utf16 cp)) (decode_fuel fuel' rest)
            | None => None
            end
          else option_map (cons c) (decode_fuel fuel' r)
      end
  end.

(** [decodeURIComponent(s)]; [None] is the URIError thrown on a malformed
    escape.  Every step consumes at least one code unit, so the length of
    the input is fuel enough. *)
Definition decodeURIComponent (s : jsstring) : option jsstring :=
  decode_fuel (length s) s.

(** [Chat.formatChatLink(urlRoot, pub, sharedSecret, linkId)]

    return `${urlRoot}?chatWith=${encodeURIComponent(pub)}&s=${encodeURIComponent(sharedSecret)}&k=${encodeURIComponent(linkId)}`;

    [None] when one of the [encodeURIComponent] calls throws. *)
Definition formatChatLink (urlRoot pub sharedSecret linkId : jsval) : option jsstring :=
  match encodeURIComponent (ToString pub),
        encodeURIComponent (ToString sharedSecret),
        encodeURIComponent (ToString linkId) with
  | Some p, Some s, Some k =>
      Some (ToString urlRoot ++ js "?chatWith=" ++ p ++ js "&s=" ++ s ++ js "&k=" ++ k)
  | _, _, _ => None
  end.


(** ** The world: graph store, store clock, timers, observable actions *)

(** A node of the graph: the namespace (a public key, [gun.user(pub)]) followed
    by the keys of the [get] chain. *)
Abbreviation path := (list jsstring).

(** The three ways the module subscribes to a node. *)
Inductive subscription := On | MapOn | MapOnce.

(** What a registered callback does, by the place it is written. *)
Inductive handler :=
| HMessageReceived (pub : jsstring) (selfAuthored : jsval)  (* addPub, lines 222 and 225 *)
| HEncryptedSharedKey (sharedSecret : jsval)               (* constructor, line 41 *)
| HLastActive                                              (* getOnline, line 290 *)
| HChatLinks                                               (* getMyChatLinks, line 352 *)
| HOwnerEncryptedSharedKey (linkId : jsstring)             (* getMyChatLinks, line 355 *)
| HChatRequests (linkId : jsstring).                       (* getMyChatLinks, line 365 *)

(** The actions of the module an observer of the process can see. *)
Inductive event :=
| EPut (p : path) (v : jsval)                        (* node.put(v) *)
| ESubscribe (k : subscription) (p : path) (h : handler)
| EOnMessage (msg : jsval) (info : jsval)            (* this.onMessage(msg, info) *)
| EOnline (isOnline : bool) (lastActive : Z)         (* callback({isOnline, lastActive}) *)
| EConsoleLog (v : jsval).

(** What a timer runs when it fires. *)
Inductive timer_action :=
| TUpdate                       (* setOnline's [update] *)
| TOffline (lastActive : Z).    (* getOnline's [() => callback({isOnline: false, lastActive})] *)

Record timer := {
  timer_id : positive;
  timer_delay : Z;           (* milliseconds *)
  timer_repeats : bool;      (* setInterval / setTimeout *)
  timer_action_of : timer_action }.

Record World := {
  store : gmap path jsval;             (* the graph *)
  auth : option jsstring;              (* the namespace gun.user() is authenticated for *)
  clock : Q;                           (* Gun.state(), in milliseconds *)
  timers : list timer;                 (* pending timers, oldest first *)
  next_timer : positive;               (* the id the next timer gets *)
  setOnlineInterval : option positive; (* gun.setOnlineInterval *)
  entropy : nat;                       (* draws of randomness made so far *)
  events : list event }.               (* observable actions, oldest first *)

Definition with_store (f : gmap path jsval -> gmap path jsval) (w : World) : World :=
  {| store := f (store w); auth := auth w; clock := clock w; timers := timers w;
     next_timer := next_timer w; setOnlineInterval := setOnlineInterval w;
     entropy := entropy w; events := events w |}.

Definition with_auth (a : option jsstring) (w : World) : World :=
  {| store := store w; auth := a; clock := clock w; timers := timers w;
     next_timer := next_timer w; setOnlineInterval := setOnlineInterval w;
     entropy := entropy w; events := events w |}.

Definition with_timers (ts : list timer) (w : World) : World :=
  {| store := store w; auth := auth w; clock := clock w; timers := ts;
     next_timer := next_timer w; setOnlineInterval := setOnlineInterval w;
     entropy := entropy w; events := events w |}.

Definition with_next_timer (n : positive) (w : World) : World :=
  {| store := store w; auth := auth w; clock := clock w; timers := timers w;
     next_timer := n; setOnlineInterval := setOnlineInterval w;
     entropy := entropy w; events := events w |}.

Definition with_setOnlineInterval (i : option positive) (w : World) : World :=
  {| store := store w; auth := auth w; clock := clock w; timers := timers w;
     next_timer := next_timer w; setOnlineInterval := i;
     entropy := entropy w; events := events w |}.

Definition with_entropy (n : nat) (w : World) : World :=
  {| store := store w; auth := auth w; clock := clock w; timers := timers w;
     next_timer := next_timer w; setOnlineInterval := setOnlineInterval w;
     entropy := n; events := events w |}.

Definition log (e : event) (w : World) : World :=
  {| store := store w; auth := auth w; clock := clock w; timers := timers w;
     next_timer := next_timer w; setOnlineInterval := setOnlineInterval w;
     entropy := entropy w; events := events w ++ [e] |}.

(** [put] on the graph: an object is stored property by property under the
    node, any other value at the node itself. *)
Fixpoint graph_put (p : path) (v : jsval) (g : gmap path jsval) : gmap path jsval :=
  match v with
  | JObj fs =>
      (fix each (fs : list (jsstring * jsval)) (g : gmap path jsval) :=
         match fs with
         | [] => g
         | (k, v') :: r => each r (graph_put (p ++ [k]) v' g)
         end) fs g
  | _ => <[p := v]> g
  end.

(** [node.put(v)]. *)
Definition gun_put (p : path) (v : jsval) (w : World) : World :=
  log (EPut p v) (with_store (graph_put p v) w).

(** [node.on(cb)], [node.map().on(cb)], [node.map().once(cb)]. *)
Definition gun_subscribe (k : subscription) (p : path) (h : handler) (w : World) : World :=
  log (ESubscribe k p h) w.

(** [Math.round]: the nearest integer, halves upwards. *)
Definition Math_round (x : Q) : Z := Qfloor (Qplus x (Qmake 1 2)).

(** [Math.round(Gun.state() / 1000)]. *)
Definition now_seconds (w : World) : Z := Math_round (Qdiv (clock w) (inject_Z 1000)).

(** [setTimeout(action, delay)] and [setInterval(action, delay)]: the id and
    the world with the timer pending. *)
Definition add_timer (repeats : bool) (a : timer_action) (delay : Z) (w : World)
  : positive * World :=
  let id := next_timer w in
  (id, with_next_timer (Pos.succ id)
         (with_timers (timers w ++ [{| timer_id := id; timer_delay := delay;
                                       timer_repeats := repeats; timer_action_of := a |}]) w)).

(** [clearTimeout(id)] / [clearInterval(id)]; [undefined] or an id that is
    no longer pending clears nothing. *)
Definition clear_timer (id : option positive) (w : World) : World :=
  match id with
  | None => w
  | Some i => with_timers (List.filter (fun t => negb (Pos.eqb (timer_id t) i)) (timers w)) w
  end.

(** ** External primitives *)

(** A SEA key pair [{pub, epub, priv, epriv}]. *)
Record keypair := { pub : jsval; epub : jsval; priv : jsval; epriv : jsval }.

(** The key pair read off a decrypted value [v] (not [null]/[undefined]). *)
Definition as_keypair (v : jsval) : keypair :=
  {| pub := js_prop v (js "pub"); epub := js_prop v (js "epub");
     priv := js_prop v (js "priv"); epriv := js_prop v (js "epriv") |}.

(** [Gun.SEA], as far as the module uses it. *)
Class SEA := {
  (** [Gun.SEA.secret(epub, pair)] *)
  SEA_secret : jsval -> keypair -> jsval;
  (** [Gun.SEA.work(data, null, null, {name: 'SHA-256'})] *)
  SEA_work : jsval -> jsstring;
  (** [Gun.SEA.encrypt(data, secret)]: the text [SEA{ct, iv, s}]; the first
      argument is the randomness (salt and iv) the call draws *)
  SEA_encrypt : nat -> jsval -> jsval -> jsstring;
  (** [Gun.SEA.decrypt(data, secret)]: the parsed plaintext, [undefined] on
      failure *)
  SEA_decrypt : jsval -> jsval -> jsval }.

(** Builtins whose result the module only passes on. *)
Class Builtins := {
  JSON_stringify : jsval -> jsstring;
  (** [new Date().toISOString()] at a clock reading *)
  toISOString : Q -> jsstring }.

(** ** The Chat object *)

Record Chat := {
  key : keypair;                                  (* this.key *)
  secrets : list (jsstring * jsval);              (* this.secrets *)
  ourSecretChatIds : list (jsstring * jsval);     (* this.ourSecretChatIds *)
  theirSecretChatIds : list (jsstring * jsval);   (* this.theirSecretChatIds *)
  onMessage : bool }.                             (* whether this.onMessage is set *)

Definition with_secrets (s : list (jsstring * jsval)) (c : Chat) : Chat :=
  {| key := key c; secrets := s; ourSecretChatIds := ourSecretChatIds c;
     theirSecretChatIds := theirSecretChatIds c; onMessage := onMessage c |}.

Definition with_ourSecretChatIds (s : list (jsstring * jsval)) (c : Chat) : Chat :=
  {| key := key c; secrets := secrets c; ourSecretChatIds := s;
     theirSecretChatIds := theirSecretChatIds c; onMessage := onMessage c |}.

Definition with_theirSecretChatIds (s : list (jsstring * jsval)) (c : Chat) : Chat :=
  {| key := key c; secrets := secrets c; ourSecretChatIds := ourSecretChatIds c;
     theirSecretChatIds := s; onMessage := onMessage c |}.

(** How a call of an async method ends: it returns, its promise never settles
    (it waits for a value the store never delivers), or it throws. *)
Inductive outcome (A : Type) :=
| Done (a : A) (c : Chat) (w : World)
| Hang (c : Chat) (w : World)
| Throw (c : Chat) (w : World).
Arguments Done {A}.
Arguments Hang {A}.
Arguments Throw {A}.

(** The object and the world a call leaves behind, and whether it returned. *)
Definition chat_after {A} (o : outcome A) : Chat :=
  match o with Done _ c _ | Hang c _ | Throw c _ => c end.
Definition after {A} (o : outcome A) : World :=
  match o with Done _ _ w | Hang _ w | Throw _ w => w end.
Definition returned {A} (o : outcome A) : bool :=
  match o with Done _ _ _ => true | _ => false end.
Definition hangs {A} (o : outcome A) : bool :=
  match o with Hang _ _ => true | _ => false end.

(** Methods run on the Chat object and the world.  [await e] is sequencing:
    a method is modelled by the run of its body to the end. *)
Definition M (A : Type) : Type := Chat -> World -> outcome A.

Definition ret {A} (a : A) : M A := fun c w => Done a c w.

Definition bind {A B} (m : M A) (k : A -> M B) : M B :=
  fun c w =>
    match m c w with
    | Done a c' w' => k a c' w'
    | Hang c' w' => Hang c' w'
    | Throw c' w' => Throw c' w'
    end.

Notation "x <- m ;; k" := (bind m (fun x => k))
  (at level 100, m at next level, right associativity).
Notation "m ;;; k" := (bind m (fun _ => k))
  (at level 100, right associativity).

Definition hang {A} : M A := fun c w => Hang c w.
Definition throw {A} : M A := fun c w => Throw c w.
Definition this : M Chat := fun c w => Done c c w.
Definition world : M World := fun c w => Done w c w.
Definition update_this (f : Chat -> Chat) : M unit := fun c w => Done tt (f c) w.
Definition update_world (f : World -> World) : M unit := fun c w => Done tt c (f w).

(** A call whose promise is dropped ([this.save();], [this.getSecret(pub);]):
    the caller goes on whatever becomes of the callee.  The callee is run at
    the call; its writes after a suspension land later in the process, on
    nodes the caller's remaining statements do not write. *)
Definition spawn {A} (m : M A) : M unit :=
  fun c w =>
    match m c w with
    | Done _ c' w' | Hang c' w' | Throw c' w' => Done tt c' w'
    end.

(** [for (let i = 0; i < keys.length; i++) body(keys[i])] with awaits inside. *)
Fixpoint for_each {K} (keys : list K) (body : K -> M unit) : M unit :=
  match keys with
  | [] => ret tt
  | k :: r => body k ;;; for_each r body
  end.

(** Modelled from the spec: [util.gunOnceDefined(node)] (src/util.js is not
    among the sources).  "Looks up the remote identity's public encryption key
    from the graph store (suspends until a defined value is observed)": the
    value at the node once it is defined; with no value there the promise
    stays pending. *)
Definition gunOnceDefined (p : path) : M jsval :=
  fun c w =>
    match store w !! p with
    | Some JUndefined | None => Hang c w
    | Some v => Done v c w
    end.

(** The namespace of [this.user] and of [this.gun.user()]: the constructor
    authenticates the store handle with [this.key] (line 22). *)
Definition me (c : Chat) : jsstring := ToString (pub (key c)).

Section ChatMethods.
Context `{SEA} `{Builtins}.

(** [Gun.SEA.encrypt(data, secret)], drawing fresh randomness. *)
Definition encrypt (data secret : jsval) : M jsval :=
  fun c w => Done (JStr (SEA_encrypt (entropy w) data secret)) c (with_entropy (S (entropy w)) w).

(** async getSecret(pub) (lines 70-76) *)
Definition getSecret (pub : jsstring) : M jsval :=
  c <- this ;;
  (if negb (truthy (obj_get pub (secrets c))) then
     epub <- gunOnceDefined [pub; js "epub"] ;;
     update_this (fun c => with_secrets (obj_set pub (SEA_secret epub (key c)) (secrets c)) c)
   else ret tt) ;;;
  c <- this ;;
  ret (obj_get pub (secrets c)).

(** async getOurSecretChatId(pub) (lines 115-121) *)
Definition getOurSecretChatId (pub : jsstring) : M jsval :=
  c <- this ;;
  (if negb (truthy (obj_get pub (ourSecretChatIds c))) then
     secret <- getSecret pub ;;
     update_this (fun c => with_ourSecretChatIds
       (obj_set pub (JStr (SEA_work (JStr (ToString secret ++ pub)))) (ourSecretChatIds c)) c)
   else ret tt) ;;;
  c <- this ;;
  ret (obj_get pub (ourSecretChatIds c)).

(** async getTheirSecretChatId(pub) (lines 123-129) *)
Definition getTheirSecretChatId (pub : jsstring) : M jsval :=
  c <- this ;;
  (if negb (truthy (obj_get pub (theirSecretChatIds c))) then
     secret <- getSecret pub ;;
     update_this (fun c => with_theirSecretChatIds
       (obj_set pub (JStr (SEA_work (JStr (ToString secret ++ me c)))) (theirSecretChatIds c)) c)
   else ret tt) ;;;
  c <- this ;;
  ret (obj_get pub (theirSecretChatIds c)).

(** async messageReceived(data, pub, selfAuthored) (lines 131-142) *)
Definition messageReceived (data : jsval) (pub : jsstring) (selfAuthored : jsval) : M unit :=
  c <- this ;;
  if onMessage c then
    secret <- getSecret pub ;;
    let decrypted := SEA_decrypt data secret in
    if negb (jsstring_eqb (typeof decrypted) (js "object")) then ret tt
    else update_world (log (EOnMessage decrypted (JObj [(js "selfAuthored", selfAuthored)])))
  else ret tt.

(** The nodes of one outbound channel. *)
Definition msgs_node (c : Chat) (chatId : jsval) (k : jsstring) : path :=
  [me c; js "chats"; ToString chatId; js "msgs"; k].
Definition latestMsg_node (c : Chat) (chatId : jsval) : path :=
  [me c; js "chats"; ToString chatId; js "latestMsg"].

(** async addPub(pub) (lines 212-226) *)
Definition addPub (pub_ : jsstring) : M unit :=
  update_this (fun c => with_secrets (obj_set pub_ JNull (secrets c)) c) ;;;
  spawn (getSecret pub_) ;;;
  ourSecretChatId <- getOurSecretChatId pub_ ;;
  c <- this ;;
  let mySecret := SEA_secret (epub (key c)) (key c) in
  enc <- encrypt (JStr pub_) mySecret ;;
  update_world (gun_put [me c; js "chats"; ToString ourSecretChatId; js "pub"] enc) ;;;
  (if negb (strict_eq (JStr pub_) (pub (key c))) then
     theirSecretChatId <- getTheirSecretChatId pub_ ;;
     update_world (gun_subscribe MapOnce
       [pub_; js "chats"; ToString theirSecretChatId; js "msgs"]
       (HMessageReceived pub_ JUndefined))
   else ret tt) ;;;
  update_world (gun_subscribe MapOnce
    [me c; js "chats"; ToString ourSecretChatId; js "msgs"]
    (HMessageReceived pub_ (JBool true))).

(** [msg], or the message object made of a bare string (lines 233-239). *)
Definition normalize (msg : jsval) (w : World) : jsval :=
  if jsstring_eqb (typeof msg) (js "string")
  then JObj [(js "time", JStr (toISOString (clock w)));
             (js "author", JStr (js "anonymous"));
             (js "text", msg)]
  else msg.

(** The body of the loop of [send] (lines 244-247), for the participant [k]. *)
Definition send_to (msg : jsval) (k : jsstring) : M unit :=
  secret <- getSecret k ;;
  encrypted <- encrypt (JStr (JSON_stringify msg)) secret ;;
  ourSecretChatId <- getOurSecretChatId k ;;
  c <- this ;;
  if nullish msg then throw   (* msg.time *)
  else
    update_world (gun_put (msgs_node c ourSecretChatId (ToString (js_prop msg (js "time")))) encrypted) ;;;
    update_world (gun_put (latestMsg_node c ourSecretChatId) encrypted).

(** async send(msg) (lines 232-249) *)
Definition send (msg : jsval) : M unit :=
  w <- world ;;
  let msg := normalize msg w in
  c <- this ;;
  for_each (Object_keys (secrets c)) (send_to msg).

(** The body of the loop of [save] (lines 257-258), for the participant [k]. *)
Definition save_for (k : jsstring) : M unit :=
  ourSecretChatId <- getOurSecretChatId k ;;
  c <- this ;;
  update_world (gun_put (msgs_node c ourSecretChatId (js "a")) JNull).

(** async save() (lines 254-260) *)
Definition save : M unit :=
  c <- this ;;
  for_each (Object_keys (secrets c)) save_for.

End ChatMethods.

(** ** Presence *)

(** [update] of [setOnline] (lines 270-272):
    gun.user().get(`lastActive`).put(Math.round(Gun.state() / 1000)).
    A store handle that is not authenticated has no namespace to write. *)
Definition update_lastActive (w : World) : World :=
  match auth w with
  | Some user => gun_put [user; js "lastActive"] (JNum (now_seconds w)) w
  | None => w
  end.

(** static setOnline(gun, isOnline) (lines 267-279) *)
Definition setOnline (isOnline : bool) (w : World) : World :=
  if isOnline then
    match setOnlineInterval w with
    | Some _ => w
    | None =>
        let w1 := update_lastActive w in
        let (id, w2) := add_timer true TUpdate 3000 w1 in
        with_setOnlineInterval (Some id) w2
    end
  else
    with_setOnlineInterval None (clear_timer (setOnlineInterval w) w).

(** The variable [timeout] of one [getOnline] call (line 289). *)
Record OnlineWatch := { timeout : option positive }.

(** static getOnline(gun, pubKey, callback) (lines 288-299): the
    subscription is registered; [timeout] is still undefined. *)
Definition getOnline (pubKey : jsstring) (w : World) : OnlineWatch * World :=
  ({| timeout := None |}, gun_subscribe On [pubKey; js "lastActive"] HLastActive w).

(** The callback of that subscription (lines 290-298), on an update carrying
    the number [lastActive]. *)
Definition on_lastActive (lastActive : Z) (o : OnlineWatch) (w : World)
  : OnlineWatch * World :=
  let w1 := clear_timer (timeout o) w in
  let now := now_seconds w1 in
  let isOnline := (now - 10 <? lastActive) && (lastActive <? now + 30) in
  let w2 := log (EOnline isOnline lastActive) w1 in
  if isOnline then
    let (id, w3) := add_timer false (TOffline lastActive) 10000 w2 in
    ({| timeout := Some id |}, w3)
  else (o, w2).

Definition run_timer_action (a : timer_action) (w : World) : World :=
  match a with
  | TUpdate => update_lastActive w
  | TOffline lastActive => log (EOnline false lastActive) w
  end.

(** The pending timer [id] fires: a timeout is spent, an interval stays. *)
Definition fire_timer (id : positive) (w : World) : World :=
  match List.find (fun t => Pos.eqb (timer_id t) id) (timers w) with
  | None => w
  | Some t =>
      run_timer_action (timer_action_of t)
        (if timer_repeats t then w else clear_timer (Some id) w)
  end.

(** ** The constructor and the invite link *)

(** [s.split(sep)] for a one-character separator. *)
Fixpoint split (sep : Z) (s : jsstring) : list jsstring :=
  match s with
  | [] => [[]]
  | c :: r =>
      if c =? sep then [] :: split sep r
      else match split sep r with
           | h :: t => (c :: h) :: t
           | [] => [[c]]
           end
  end.

(** Modelled from the spec: [util.getUrlParameter(name, query)] (src/util.js
    is not among the sources).  The link's query is
    [chatWith=<urlencode(ownerPub)>&s=<urlencode(sharedSecret)>&k=<urlencode(linkId)>]
    and "percent-decoding yields the original three fields": the value of the
    first [name=value] piece, percent-decoded; [undefined] when there is
    none.  [None] is the URIError of a malformed escape. *)
Fixpoint getUrlParameter_in (name : jsstring) (pieces : list jsstring) : option jsval :=
  match pieces with
  | [] => Some JUndefined
  | p :: r =>
      match split 61 p with
      | n :: v :: _ =>
          if jsstring_eqb n name then option_map JStr (decodeURIComponent v)
          else getUrlParameter_in name r
      | _ => getUrlParameter_in name r
      end
  end.

Definition getUrlParameter (name query : jsstring) : option jsval :=
  getUrlParameter_in name (split 38 query).

(** [options.participants]: one value or an array of values. *)
Inductive participants :=
| POne (v : jsval)
| PArray (l : list jsval).

(** The constructor's [options] ([gun] is the world). *)
Record Options := {
  opt_key : keypair;
  opt_chatLink : option jsstring;     (* undefined or a string *)
  opt_onMessage : bool;
  opt_participants : participants }.

Section Constructor.
Context `{SEA} `{Builtins}.

(** The chat-link branch (lines 29-52): whether the chat was saved, and
    [options.participants] afterwards. *)
Definition chatLink_branch (o : Options) : M (bool * participants) :=
  match opt_chatLink o with
  | Some chatLink =>
      if truthy (JStr chatLink) then
        match split 63 chatLink with
        | [_; query] =>
            match getUrlParameter (js "chatWith") query with
            | None => throw
            | Some pub_ =>
                c <- this ;;
                if negb (strict_eq pub_ (pub (key c))) then
                  match getUrlParameter (js "s") query, getUrlParameter (js "k") query with
                  | Some sharedSecret, Some linkId =>
                      if truthy sharedSecret && truthy linkId then
                        spawn save ;;;
                        update_world (gun_subscribe On
                          [ToString pub_; js "chatLinks"; ToString linkId; js "encryptedSharedKey"]
                          (HEncryptedSharedKey sharedSecret)) ;;;
                        ret (true, POne pub_)
                      else ret (false, POne pub_)
                  | _, _ => throw
                  end
                else ret (false, POne pub_)
            end
        | _ => ret (false, opt_participants o)
        end
      else ret (false, opt_participants o)
  | None => ret (false, opt_participants o)
  end.

(** Lines 54-64. *)
Definition add_participants (p : participants) : M unit :=
  match p with
  | POne (JStr s) => spawn (addPub s)
  | POne _ => ret tt
  | PArray l =>
      for_each l (fun v =>
        match v with
        | JStr s => spawn (addPub s)
        | _ => update_world (log (EConsoleLog v))
        end)
  end.

(** constructor(options) (lines 18-68), run on the new object. *)
Definition constructor (o : Options) : M unit :=
  c <- this ;;
  update_world (with_auth (Some (me c))) ;;;
  update_world (gun_put [me c] (JObj [(js "epub", epub (key c))])) ;;;
  r <- chatLink_branch o ;;
  add_participants (snd r) ;;;
  if negb (fst r) then spawn save else ret tt.

(** [new Chat(options)]. *)
Definition new_Chat (o : Options) (w : World) : outcome unit :=
  constructor o
    {| key := opt_key o; secrets := []; ourSecretChatIds := [];
       theirSecretChatIds := []; onMessage := opt_onMessage o |} w.

End Constructor.

(** ** getMyChatLinks (lines 347-381)

    The function registers callbacks and returns; what follows is driven by
    the store, which may call a callback any number of times with any value
    (it replays history).  A callback runs to its first [await]; the rest of
    its body runs later, possibly after other callbacks. *)

(** One run of the chatLinks callback past its guard (lines 354-355): the
    array [chats] and the subscription to [ownerEncryptedSharedKey]. *)
Record owner_sub := {
  os_linkId : jsstring;
  os_chats : list jsstring }.

(** A run of the [ownerEncryptedSharedKey] callback suspended at line 358. *)
Record owner_run := {
  or_sub : nat;           (* the subscription it belongs to *)
  or_linkId : jsstring;
  or_enc : jsval }.

(** A subscription to an ephemeral key pair's [chatRequests] (line 365). *)
Record request_sub := {
  rs_owner : nat;         (* the [owner_sub] whose [chats] it captured *)
  rs_linkId : jsstring;
  rs_sharedKey : jsval;
  rs_sharedSecret : jsval }.

(** A run of the [chatRequests] callback suspended at line 370. *)
Record request_run := {
  rr_of : request_sub;    (* the subscription it belongs to *)
  rr_encPub : jsval;
  rr_requestId : jsstring;
  rr_s : jsstring }.

(** What the owner's process did, oldest first. *)
Inductive links_action :=
| ALink (url : jsstring) (linkId : jsstring)               (* callback({url, id: linkId}), line 362 *)
| ARequests (linkId : jsstring) (sub : nat)                (* the subscription of line 365, and its number *)
| ANewChat (linkId : jsstring) (s : jsstring) (participant : jsval). (* new Chat(..) and chat.save(), lines 371-372 *)

Record links_state := {
  ls_world : World;
  chatLinks : list jsstring;            (* line 351 *)
  owner_subs : list owner_sub;
  owner_runs : list owner_run;          (* suspended *)
  request_subs : list request_sub;
  request_runs : list request_run;      (* suspended *)
  actions : list links_action }.

(** What the store delivers, or which suspended run goes on. *)
Inductive links_input :=
| InChatLink (data : jsval) (linkId : jsstring)
| InOwnerKey (sub : nat) (enc : jsval)
| InOwnerKeyResume (run : nat)
| InChatRequest (sub : nat) (encPub : jsval) (requestId : jsstring)
| InChatRequestResume (run : nat).

(** [a.indexOf(x) !== -1] *)
Definition includes (x : jsstring) (a : list jsstring) : bool :=
  existsb (jsstring_eqb x) a.

Section GetMyChatLinks.
Context `{SEA} `{Builtins}.
Variables (key_ : keypair) (urlRoot : jsval) (callback subscribe : bool).

Definition mySecret : jsval := SEA_secret (epub key_) key_.

(** Lines 348-352. *)
Definition getMyChatLinks (w : World) : links_state :=
  {| ls_world := gun_subscribe MapOn [ToString (pub key_); js "chatLinks"] HChatLinks
                   (with_auth (Some (ToString (pub key_))) w);
     chatLinks := []; owner_subs := []; owner_runs := [];
     request_subs := []; request_runs := []; actions := [] |}.

(** Modelled from the spec: [util.gunAsAnotherUser(gun, sharedKey, f)] of
    lines 374-376 (src/util.js is not among the sources) runs [f] on the
    namespace of [sharedKey]: "delete the consumed request from the ephemeral
    namespace". *)
Definition remove_request (r : request_sub) (requestId : jsstring) (w : World) : World :=
  gun_put [ToString (js_prop (rs_sharedKey r) (js "pub")); js "chatRequests"; requestId] JNull w.

Definition links_step (st : links_state) (i : links_input) : links_state :=
  match i with
  | InChatLink data linkId =>
      (* lines 352-355 *)
      if negb (truthy data) || includes linkId (chatLinks st) then st
      else
        {| ls_world := gun_subscribe On
             [ToString (pub key_); js "chatLinks"; linkId; js "ownerEncryptedSharedKey"]
             (HOwnerEncryptedSharedKey linkId) (ls_world st);
           chatLinks := chatLinks st;
           owner_subs := owner_subs st ++ [{| os_linkId := linkId; os_chats := [] |}];
           owner_runs := owner_runs st;
           request_subs := request_subs st; request_runs := request_runs st;
           actions := actions st |}
  | InOwnerKey sub enc =>
      (* lines 355-358, up to the first await *)
      match owner_subs st !! sub with
      | None => st
      | Some o =>
          if negb (truthy enc) || includes (os_linkId o) (chatLinks st) then st
          else
            {| ls_world := ls_world st;
               chatLinks := chatLinks st ++ [os_linkId o];
               owner_subs := owner_subs st;
               owner_runs := owner_runs st ++
                 [{| or_sub := sub; or_linkId := os_linkId o; or_enc := enc |}];
               request_subs := request_subs st; request_runs := request_runs st;
               actions := actions st |}
      end
  | InOwnerKeyResume run =>
      (* lines 358-378 *)
      match owner_runs st !! run with
      | None => st
      | Some r =>
          let st := {| ls_world := ls_world st; chatLinks := chatLinks st;
                       owner_subs := owner_subs st;
                       owner_runs := delete run (owner_runs st);
                       request_subs := request_subs st; request_runs := request_runs st;
                       actions := actions st |} in
          let sharedKey := SEA_decrypt (or_enc r) mySecret in
          if nullish sharedKey then st   (* sharedKey.epub throws *)
          else
            let sharedSecret := SEA_secret (js_prop sharedKey (js "epub")) (as_keypair sharedKey) in
            match formatChatLink urlRoot (pub key_) sharedSecret (JStr (or_linkId r)) with
            | None => st                 (* encodeURIComponent throws *)
            | Some url =>
                let acts := actions st ++ (if callback then [ALink url (or_linkId r)] else []) in
                if subscribe then
                  {| ls_world := gun_subscribe MapOn
                       [ToString (js_prop sharedKey (js "pub")); js "chatRequests"]
                       (HChatRequests (or_linkId r)) (ls_world st);
                     chatLinks := chatLinks st; owner_subs := owner_subs st;
                     owner_runs := owner_runs st;
                     request_subs := request_subs st ++
                       [{| rs_owner := or_sub r; rs_linkId := or_linkId r;
                           rs_sharedKey := sharedKey; rs_sharedSecret := sharedSecret |}];
                     request_runs := request_runs st;
                     actions := acts ++ [ARequests (or_linkId r) (length (request_subs st))] |}
                else
                  {| ls_world := ls_world st; chatLinks := chatLinks st;
                     owner_subs := owner_subs st; owner_runs := owner_runs st;
                     request_subs := request_subs st; request_runs := request_runs st;
                     actions := acts |}
            end
      end
  | InChatRequest sub encPub requestId =>
      (* lines 365-370 up to the await, or 365-368 and 374-376 *)
      match request_subs st !! sub with
      | None => st
      | Some r =>
          if negb (truthy encPub) then st
          else
            let s := JSON_stringify encPub in
            match owner_subs st !! rs_owner r with
            | None => st
            | Some o =>
                if negb (includes s (os_chats o)) then
                  {| ls_world := ls_world st; chatLinks := chatLinks st;
                     owner_subs := <[rs_owner r :=
                       {| os_linkId := os_linkId o; os_chats := os_chats o ++ [s] |}]> (owner_subs st);
                     owner_runs := owner_runs st;
                     request_subs := request_subs st;
                     request_runs := request_runs st ++
                       [{| rr_of := r; rr_encPub := encPub; rr_requestId := requestId; rr_s := s |}];
                     actions := actions st |}
                else
                  {| ls_world := remove_request r requestId (ls_world st);
                     chatLinks := chatLinks st; owner_subs := owner_subs st;
                     owner_runs := owner_runs st;
                     request_subs := request_subs st; request_runs := request_runs st;
                     actions := actions st |}
            end
      end
  | InChatRequestResume run =>
      (* lines 370-376 *)
      match request_runs st !! run with
      | None => st
      | Some rr =>
          let r := rr_of rr in
          let pub_ := SEA_decrypt (rr_encPub rr) (rs_sharedSecret r) in
          match new_Chat {| opt_key := key_; opt_chatLink := None;
                            opt_onMessage := false;
                            opt_participants := POne pub_ |} (ls_world st) with
          | Done _ chat w =>
              {| ls_world := remove_request r (rr_requestId rr) (after (save chat w));
                 chatLinks := chatLinks st; owner_subs := owner_subs st;
                 owner_runs := owner_runs st;
                 request_subs := request_subs st;
                 request_runs := delete run (request_runs st);
                 actions := actions st ++ [ANewChat (rs_linkId r) (rr_s rr) pub_] |}
          | Hang _ w | Throw _ w =>
              (* the constructor does not return: the callback ends here *)
              {| ls_world := w;
                 chatLinks := chatLinks st; owner_subs := owner_subs st;
                 owner_runs := owner_runs st;
                 request_subs := request_subs st;
                 request_runs := delete run (request_runs st);
                 actions := actions st |}
          end
      end
  end.

Definition links_run (st : links_state) (inputs : list links_input) : links_state :=
  List.fold_left links_step inputs st.

End GetMyChatLinks.


(** ** Predicates of the statements *)

(** A Unicode scalar value: a code point that is not a surrogate. *)
Definition scalar (cp : Z) : Prop :=
  0 <= cp < 1114112 /\ ~ (55296 <= cp <= 57343).

(** Timer ids are handed out in increasing order: every pending timer has an
    id below the next one. *)
Definition timers_ok (w : World) : Prop :=
  forall t, In t (timers w) -> (timer_id t < next_timer w)%positive.


(** How many elements of a list pass a test. *)
Definition count {A} (f : A -> bool) (l : list A) : nat := length (List.filter f l).

(** The tests of the counts about [getMyChatLinks]. *)
Definition is_link_callback (linkId : jsstring) (a : links_action) : bool :=
  match a with ALink _ l => jsstring_eqb l linkId | _ => false end.
Definition is_requests_subscription (linkId : jsstring) (a : links_action) : bool :=
  match a with ARequests l _ => jsstring_eqb l linkId | _ => false end.
Definition is_new_chat (linkId s : jsstring) (a : links_action) : bool :=
  match a with ANewChat l s' _ => jsstring_eqb l linkId && jsstring_eqb s' s | _ => false end.
Definition run_of_link (linkId : jsstring) (r : owner_run) : bool :=
  jsstring_eqb (or_linkId r) linkId.
Definition sub_of_link (linkId : jsstring) (r : request_sub) : bool :=
  jsstring_eqb (rs_linkId r) linkId.
Definition run_of_request (linkId s : jsstring) (r : request_run) : bool :=
  jsstring_eqb (rs_linkId (rr_of r)) linkId && jsstring_eqb (rr_s r) s.

(** 1 when [linkId] is in the array [chatLinks], else 0. *)
Definition claimed (linkId : jsstring) (st : links_state) : nat :=
  if includes linkId (chatLinks st) then 1%nat else 0%nat.

(** The array [chats] of the [i]-th run of the outer callback. *)
Definition chats_of (st : links_state) (i : nat) : list jsstring :=
  match owner_subs st !! i with Some o => os_chats o | None => [] end.

(** What holds of the links of [getMyChatLinks] at every moment: a link id
    in [chatLinks] stands for at most one run of the inner callback past
    its guard, suspended or gone on to its callback and subscription. *)
Definition links_inv (st : links_state) : Prop :=
  forall L,
    (count (run_of_link L) (owner_runs st) + count (sub_of_link L) (request_subs st)
       <= claimed L st)%nat /\
    (count (run_of_link L) (owner_runs st) + count (is_link_callback L) (actions st)
       <= claimed L st)%nat /\
    (count (is_requests_subscription L) (actions st)
       <= count (sub_of_link L) (request_subs st))%nat.

(** And of the requests: a payload in the array [chats] of a subscription
    stands for at most one run of the request callback past its guard,
    suspended or gone on to its [new Chat]. *)
Definition requests_inv (st : links_state) : Prop :=
  (forall L s,
     (count (run_of_request L s) (request_runs st) + count (is_new_chat L s) (actions st)
        <= 1)%nat) /\
  (forall rr, In rr (request_runs st) ->
     In (rr_of rr) (request_subs st) /\ In (rr_s rr) (chats_of st (rs_owner (rr_of rr)))) /\
  (forall L s p, In (ANewChat L s p) (actions st) ->
     exists r, In r (request_subs st) /\ rs_linkId r = L /\ In s (chats_of st (rs_owner r))).

(** A computation only adds to the log of actions. *)
Definition appends {A} (m : M A) : Prop :=
  forall c w, exists l, events (after (m c w)) = events w ++ l.

(** The identity [p] has published the encryption key [e]. *)
Definition published (w : World) (p : jsstring) (e : jsval) : Prop :=
  store w !! [p; js "epub"] = Some e /\ e <> JUndefined.

(** [n] calls of [m] one after the other, and what each returned. *)
Fixpoint repeatedly {A} (n : nat) (m : M A) : M (list A) :=
  match n with
  | O => ret []
  | S n' => a <- m ;; r <- repeatedly n' m ;; ret (a :: r)
  end.

Section Predicates.
Context `{SEA} `{Builtins}.

(** The channel id of the messages [k] writes to [p], from the secret the
    two share. *)
Definition channel_id (secret : jsval) (p : jsstring) : jsval :=
  JStr (SEA_work (JStr (ToString secret ++ p))).

(** The caches of a Chat hold nothing but what the methods would compute
    from the keys published in [w]. *)
Definition memo_ok (c : Chat) (w : World) : Prop :=
  (forall p v, assoc p (secrets c) = Some v -> truthy v = true ->
     exists e, published w p e /\ v = SEA_secret e (key c)) /\
  (forall p v, assoc p (ourSecretChatIds c) = Some v -> truthy v = true ->
     exists e, published w p e /\ v = channel_id (SEA_secret e (key c)) p) /\
  (forall p v, assoc p (theirSecretChatIds c) = Some v -> truthy v = true ->
     exists e, published w p e /\ v = channel_id (SEA_secret e (key c)) (me c)).

(** What [gunOnceDefined] finds at a node, if anything. *)
Definition defined_at (w : World) (p : path) : option jsval :=
  match store w !! p with
  | Some JUndefined | None => None
  | Some v => Some v
  end.

(** The secret [getSecret(k)] is going to return: the cached one when it is
    truthy, else the one derived from the published key; none when there is
    no key to read. *)
Definition secret_for (c : Chat) (w : World) (k : jsstring) : option jsval :=
  let s := obj_get k (secrets c) in
  if truthy s then Some s
  else option_map (fun e => SEA_secret e (key c)) (defined_at w [k; js "epub"]).

(** The id [getOurSecretChatId(k)] is going to return. *)
Definition id_for (c : Chat) (w : World) (k : jsstring) : option jsval :=
  let i := obj_get k (ourSecretChatIds c) in
  if truthy i then Some i
  else option_map (fun s => channel_id s k) (secret_for c w k).

(** [c'] is [c] with more of its secrets and ids cached. *)
Definition caches_agree (w : World) (c c' : Chat) : Prop :=
  key c' = key c /\ onMessage c' = onMessage c /\
  (forall k, secret_for c' w k = secret_for c w k) /\
  (forall k, id_for c' w k = id_for c w k).

(** The two worlds publish the same encryption keys. *)
Definition same_epubs (w w' : World) : Prop :=
  forall k, store w' !! [k; js "epub"] = store w !! [k; js "epub"].

(** The ids of the participants [ks], up to the first whose id cannot be
    derived. *)
Fixpoint ids_until_stuck (c : Chat) (w : World) (ks : list jsstring) : list jsval :=
  match ks with
  | [] => []
  | k :: r =>
      match id_for c w k with
      | Some i => i :: ids_until_stuck c w r
      | None => []
      end
  end.

(** The write [save] makes for the channel [i]. *)
Definition sentinel (c : Chat) (i : jsval) : event :=
  EPut (msgs_node c i (js "a")) JNull.

(** The store after the sentinel has been written for the channels [ids]. *)
Definition with_sentinels (c : Chat) (ids : list jsval) (g : gmap path jsval)
  : gmap path jsval :=
  List.fold_left (fun g i => <[msgs_node c i (js "a") := JNull]> g) ids g.

(** The two worlds differ in the store and the log of actions at most. *)
Definition same_process (w w' : World) : Prop :=
  auth w' = auth w /\ clock w' = clock w /\ timers w' = timers w /\
  next_timer w' = next_timer w /\ setOnlineInterval w' = setOnlineInterval w /\
  entropy w' = entropy w.

(** [v] is [msg] encrypted for a participant of [c]. *)
Definition payload (c : Chat) (w : World) (msg v : jsval) : Prop :=
  exists n k s,
    In k (List.map fst (secrets c)) /\ secret_for c w k = Some s /\
    v = JStr (SEA_encrypt n (JStr (JSON_stringify msg)) s).

(** In the store [g] the slot [msgs/<t>] and the slot [latestMsg] of the
    channel [i] both hold one payload of [msg]. *)
Definition slots_hold (c : Chat) (w : World) (msg : jsval) (t : jsstring)
    (g : gmap path jsval) (i : jsval) : Prop :=
  exists v, g !! msgs_node c i t = Some v /\ g !! latestMsg_node c i = Some v /\
            payload c w msg v.

(** The nodes a [send] of a message with time [t] may write. *)
Definition written_by_send (c : Chat) (t : jsstring) (p : path) : Prop :=
  exists i, p = msgs_node c i t \/ p = latestMsg_node c i.

(** [c'] is [c] later in its life: the same key and callback, the same
    participants in the same order. *)
Definition later (c c' : Chat) : Prop :=
  key c' = key c /\ onMessage c' = onMessage c /\
  List.map fst (secrets c') = List.map fst (secrets c).

End Predicates.

(** ** A small instance of the primitives, to run the model on *)

Module Toy.

(** Diffie-Hellman in the integers modulo a prime. *)
Definition modulus : Z := 1000003.

Definition secret (e : jsval) (k : keypair) : jsval :=
  match e, epriv k with
  | JNum y, JNum x => JNum (y ^ x mod modulus)
  | _, _ => JUndefined
  end.

(** The key pair of [name] with private exponent [x]. *)
Definition pair (name : string) (x : Z) : keypair :=
  {| pub := JStr (js name); epub := JNum (2 ^ x mod modulus);
     priv := JNum x; epriv := JNum x |}.

(** The "hash" of a value is its text after a [#]; it has no collisions on
    strings. *)
Definition work (v : jsval) : jsstring := 35 :: ToString v.

(** A ciphertext is [SEA<secret>|<iv>|<plaintext>]. *)
Definition encrypt (iv : nat) (data secret : jsval) : jsstring :=
  js "SEA" ++ ToString secret ++ [124] ++ js (pretty iv) ++ [124] ++ ToString data.

Fixpoint strip_prefix (pre s : jsstring) : option jsstring :=
  match pre, s with
  | [], _ => Some s
  | a :: pre', b :: s' => if a =? b then strip_prefix pre' s' else None
  | _ :: _, [] => None
  end.

Fixpoint after_bar (s : jsstring) : option jsstring :=
  match s with
  | [] => None
  | c :: r => if c =? 124 then Some r else after_bar r
  end.

(** The plaintext read as JSON, as far as the examples go: [null], the text
    [{sharedKey}] (the ephemeral key pair of a link), any other text in braces
    (an object holding it), a text in double quotes. *)
Definition parse (s : jsstring) : jsval :=
  if jsstring_eqb s (js "{sharedKey}") then
    JObj [(js "pub", JStr (js "link")); (js "epub", JNum (2 ^ 11 mod modulus));
          (js "priv", JNum 11); (js "epriv", JNum 11)]
  else
    match s with
    | [110; 117; 108; 108] => JNull
    | 123 :: _ => JObj [(js "json", JStr s)]
    | 34 :: r => JStr (removelast r)
    | _ => JUndefined
    end.

Definition decrypt (data secret : jsval) : jsval :=
  match data with
  | JStr s =>
      match strip_prefix (js "SEA" ++ ToString secret ++ [124]) s with
      | Some r => match after_bar r with Some t => parse t | None => JUndefined end
      | None => JUndefined
      end
  | _ => JUndefined
  end.

Definition stringify (v : jsval) : jsstring :=
  match v with
  | JNull => js "null"
  | JStr s => [34] ++ s ++ [34]
  | JObj fs => [123] ++ List.concat (List.map (fun f => fst f ++ [58] ++ ToString (snd f) ++ [59]) fs) ++ [125]
  | v => ToString v
  end.

Definition sea : SEA :=
  {| SEA_secret := secret; SEA_work := work; SEA_encrypt := encrypt; SEA_decrypt := decrypt |}.

Definition builtins : Builtins :=
  {| JSON_stringify := stringify; toISOString := fun t => js (pretty (Qfloor t)) |}.

(** A store in which [alice] and [bob] have published their encryption keys,
    at 1500 ms of the store clock. *)
Definition alice : keypair := pair "alice" 5.
Definition bob : keypair := pair "bob" 7.

Definition world0 : World :=
  {| store := <[ [js "alice"; js "epub"] := epub alice ]>
              (<[ [js "bob"; js "epub"] := epub bob ]> ∅);
     auth := None; clock := inject_Z 1500; timers := []; next_timer := 1%positive;
     setOnlineInterval := None; entropy := O; events := [] |}.

(** A Chat object as the constructor initialises it (lines 19-27). *)
Definition fresh (k : keypair) (cb : bool) : Chat :=
  {| key := k; secrets := []; ourSecretChatIds := []; theirSecretChatIds := [];
     onMessage := cb |}.

End Toy.

(** ** The rest of the Chat class: listing, notifications, housekeeping *)

(** The callbacks these methods register, by the place they are written. *)
Inductive listener :=
| LChats                                  (* getChats, line 106 *)
| LLatestMsg (k : jsstring)               (* getLatestMsg, line 151 *)
| LMyMsgsLastSeenTime (k : jsstring)      (* getMyMsgsLastSeenTime, line 183 *)
| LTheirMsgsLastSeenTime (k : jsstring).  (* getTheirMsgsLastSeenTime, line 199 *)

(** A subscription a method makes: [node.on(cb)] and the like. *)
Record registration := {
  reg_kind : subscription;
  reg_node : path;
  reg_listener : listener }.

(** A loop over keys, with awaits inside, whose rounds each yield a value. *)
Fixpoint for_each_collect {K A} (keys : list K) (body : K -> M A) : M (list A) :=
  match keys with
  | [] => ret []
  | k :: r => a <- body k ;; l <- for_each_collect r body ;; ret (a :: l)
  end.

(** The other nodes of a channel kept in the namespace [user]. *)
Definition chat_node (user : jsstring) (chatId : jsval) : path :=
  [user; js "chats"; ToString chatId].
Definition pub_node (user : jsstring) (chatId : jsval) : path :=
  [user; js "chats"; ToString chatId; js "pub"].
Definition msgsLastSeenTime_node (user : jsstring) (chatId : jsval) : path :=
  [user; js "chats"; ToString chatId; js "msgsLastSeenTime"].

(** The static methods run in [M] like the others; they pass the object
    through untouched. *)
Module Static.

(** static async getOurSecretChatId(gun, pub, pair) (lines 81-85) *)
Definition getOurSecretChatId `{SEA} (pub_ : jsstring) (pair : keypair) : M jsval :=
  epub <- gunOnceDefined [pub_; js "epub"] ;;
  let secret := SEA_secret epub pair in
  ret (JStr (SEA_work (JStr (ToString secret ++ pub_)))).

(** static async getTheirSecretChatId(gun, pub, pair) (lines 90-94) *)
Definition getTheirSecretChatId `{SEA} (pub_ : jsstring) (pair : keypair) : M jsval :=
  epub <- gunOnceDefined [pub_; js "epub"] ;;
  let secret := SEA_secret epub pair in
  ret (JStr (SEA_work (JStr (ToString secret ++ ToString (pub pair))))).

End Static.

Section Listing.
Context `{SEA} `{Builtins}.

(** static async getChats(gun, keypair, callback) (lines 104-113): the
    subscription it makes, on the [chats] of the namespace the store handle is
    authenticated for. *)
Definition getChats (w : World) : list registration :=
  match auth w with
  | Some user =>
      [{| reg_kind := MapOn; reg_node := [user; js "chats"]; reg_listener := LChats |}]
  | None => []
  end.

(** The callback of that subscription (lines 106-112) on
    [(value, ourSecretChatId)]: what [callback] is called with, if it is
    called. *)
Definition on_chats (keypair_ : keypair) (value : jsval) (ourSecretChatId : jsstring)
  : M (option jsval) :=
  let mySecret := SEA_secret (epub keypair_) keypair_ in
  if truthy value then
    w <- world ;;
    match auth w with
    | Some user =>
        encryptedPub <- gunOnceDefined (pub_node user (JStr ourSecretChatId)) ;;
        ret (Some (SEA_decrypt encryptedPub mySecret))
    | None => hang
    end
  else ret None.

(** One round of the loop of [getLatestMsg] (lines 150-151). *)
Definition getLatestMsg_for (k : jsstring) : M registration :=
  ourSecretChatId <- getOurSecretChatId k ;;
  c <- this ;;
  ret {| reg_kind := On; reg_node := latestMsg_node c ourSecretChatId;
         reg_listener := LLatestMsg k |}.

(** async getLatestMsg(callback) (lines 147-160): the subscriptions made. *)
Definition getLatestMsg : M (list registration) :=
  c <- this ;;
  for_each_collect (Object_keys (secrets c)) getLatestMsg_for.

(** The callback of line 151 for the participant [k], on [data]: the
    arguments [callback] is called with, if it is called. *)
Definition on_latestMsg (k : jsstring) (data : jsval) : M (option (jsval * jsval)) :=
  secret <- getSecret k ;;
  let decrypted := SEA_decrypt data secret in
  if negb (jsstring_eqb (typeof decrypted) (js "object")) then ret None
  else ret (Some (decrypted, JObj [])).

(** One round of the loop of [setMyMsgsLastSeenTime] (lines 170-172). *)
Definition setMyMsgsLastSeenTime_for (time : jsval) (k : jsstring) : M unit :=
  secret <- getSecret k ;;
  encrypted <- encrypt time secret ;;
  ourSecretChatId <- getOurSecretChatId k ;;
  c <- this ;;
  update_world (gun_put (msgsLastSeenTime_node (me c) ourSecretChatId) encrypted).

(** [time || new Date().toISOString()] (line 168). *)
Definition time_or_now (time : jsval) (w : World) : jsval :=
  if truthy time then time else JStr (toISOString (clock w)).

(** async setMyMsgsLastSeenTime(time) (lines 166-174) *)
Definition setMyMsgsLastSeenTime (time : jsval) : M unit :=
  c <- this ;;
  w <- world ;;
  for_each (Object_keys (secrets c)) (setMyMsgsLastSeenTime_for (time_or_now time w)).

(** One round of the loop of [getMyMsgsLastSeenTime] (lines 182-183). *)
Definition getMyMsgsLastSeenTime_for (k : jsstring) : M registration :=
  ourSecretChatId <- getOurSecretChatId k ;;
  c <- this ;;
  ret {| reg_kind := On; reg_node := msgsLastSeenTime_node (me c) ourSecretChatId;
         reg_listener := LMyMsgsLastSeenTime k |}.

(** async getMyMsgsLastSeenTime(callback) (lines 179-190): the subscriptions
    made. *)
Definition getMyMsgsLastSeenTime : M (list registration) :=
  c <- this ;;
  for_each_collect (Object_keys (secrets c)) getMyMsgsLastSeenTime_for.

(** The callback of line 183 for the participant [k], on [data]: the value
    assigned to [this.myMsgsLastSeenTime], and what [callback], when one is
    given, is called with. *)
Definition on_myMsgsLastSeenTime (callback : bool) (k : jsstring) (data : jsval)
  : M (jsval * option jsval) :=
  secret <- getSecret k ;;
  let seen := SEA_decrypt data secret in
  ret (seen, if callback then Some seen else None).

(** One round of the loop of [getTheirMsgsLastSeenTime] (lines 198-199). *)
Definition getTheirMsgsLastSeenTime_for (k : jsstring) : M registration :=
  theirSecretChatId <- getTheirSecretChatId k ;;
  ret {| reg_kind := On; reg_node := msgsLastSeenTime_node k theirSecretChatId;
         reg_listener := LTheirMsgsLastSeenTime k |}.

(** async getTheirMsgsLastSeenTime(callback) (lines 195-206): the
    subscriptions made. *)
Definition getTheirMsgsLastSeenTime : M (list registration) :=
  c <- this ;;
  for_each_collect (Object_keys (secrets c)) getTheirMsgsLastSeenTime_for.

(** The callback of line 199 for the participant [k], on [data]: the value
    assigned to [this.theirMsgsLastSeenTime], and the arguments [callback],
    when one is given, is called with. *)
Definition on_theirMsgsLastSeenTime (callback : bool) (k : jsstring) (data : jsval)
  : M (jsval * option (jsval * jsstring)) :=
  secret <- getSecret k ;;
  let seen := SEA_decrypt data secret in
  ret (seen, if callback then Some (seen, k) else None).

(** static initUser(gun, key) (lines 311-315) *)
Definition initUser (key_ : keypair) (w : World) : World :=
  let user := ToString (pub key_) in
  gun_put [user] (JObj [(js "epub", epub key_)]) (with_auth (Some user) w).

(** static removeChatLink(gun, key, linkId) (lines 386-389) *)
Definition removeChatLink (key_ : keypair) (linkId : jsstring) (w : World) : World :=
  let user := ToString (pub key_) in
  gun_put [user; js "chatLinks"; linkId] JNull (with_auth (Some user) w).

(** static async deleteChat(gun, key, pub) (lines 394-399); the result is the
    node whose listeners [off()] removes. *)
Definition deleteChat (key_ : keypair) (pub_ : jsstring) : M path :=
  let user := ToString (pub key_) in
  update_world (with_auth (Some user)) ;;;
  chatId <- Static.getOurSecretChatId pub_ key_ ;;
  update_world (gun_put (chat_node user chatId) JNull) ;;;
  ret (chat_node user chatId).

End Listing.

(** The store clock reads [t]. *)
Definition with_clock (t : Q) (w : World) : World :=
  {| store := store w; auth := auth w; clock := t; timers := timers w;
     next_timer := next_timer w; setOnlineInterval := setOnlineInterval w;
     entropy := entropy w; events := events w |}.

(** ** Making an invite link and answering one *)

(** [Gun.SEA.pair()], by the randomness the call draws. *)
Class Pairs := { SEA_pair : nat -> keypair }.

(** A key pair as the object [Gun.SEA.pair()] returns. *)
Definition keypair_object (k : keypair) : jsval :=
  JObj [(js "pub", pub k); (js "priv", priv k); (js "epub", epub k); (js "epriv", epriv k)].

(** Modelled from the spec: [util.gunAsAnotherUser(gun, key, f)] (src/util.js
    is not among the sources) runs [f] on the namespace of [key]: "ensure the
    ephemeral keypair's namespace exists in the store", "write the ciphertext
    under the ephemeral keypair's own namespace at chatRequests/<requestId>". *)
Definition put_as (key_ : jsval) (rest : path) (v : jsval) (w : World) : World :=
  gun_put (ToString (js_prop key_ (js "pub")) :: rest) v w.

Section Invite.
Context `{SEA} `{Builtins} `{Pairs}.

(** [Gun.SEA.pair()], drawing fresh randomness. *)
Definition pair : M keypair :=
  fun c w => Done (SEA_pair (entropy w)) c (with_entropy (S (entropy w)) w).

(** static async createChatLink(gun, key, urlRoot) (lines 324-345); it throws
    where [formatChatLink] does. *)
Definition createChatLink (key_ : keypair) (urlRoot : jsval) : M jsstring :=
  let user := ToString (pub key_) in
  update_world (with_auth (Some user)) ;;;
  sharedKey <- pair ;;
  let sharedKeyString := JStr (JSON_stringify (keypair_object sharedKey)) in
  let sharedSecret := SEA_secret (epub sharedKey) sharedKey in
  encryptedSharedKey <- encrypt sharedKeyString sharedSecret ;;
  let ownerSecret := SEA_secret (epub key_) key_ in
  ownerEncryptedSharedKey <- encrypt sharedKeyString ownerSecret ;;
  let linkId := take 12 (SEA_work encryptedSharedKey) in
  update_world (put_as (keypair_object sharedKey) [js "chatRequests"] (JObj [(js "a", JNum 1)])) ;;;
  update_world (gun_put [user; js "chatLinks"; linkId]
                  (JObj [(js "encryptedSharedKey", encryptedSharedKey);
                         (js "ownerEncryptedSharedKey", ownerEncryptedSharedKey)])) ;;;
  match formatChatLink urlRoot (pub key_) sharedSecret (JStr linkId) with
  | Some url => ret url
  | None => throw
  end.


End Invite.

(** ** More predicates of the statements *)

(** Whatever randomness the encryption draws, [data] encrypted under
    [secret] decrypts under it to [v]. *)
Definition opens `{SEA} (secret data v : jsval) : Prop :=
  forall n, SEA_decrypt (JStr (SEA_encrypt n data secret)) secret = v.

(** [v] is the message [msg] encrypted under [secret], with some
    randomness. *)
Definition sealed `{SEA} `{Builtins} (msg secret v : jsval) : Prop :=
  exists n, v = JStr (SEA_encrypt n (JStr (JSON_stringify msg)) secret).

(** A value the store keeps at the node it is [put] to: anything but an
    object (stored property by property) and [undefined]. *)
Definition plain (v : jsval) : Prop :=
  v <> JUndefined /\ forall fs, v <> JObj fs.

(** ** A second instance, whose ciphertexts decrypt to what was encrypted *)

Module Wire.

(** The text of a value: a tag, then the digits of a number up to [;], the
    length and the code units of a string, the number of properties of an
    object and, for each, its key and the text of its value. *)
Fixpoint write (v : jsval) : jsstring :=
  match v with
  | JUndefined => [117]
  | JNull => [110]
  | JBool true => [116]
  | JBool false => [102]
  | JNum n => [105] ++ js (pretty n) ++ [59]
  | JStr s => [115] ++ js (pretty (length s)) ++ [58] ++ s
  | JObj fs =>
      [111] ++ js (pretty (length fs)) ++ [58] ++
      (fix each (fs : list (jsstring * jsval)) : jsstring :=
         match fs with
         | [] => []
         | (k, v') :: r => js (pretty (length k)) ++ [58] ++ k ++ write v' ++ each r
         end) fs
  end.

(** The digits at the head of a text, and the rest. *)
Fixpoint digits (s : jsstring) : jsstring * jsstring :=
  match s with
  | c :: r => if is_digit c then let (d, t) := digits r in (c :: d, t) else ([], s)
  | [] => ([], [])
  end.

Definition read_count (s : jsstring) : option (nat * jsstring) :=
  match digits s with
  | (d, 58 :: r) => Some (Z.to_nat (digits_value 0 d), r)
  | _ => None
  end.

Definition read_text (s : jsstring) : option (jsstring * jsstring) :=
  match read_count s with
  | Some (n, r) => if (n <=? length r)%nat then Some (take n r, drop n r) else None
  | None => None
  end.

Fixpoint read (fuel : nat) (s : jsstring) : option (jsval * jsstring) :=
  match fuel with
  | O => None
  | S fuel' =>
      match s with
      | 117 :: r => Some (JUndefined, r)
      | 110 :: r => Some (JNull, r)
      | 116 :: r => Some (JBool true, r)
      | 102 :: r => Some (JBool false, r)
      | 105 :: 45 :: r =>
          match digits r with
          | (d, 59 :: t) => Some (JNum (- digits_value 0 d), t)
          | _ => None
          end
      | 105 :: r =>
          match digits r with
          | (d, 59 :: t) => Some (JNum (digits_value 0 d), t)
          | _ => None
          end
      | 115 :: r =>
          match read_text r with
          | Some (x, t) => Some (JStr x, t)
          | None => None
          end
      | 111 :: r =>
          match read_count r with
          | Some (n, t) =>
              match (fix fields (n : nat) (s : jsstring)
                       : option (list (jsstring * jsval) * jsstring) :=
                       match n with
                       | O => Some ([], s)
                       | S n' =>
                           match read_text s with
                           | Some (k, s1) =>
                               match read fuel' s1 with
                               | Some (v, s2) =>
                                   match fields n' s2 with
                                   | Some (fs, s3) => Some ((k, v) :: fs, s3)
                                   | None => None
                                   end
                               | None => None
                               end
                           | None => None
                           end
                       end) n t with
              | Some (fs, t') => Some (JObj fs, t')
              | None => None
              end
          | None => None
          end
      | _ => None
      end
  end.

(** The value a plaintext stands for: the value it is the text of, or else
    the plaintext itself. *)
Definition parse (s : jsstring) : jsval :=
  match read (S (length s)) s with
  | Some (v, []) => v
  | _ => JStr s
  end.

(** A ciphertext is [SEA<secret>|<iv>|<plaintext>], the [iv] in unary; what
    is not a string is encrypted as its text. *)
Definition encrypt (iv : nat) (data secret : jsval) : jsstring :=
  js "SEA" ++ ToString secret ++ [124] ++ replicate iv 105 ++ [124] ++
  match data with JStr s => s | v => write v end.

Definition decrypt (data secret : jsval) : jsval :=
  match data with
  | JStr s =>
      match Toy.strip_prefix (js "SEA" ++ ToString secret ++ [124]) s with
      | Some r => match Toy.after_bar r with Some t => parse t | None => JUndefined end
      | None => JUndefined
      end
  | _ => JUndefined
  end.

Definition sea : SEA :=
  {| SEA_secret := Toy.secret; SEA_work := Toy.work;
     SEA_encrypt := encrypt; SEA_decrypt := decrypt |}.

Definition builtins : Builtins :=
  {| JSON_stringify := write; toISOString := fun t => js (pretty (Qfloor t)) |}.

(** Every drawn pair is the same one, named [link]. *)
Definition pairs : Pairs :=
  {| SEA_pair := fun _ =>
       {| pub := JStr (js "link"); epub := JNum (2 ^ 11 mod Toy.modulus);
          priv := JNum 11; epriv := JNum 11 |} |}.

End Wire.

(** ** Identity profiles (src/identity.js): the most verified attributes *)

Module Identity.






Section LinkTo.
(** [Attribute.isUniqueType] (src/attribute.js, not among the sources). *)
Variable isUniqueType : jsstring -> bool.



End LinkTo.








End Identity.


(* ===================================================================== *)
(** * Part II: properties *)
(* ===================================================================== *)

(** ** URI components: what is encoded decodes to what it was *)

Ltac zdm := Z.div_mod_to_equations; lia.

(** Decides the integer comparisons in the goal, closing the impossible
    branches by arithmetic. *)
Ltac zcases :=
  repeat match goal with
    | |- context [?a <? ?b] =>
        destruct (Z.ltb_spec a b); try (exfalso; zdm)
    | |- context [?a <=? ?b] =>
        destruct (Z.leb_spec a b); try (exfalso; zdm)
    | |- context [?a =? ?b] =>
        destruct (Z.eqb_spec a b); try (exfalso; zdm)
    end.

Lemma hex_value_digit d : 0 <= d < 16 -> hex_value (hex_digit d) = Some d.
Proof.
  intros Hd. unfold hex_value, hex_digit.
  zcases; simpl; f_equal; lia.
Qed.

Lemma read_percent_percent b r :
  0 <= b < 256 -> read_percent (percent b ++ r) = Some (b, r).
Proof.
  intros Hb. unfold percent, read_percent. simpl.
  rewrite !hex_value_digit by zdm.
  do 2 f_equal. zdm.
Qed.

Lemma read_continuation_percent x r :
  0 <= x < 64 -> read_continuation (percent (128 + x) ++ r) = Some (x, r).
Proof.
  intros Hx. unfold read_continuation.
  rewrite read_percent_percent by lia.
  zcases. simpl. do 2 f_equal. lia.
Qed.

Lemma read_escape_utf8 cp r :
  scalar cp -> read_escape (percent_utf8 cp ++ r) = Some (cp, r).
Proof.
  intros [Hr Hs]. unfold percent_utf8, utf8.
  destruct (Z.ltb_spec cp 128); [|destruct (Z.ltb_spec cp 2048); [|destruct (Z.ltb_spec cp 65536)]];
    cbn [List.map List.concat]; rewrite <- ?app_assoc, ?app_nil_r; unfold read_escape.
  - rewrite read_percent_percent by lia.
    zcases; reflexivity.
  - rewrite read_percent_percent by zdm.
    rewrite read_continuation_percent by zdm.
    zcases; cbn; do 2 f_equal; zdm.
  - rewrite read_percent_percent by zdm.
    rewrite !read_continuation_percent by zdm.
    assert (E : (224 + cp / 4096 - 224) * 4096 + (cp / 64) mod 64 * 64 + cp mod 64 = cp) by zdm.
    rewrite E. zcases; cbn; reflexivity.
  - rewrite read_percent_percent by zdm.
    rewrite !read_continuation_percent by zdm.
    assert (E : (240 + cp / 262144 - 240) * 262144 + (cp / 4096) mod 64 * 4096
                + (cp / 64) mod 64 * 64 + cp mod 64 = cp) by zdm.
    rewrite E. zcases; cbn; reflexivity.
Qed.

Lemma percent_utf8_head cp : exists r, percent_utf8 cp = 37 :: r /\ (2 <= length r)%nat.
Proof.
  unfold percent_utf8, utf8.
  destruct (cp <? 128); [|destruct (cp <? 2048); [|destruct (cp <? 65536)]];
    cbn; eexists; (split; [reflexivity|cbn; lia]).
Qed.

Lemma decode_fuel_escape fuel cp r :
  scalar cp ->
  decode_fuel (S fuel) (percent_utf8 cp ++ r) = option_map (app (utf16 cp)) (decode_fuel fuel r).
Proof.
  intros Hcp.
  destruct (percent_utf8_head cp) as (t & E & _).
  pose proof (read_escape_utf8 cp r Hcp) as R.
  rewrite E in *. change ((37 :: t) ++ r) with (37 :: (t ++ r)) in *.
  cbn [decode_fuel]. rewrite Z.eqb_refl, R. reflexivity.
Qed.

Lemma unreserved_not_percent c : unreserved c = true -> (c =? 37) = false.
Proof.
  unfold unreserved. intros Hc. destruct (Z.eqb_spec c 37) as [->|]; [discriminate|reflexivity].
Qed.

Lemma utf16_bmp c : code_unit c -> utf16 c = [c].
Proof. unfold code_unit, utf16. intros. zcases. reflexivity. Qed.

Lemma utf16_pair c d :
  is_high_surrogate c = true -> is_low_surrogate d = true ->
  utf16 ((c - 55296) * 1024 + (d - 56320) + 65536) = [c; d].
Proof.
  unfold is_high_surrogate, is_low_surrogate, utf16.
  intros [H1 H2]%andb_prop [H3 H4]%andb_prop.
  apply Z.leb_le in H1, H2, H3, H4.
  zcases. f_equal; [|f_equal]; zdm.
Qed.

Lemma scalar_bmp c :
  code_unit c -> is_high_surrogate c = false -> is_low_surrogate c = false -> scalar c.
Proof.
  unfold code_unit, is_high_surrogate, is_low_surrogate, scalar.
  intros Hc H1 H2. split; [lia|].
  intros [Ha Hb].
  apply andb_false_iff in H1, H2.
  rewrite !Z.leb_gt in H1, H2. lia.
Qed.

Lemma scalar_pair c d :
  is_high_surrogate c = true -> is_low_surrogate d = true ->
  scalar ((c - 55296) * 1024 + (d - 56320) + 65536).
Proof.
  unfold is_high_surrogate, is_low_surrogate, scalar.
  intros [H1 H2]%andb_prop [H3 H4]%andb_prop.
  apply Z.leb_le in H1, H2, H3, H4. lia.
Qed.

(** Decoding undoes encoding, on any string of code units whose encoding
    exists. *)
Lemma decode_fuel_encode n :
  forall s e fuel,
    (length s <= n)%nat -> Forall code_unit s ->
    encodeURIComponent s = Some e -> (length e <= fuel)%nat ->
    decode_fuel fuel e = Some s.
Proof.
  induction n as [|n IH]; intros s e fuel Hn Hs He Hf.
  - destruct s; [|simpl in Hn; lia]. simpl in He. injection He as <-.
    destruct fuel; reflexivity.
  - destruct s as [|c r]. { simpl in He. injection He as <-. destruct fuel; reflexivity. }
    simpl in Hn. apply Forall_cons in Hs as [Hc Hr].
    simpl in He.
    destruct (unreserved c) eqn:Hu.
    + destruct (encodeURIComponent r) as [e'|] eqn:Er; [|discriminate].
      injection He as <-. destruct fuel as [|fuel]; [simpl in Hf; lia|].
      cbn [decode_fuel]. rewrite (unreserved_not_percent _ Hu).
      rewrite (IH r e' fuel); [reflexivity|lia|assumption|assumption|simpl in Hf; lia].
    + destruct (is_low_surrogate c) eqn:Hl; [discriminate|].
      destruct (is_high_surrogate c) eqn:Hh.
      * destruct r as [|d r']; [discriminate|].
        destruct (is_low_surrogate d) eqn:Hd; [|discriminate].
        destruct (encodeURIComponent r') as [e'|] eqn:Er; [|discriminate].
        injection He as <-.
        apply Forall_cons in Hr as [_ Hr'].
        destruct (percent_utf8_head ((c - 55296) * 1024 + (d - 56320) + 65536)) as (t & Et & Ht).
        destruct fuel as [|fuel].
        { rewrite Et in Hf. simpl in Hf. lia. }
        rewrite decode_fuel_escape by (apply scalar_pair; assumption).
        rewrite (IH r' e' fuel); [|simpl in Hn; lia|assumption|assumption|].
        -- simpl. rewrite utf16_pair by assumption. reflexivity.
        -- rewrite Et in Hf. simpl in Hf. rewrite length_app in Hf. lia.
      * destruct (encodeURIComponent r) as [e'|] eqn:Er; [|discriminate].
        injection He as <-.
        destruct (percent_utf8_head c) as (t & Et & Ht).
        destruct fuel as [|fuel].
        { rewrite Et in Hf. simpl in Hf. lia. }
        rewrite decode_fuel_escape by (apply scalar_bmp; assumption).
        rewrite (IH r e' fuel); [|lia|assumption|assumption|].
        -- simpl. rewrite utf16_bmp by assumption. reflexivity.
        -- rewrite Et in Hf. simpl in Hf. rewrite length_app in Hf. lia.
Qed.

Lemma decode_encode s e :
  Forall code_unit s -> encodeURIComponent s = Some e -> decodeURIComponent e = Some s.
Proof.
  intros Hs He. unfold decodeURIComponent.
  apply (decode_fuel_encode (length s) s e); auto.
Qed.

Lemma well_formed_code_units s : well_formed s -> Forall code_unit s.
Proof.
  remember (length s) as n eqn:Hn. revert s Hn.
  induction n as [n IH] using lt_wf_ind. intros s Hn Hw.
  destruct s as [|c r]; [constructor|].
  simpl in Hw. destruct Hw as [Hc Hw]. constructor; [assumption|].
  destruct (is_low_surrogate c); [contradiction|].
  destruct (is_high_surrogate c).
  - destruct r as [|d r']; [contradiction|]. destruct Hw as [Hd Hw].
    constructor.
    + unfold is_low_surrogate in Hd. apply andb_prop in Hd as [H1 H2].
      apply Z.leb_le in H1, H2. unfold code_unit. lia.
    + apply (IH (length r')); [simpl in Hn; lia|reflexivity|assumption].
  - apply (IH (length r)); [simpl in Hn; lia|reflexivity|assumption].
Qed.

(** A well-formed string has an encoding: [encodeURIComponent] does not
    throw on it. *)
Lemma encode_well_formed s : well_formed s -> exists e, encodeURIComponent s = Some e.
Proof.
  remember (length s) as n eqn:Hn. revert s Hn.
  induction n as [n IH] using lt_wf_ind. intros s Hn Hw.
  destruct s as [|c r]; [eexists; reflexivity|].
  simpl in Hw. destruct Hw as [Hc Hw]. simpl.
  destruct (unreserved c) eqn:Hu.
  - assert (Hr : well_formed r).
    { destruct (is_low_surrogate c); [contradiction|].
      destruct (is_high_surrogate c) eqn:Hh; [|assumption].
      exfalso. unfold unreserved, is_high_surrogate in *.
      apply andb_prop in Hh as [H1 H2]. apply Z.leb_le in H1, H2.
      revert Hu. zcases; simpl; discriminate. }
    destruct (IH (length r)) with (s := r) as [e He]; [simpl in Hn; lia|reflexivity|assumption|].
    rewrite He. eexists; reflexivity.
  - destruct (is_low_surrogate c); [contradiction|].
    destruct (is_high_surrogate c).
    + destruct r as [|d r']; [contradiction|]. destruct Hw as [Hd Hw]. rewrite Hd.
      destruct (IH (length r')) with (s := r') as [e He]; [simpl in Hn; lia|reflexivity|assumption|].
      rewrite He. eexists; reflexivity.
    + destruct (IH (length r)) with (s := r) as [e He]; [simpl in Hn; lia|reflexivity|assumption|].
      rewrite He. eexists; reflexivity.
Qed.

(** A well-formed field has an encoding, and the encoding decodes to it. *)
Lemma encode_decode_field s :
  well_formed s -> exists e, encodeURIComponent s = Some e /\ decodeURIComponent e = Some s.
Proof.
  intros Hs. destruct (encode_well_formed _ Hs) as [e He].
  exists e. split; [exact He|]. apply decode_encode; [apply well_formed_code_units, Hs|exact He].
Qed.

(** C5 (as amended).  [formatChatLink('https://x/', 'pubA', 'secretB', 'id123')]
    is exactly ["https://x/?chatWith=pubA&s=secretB&k=id123"]; and for every
    root and every three fields that are well-formed UTF-16 strings,
    [formatChatLink] returns
    [<root>?chatWith=<p>&s=<s>&k=<k>] where [p], [s], [k] are the
    [encodeURIComponent] forms of the fields and percent-decoding each of
    them gives the field back. *)
Theorem formatChatLink_round_trip :
  formatChatLink (JStr (js "https://x/")) (JStr (js "pubA")) (JStr (js "secretB"))
                 (JStr (js "id123"))
    = Some (js "https://x/?chatWith=pubA&s=secretB&k=id123") /\
  forall urlRoot pubKey sharedSecret linkId : jsstring,
    well_formed pubKey -> well_formed sharedSecret -> well_formed linkId ->
    exists p s k,
      encodeURIComponent pubKey = Some p /\
      encodeURIComponent sharedSecret = Some s /\
      encodeURIComponent linkId = Some k /\
      formatChatLink (JStr urlRoot) (JStr pubKey) (JStr sharedSecret) (JStr linkId)
        = Some (urlRoot ++ js "?chatWith=" ++ p ++ js "&s=" ++ s ++ js "&k=" ++ k) /\
      decodeURIComponent p = Some pubKey /\
      decodeURIComponent s = Some sharedSecret /\
      decodeURIComponent k = Some linkId.
Proof.
  split; [vm_compute; reflexivity|].
  intros urlRoot pubKey sharedSecret linkId Hp Hs Hk.
  destruct (encode_decode_field _ Hp) as (p & Ep & Dp).
  destruct (encode_decode_field _ Hs) as (s & Es & Ds).
  destruct (encode_decode_field _ Hk) as (k & Ek & Dk).
  exists p, s, k. unfold formatChatLink. cbn [ToString]. rewrite Ep, Es, Ek.
  repeat split; assumption.
Qed.

(** The link of a key with an accent and an emoji in it, a secret with a
    space and an id with the separators of the query. *)
Lemma formatChatLink_round_trip_witness :
  exists p s k,
    encodeURIComponent [233; 55357; 56832] = Some p /\
    encodeURIComponent (js "a b") = Some s /\
    encodeURIComponent (js "k&=?") = Some k /\
    formatChatLink (JStr (js "https://x/")) (JStr [233; 55357; 56832]) (JStr (js "a b"))
                   (JStr (js "k&=?"))
      = Some (js "https://x/" ++ js "?chatWith=" ++ p ++ js "&s=" ++ s ++ js "&k=" ++ k) /\
    decodeURIComponent p = Some [233; 55357; 56832] /\
    decodeURIComponent s = Some (js "a b") /\
    decodeURIComponent k = Some (js "k&=?").
Proof.
  apply (proj2 formatChatLink_round_trip); cbn; unfold code_unit; repeat split; lia.
Defined.

(** C5 as stated ("for every input") fails: on a public key that is a lone
    surrogate [encodeURIComponent] throws, and [formatChatLink] returns no
    link at all. *)
Lemma formatChatLink_lone_surrogate :
  formatChatLink (JStr (js "https://x/")) (JStr [55296]) (JStr (js "secretB"))
                 (JStr (js "id123")) = None.
Proof. vm_compute. reflexivity. Qed.

(** ** Property lists *)

Lemma jsstring_eqb_eq a b : jsstring_eqb a b = true <-> a = b.
Proof. unfold jsstring_eqb. apply bool_decide_eq_true. Qed.

Lemma jsstring_eqb_refl a : jsstring_eqb a a = true.
Proof. apply jsstring_eqb_eq. reflexivity. Qed.

Lemma jsstring_eqb_neq a b : a <> b -> jsstring_eqb a b = false.
Proof. unfold jsstring_eqb. apply bool_decide_eq_false. Qed.

Lemma assoc_set_eq {V} k (v : V) o : assoc k (obj_set k v o) = Some v.
Proof.
  induction o as [|[k' v'] o IH]; simpl.
  - rewrite jsstring_eqb_refl. reflexivity.
  - destruct (jsstring_eqb k' k) eqn:E; simpl; rewrite E; auto.
Qed.

Lemma assoc_set_ne {V} k k' (v : V) o : k <> k' -> assoc k' (obj_set k v o) = assoc k' o.
Proof.
  intros Hne. induction o as [|[k0 v0] o IH]; simpl.
  - rewrite jsstring_eqb_neq by assumption. reflexivity.
  - destruct (jsstring_eqb k0 k) eqn:E; simpl.
    + apply jsstring_eqb_eq in E. subst k0. rewrite !jsstring_eqb_neq by assumption. reflexivity.
    + rewrite IH. reflexivity.
Qed.

Lemma obj_get_set_eq k v o : obj_get k (obj_set k v o) = v.
Proof. unfold obj_get. rewrite assoc_set_eq. reflexivity. Qed.

Lemma assoc_In_keys {V} k (v : V) o : assoc k o = Some v -> In k (List.map fst o).
Proof.
  induction o as [|[k' v'] o IH]; simpl; [discriminate|].
  destruct (jsstring_eqb k' k) eqn:E.
  - apply jsstring_eqb_eq in E. auto.
  - auto.
Qed.

Lemma keys_set_In {V} k (v : V) o :
  In k (List.map fst o) -> List.map fst (obj_set k v o) = List.map fst o.
Proof.
  induction o as [|[k' v'] o IH]; simpl; [contradiction|].
  destruct (jsstring_eqb k' k) eqn:E; simpl; [reflexivity|].
  intros [->|Hin]; [rewrite jsstring_eqb_refl in E; discriminate|].
  rewrite IH by assumption. reflexivity.
Qed.

Lemma truthy_obj_get_keys k o : truthy (obj_get k o) = true -> In k (List.map fst o).
Proof.
  unfold obj_get. destruct (assoc k o) eqn:E; [|discriminate].
  intros _. eapply assoc_In_keys, E.
Qed.

Lemma In_insert_index k l x : In x (insert_index k l) -> x = k \/ In x l.
Proof.
  induction l as [|h l IH]; simpl.
  - intros [<-|[]]. auto.
  - destruct (fst k <=? fst h); simpl.
    + intros [<-|[<-|Hin]]; auto.
    + intros [<-|Hin]; auto. destruct (IH Hin); auto.
Qed.

(** [Object.keys] lists own keys only. *)
Lemma Object_keys_In {V} k (o : list (jsstring * V)) :
  In k (Object_keys o) -> In k (List.map fst o).
Proof.
  unfold Object_keys. rewrite in_app_iff. intros [Hin|Hin].
  - induction (List.map fst o) as [|k0 ks IH]; simpl in *; [contradiction|].
    destruct (array_index k0).
    + apply in_map_iff in Hin as ([n x] & <- & Hin).
      apply In_insert_index in Hin as [E|Hin].
      * injection E as _ <-. auto.
      * right. apply IH. apply in_map_iff. exists (n, x). auto.
    + auto.
  - apply filter_In in Hin. tauto.
Qed.

(** ** Secrets and channel ids (SecretDerivation, ChannelIdDerivation) *)

Section Derivation.
Context `{SEA} `{Builtins}.

Lemma published_functional w p e e' : published w p e -> published w p e' -> e = e'.
Proof. intros [E _] [E' _]. congruence. Qed.

Lemma gunOnceDefined_published w p e c :
  published w p e -> gunOnceDefined [p; js "epub"] c w = Done e c w.
Proof.
  intros [E Hne]. unfold gunOnceDefined. rewrite E. destruct e; congruence.
Qed.

Lemma later_refl c : later c c.
Proof. repeat split. Qed.

Lemma later_trans c1 c2 c3 : later c1 c2 -> later c2 c3 -> later c1 c3.
Proof. intros (?&?&?) (?&?&?). repeat split; congruence. Qed.

Lemma later_me c c' : later c c' -> me c' = me c.
Proof. intros (E&_). unfold me. rewrite E. reflexivity. Qed.

Lemma memo_ok_set_secret c w p e :
  memo_ok c w -> published w p e ->
  memo_ok (with_secrets (obj_set p (SEA_secret e (key c)) (secrets c)) c) w.
Proof.
  intros (Hs & Ho & Ht) Hp. split; [|split; assumption].
  cbn. intros q v Ea Hv.
  destruct (decide (p = q)) as [<-|Hne].
  - rewrite assoc_set_eq in Ea. injection Ea as <-. eauto.
  - rewrite assoc_set_ne in Ea by assumption. eauto.
Qed.

Lemma memo_ok_set_ours c w p e :
  memo_ok c w -> published w p e ->
  memo_ok (with_ourSecretChatIds
             (obj_set p (channel_id (SEA_secret e (key c)) p) (ourSecretChatIds c)) c) w.
Proof.
  intros (Hs & Ho & Ht) Hp. split; [assumption|split; [|assumption]].
  cbn. intros q v Ea Hv.
  destruct (decide (p = q)) as [<-|Hne].
  - rewrite assoc_set_eq in Ea. injection Ea as <-. eauto.
  - rewrite assoc_set_ne in Ea by assumption. eauto.
Qed.

Lemma memo_ok_set_theirs c w p e :
  memo_ok c w -> published w p e ->
  memo_ok (with_theirSecretChatIds
             (obj_set p (channel_id (SEA_secret e (key c)) (me c)) (theirSecretChatIds c)) c) w.
Proof.
  intros (Hs & Ho & Ht) Hp. split; [assumption|split; [assumption|]].
  cbn. intros q v Ea Hv. change (me _) with (me c).
  destruct (decide (p = q)) as [<-|Hne].
  - rewrite assoc_set_eq in Ea. injection Ea as <-. eauto.
  - rewrite assoc_set_ne in Ea by assumption. eauto.
Qed.

(** [getSecret]: with the key of [p] published it returns the shared secret,
    caches it and changes nothing else. *)
Lemma getSecret_spec c w p e :
  memo_ok c w -> published w p e ->
  exists c',
    getSecret p c w = Done (SEA_secret e (key c)) c' w /\
    memo_ok c' w /\
    key c' = key c /\ onMessage c' = onMessage c /\
    (In p (List.map fst (secrets c)) -> List.map fst (secrets c') = List.map fst (secrets c)).
Proof.
  intros Hm Hp.
  unfold getSecret, bind, this, ret, update_this.
  destruct (truthy (obj_get p (secrets c))) eqn:Etr; cbn [negb].
  - exists c. unfold obj_get in *.
    destruct (assoc p (secrets c)) as [v|] eqn:Ea; [|discriminate].
    destruct Hm as (Hs & Ho & Ht).
    destruct (Hs p v Ea Etr) as (e' & Hp' & ->).
    rewrite (published_functional _ _ _ _ Hp' Hp).
    repeat split; auto.
  - rewrite (gunOnceDefined_published _ _ _ _ Hp). cbn.
    rewrite assoc_set_eq. eexists. split; [reflexivity|].
    split; [apply memo_ok_set_secret; assumption|].
    cbn. repeat split. apply keys_set_In.
Qed.

(** [getOurSecretChatId] returns the hash of the secret followed by the
    participant's key. *)
Lemma getOurSecretChatId_spec c w p e :
  memo_ok c w -> published w p e ->
  exists c',
    getOurSecretChatId p c w = Done (channel_id (SEA_secret e (key c)) p) c' w /\
    memo_ok c' w /\
    key c' = key c /\ onMessage c' = onMessage c /\
    (In p (List.map fst (secrets c)) -> List.map fst (secrets c') = List.map fst (secrets c)).
Proof.
  intros Hm Hp.
  unfold getOurSecretChatId, bind, this, ret, update_this.
  destruct (truthy (obj_get p (ourSecretChatIds c))) eqn:Etr; cbn [negb].
  - exists c. unfold obj_get in *.
    destruct (assoc p (ourSecretChatIds c)) as [v|] eqn:Ea; [|discriminate].
    destruct Hm as (Hs & Ho & Ht).
    destruct (Ho p v Ea Etr) as (e' & Hp' & ->).
    rewrite (published_functional _ _ _ _ Hp' Hp).
    repeat split; auto.
  - destruct (getSecret_spec c w p e Hm Hp) as (c1 & E & Hm1 & Hk & Hon & Hkeys).
    rewrite E. cbn. rewrite assoc_set_eq. eexists. split; [reflexivity|].
    split.
    { rewrite <- Hk. apply (memo_ok_set_ours c1 w p e); assumption. }
    cbn. auto.
Qed.

(** [getTheirSecretChatId] returns the hash of the secret followed by the
    local key. *)
Lemma getTheirSecretChatId_spec c w p e :
  memo_ok c w -> published w p e ->
  exists c',
    getTheirSecretChatId p c w = Done (channel_id (SEA_secret e (key c)) (me c)) c' w /\
    memo_ok c' w /\
    key c' = key c /\ onMessage c' = onMessage c /\
    (In p (List.map fst (secrets c)) -> List.map fst (secrets c') = List.map fst (secrets c)).
Proof.
  intros Hm Hp.
  unfold getTheirSecretChatId, bind, this, ret, update_this.
  destruct (truthy (obj_get p (theirSecretChatIds c))) eqn:Etr; cbn [negb].
  - exists c. unfold obj_get in *.
    destruct (assoc p (theirSecretChatIds c)) as [v|] eqn:Ea; [|discriminate].
    destruct Hm as (Hs & Ho & Ht).
    destruct (Ht p v Ea Etr) as (e' & Hp' & ->).
    rewrite (published_functional _ _ _ _ Hp' Hp).
    repeat split; auto.
  - destruct (getSecret_spec c w p e Hm Hp) as (c1 & E & Hm1 & Hk & Hon & Hkeys).
    assert (Hme : me c1 = me c) by (unfold me; rewrite Hk; reflexivity).
    rewrite E. cbn. rewrite assoc_set_eq, Hme. eexists. split; [reflexivity|].
    split.
    { rewrite <- Hk, <- Hme. apply (memo_ok_set_theirs c1 w p e); assumption. }
    cbn. auto.
Qed.

End Derivation.

Section DerivationFacts.
Context `{SEA} `{Builtins}.

Lemma repeatedly_spec (m : M jsval) (v : jsval) (w : World) (k : keypair) :
  (forall c, memo_ok c w -> key c = k ->
     exists c', m c w = Done v c' w /\ memo_ok c' w /\ key c' = k) ->
  forall n c, memo_ok c w -> key c = k ->
    exists c', repeatedly n m c w = Done (replicate n v) c' w /\ memo_ok c' w /\ key c' = k.
Proof.
  intros Hm. induction n as [|n IH]; intros c Hc Hk.
  - exists c. split; [reflexivity|split; assumption].
  - destruct (Hm c Hc Hk) as (c1 & E1 & Hc1 & Hk1).
    destruct (IH c1 Hc1 Hk1) as (c2 & E2 & Hc2 & Hk2).
    exists c2. cbn [repeatedly]. unfold bind at 1. rewrite E1.
    unfold bind at 1. rewrite E2. split; [reflexivity|split; assumption].
Qed.

Lemma channel_id_inj secret p q :
  (forall x y, SEA_work (JStr x) = SEA_work (JStr y) -> x = y) ->
  channel_id secret p = channel_id secret q -> p = q.
Proof.
  intros Hinj E. unfold channel_id in E. injection E as E.
  apply Hinj in E. eapply app_inv_head, E.
Qed.

(** C1.  Let A and B have distinct public keys and published encryption
    keys, let the key agreement give both the same secret and the hash have
    no collisions.  Then the id A derives for what A writes to B
    ([getOurSecretChatId], the hash of the secret followed by B's key)
    differs from the id B derives for what B writes to A (the hash of the
    secret followed by A's key); each party's [getTheirSecretChatId] is the
    other's [getOurSecretChatId]; and deriving any of them [n] times in a row
    on the same Chat object returns the same value [n] times. *)
Theorem channel_ids_directional_and_stable
    (cA cB : Chat) (w : World) (pA pB : jsstring) (n : nat) :
  pub (key cA) = JStr pA -> pub (key cB) = JStr pB -> pA <> pB ->
  published w pA (epub (key cA)) -> published w pB (epub (key cB)) ->
  SEA_secret (epub (key cB)) (key cA) = SEA_secret (epub (key cA)) (key cB) ->
  (forall x y, SEA_work (JStr x) = SEA_work (JStr y) -> x = y) ->
  memo_ok cA w -> memo_ok cB w ->
  let secret := SEA_secret (epub (key cB)) (key cA) in
  let idAB := channel_id secret pB in
  let idBA := channel_id secret pA in
  idAB <> idBA /\
  (exists cA', repeatedly n (getOurSecretChatId pB) cA w = Done (replicate n idAB) cA' w) /\
  (exists cB', repeatedly n (getOurSecretChatId pA) cB w = Done (replicate n idBA) cB' w) /\
  (exists cA', repeatedly n (getTheirSecretChatId pB) cA w = Done (replicate n idBA) cA' w) /\
  (exists cB', repeatedly n (getTheirSecretChatId pA) cB w = Done (replicate n idAB) cB' w).
Proof.
  intros HpA HpB Hne HA HB Hagree Hinj HmA HmB secret idAB idBA.
  assert (HmeA : forall c, key c = key cA -> me c = pA).
  { intros c E. unfold me. rewrite E, HpA. reflexivity. }
  assert (HmeB : forall c, key c = key cB -> me c = pB).
  { intros c E. unfold me. rewrite E, HpB. reflexivity. }
  split; [|split; [|split; [|split]]].
  - intros E. apply Hne. symmetry. exact (channel_id_inj secret pB pA Hinj E).
  - assert (Hstep : forall c, memo_ok c w -> key c = key cA ->
        exists c', getOurSecretChatId pB c w = Done idAB c' w /\ memo_ok c' w /\ key c' = key cA).
    { intros c Hc Hk.
      destruct (getOurSecretChatId_spec c w pB _ Hc HB) as (c' & E & Hc' & Hk' & _).
      exists c'. rewrite E, Hk. split; [reflexivity|split; congruence]. }
    destruct (repeatedly_spec _ _ _ _ Hstep n cA HmA eq_refl) as (c' & E & _). eauto.
  - assert (Hstep : forall c, memo_ok c w -> key c = key cB ->
        exists c', getOurSecretChatId pA c w = Done idBA c' w /\ memo_ok c' w /\ key c' = key cB).
    { intros c Hc Hk.
      destruct (getOurSecretChatId_spec c w pA _ Hc HA) as (c' & E & Hc' & Hk' & _).
      exists c'. rewrite E, Hk. unfold idBA, secret. rewrite Hagree.
      split; [reflexivity|split; congruence]. }
    destruct (repeatedly_spec _ _ _ _ Hstep n cB HmB eq_refl) as (c' & E & _). eauto.
  - assert (Hstep : forall c, memo_ok c w -> key c = key cA ->
        exists c', getTheirSecretChatId pB c w = Done idBA c' w /\ memo_ok c' w /\ key c' = key cA).
    { intros c Hc Hk.
      destruct (getTheirSecretChatId_spec c w pB _ Hc HB) as (c' & E & Hc' & Hk' & _).
      exists c'. rewrite E, Hk, (HmeA c Hk). split; [reflexivity|split; congruence]. }
    destruct (repeatedly_spec _ _ _ _ Hstep n cA HmA eq_refl) as (c' & E & _). eauto.
  - assert (Hstep : forall c, memo_ok c w -> key c = key cB ->
        exists c', getTheirSecretChatId pA c w = Done idAB c' w /\ memo_ok c' w /\ key c' = key cB).
    { intros c Hc Hk.
      destruct (getTheirSecretChatId_spec c w pA _ Hc HA) as (c' & E & Hc' & Hk' & _).
      exists c'. rewrite E, Hk, (HmeB c Hk). unfold idAB, secret. rewrite Hagree.
      split; [reflexivity|split; congruence]. }
    destruct (repeatedly_spec _ _ _ _ Hstep n cB HmB eq_refl) as (c' & E & _). eauto.
Qed.

End DerivationFacts.

Lemma memo_ok_fresh `{SEA} k cb w : memo_ok (Toy.fresh k cb) w.
Proof. repeat split; cbn; discriminate. Qed.

(** Alice and Bob of the toy instance: the two ids differ, and three
    derivations in a row agree. *)
Lemma channel_ids_directional_and_stable_witness :
  let cA := Toy.fresh Toy.alice false in
  let cB := Toy.fresh Toy.bob false in
  let secret := Toy.secret (epub Toy.bob) Toy.alice in
  let idAB := @channel_id Toy.sea secret (js "bob") in
  let idBA := @channel_id Toy.sea secret (js "alice") in
  idAB <> idBA /\
  (exists cA', repeatedly 3 (@getOurSecretChatId Toy.sea (js "bob")) cA Toy.world0
               = Done (replicate 3 idAB) cA' Toy.world0) /\
  (exists cB', repeatedly 3 (@getOurSecretChatId Toy.sea (js "alice")) cB Toy.world0
               = Done (replicate 3 idBA) cB' Toy.world0) /\
  (exists cA', repeatedly 3 (@getTheirSecretChatId Toy.sea (js "bob")) cA Toy.world0
               = Done (replicate 3 idBA) cA' Toy.world0) /\
  (exists cB', repeatedly 3 (@getTheirSecretChatId Toy.sea (js "alice")) cB Toy.world0
               = Done (replicate 3 idAB) cB' Toy.world0).
Proof.
  apply (@channel_ids_directional_and_stable Toy.sea
           (Toy.fresh Toy.alice false) (Toy.fresh Toy.bob false) Toy.world0
           (js "alice") (js "bob") 3).
  - reflexivity.
  - reflexivity.
  - vm_compute. discriminate.
  - split; [vm_compute; reflexivity|discriminate].
  - split; [vm_compute; reflexivity|discriminate].
  - vm_compute. reflexivity.
  - intros x y E. injection E as E. exact E.
  - apply memo_ok_fresh.
  - apply memo_ok_fresh.
Defined.

(** ** The conversation store: [save] *)

Section Caching.
Context `{SEA} `{Builtins}.

Lemma caches_agree_refl w c : caches_agree w c c.
Proof. repeat split. Qed.

Lemma caches_agree_trans w c1 c2 c3 :
  caches_agree w c1 c2 -> caches_agree w c2 c3 -> caches_agree w c1 c3.
Proof.
  intros (?&?&Hs&Hi) (?&?&Hs'&Hi'). repeat split; congruence.
Qed.

Lemma caches_agree_me w c c' : caches_agree w c c' -> me c' = me c.
Proof. intros (E&_). unfold me. rewrite E. reflexivity. Qed.

Lemma defined_at_same_epubs w w' k :
  same_epubs w w' -> defined_at w' [k; js "epub"] = defined_at w [k; js "epub"].
Proof. intros E. unfold defined_at. rewrite E. reflexivity. Qed.

Lemma secret_for_same_epubs w w' c k :
  same_epubs w w' -> secret_for c w' k = secret_for c w k.
Proof. intros E. unfold secret_for. rewrite (defined_at_same_epubs _ _ _ E). reflexivity. Qed.

Lemma id_for_same_epubs w w' c k :
  same_epubs w w' -> id_for c w' k = id_for c w k.
Proof. intros E. unfold id_for. rewrite (secret_for_same_epubs _ _ _ _ E). reflexivity. Qed.

Lemma caches_agree_same_epubs w w' c c' :
  same_epubs w w' -> caches_agree w c c' -> caches_agree w' c c'.
Proof.
  intros E (?&?&Hs&Hi). repeat split; try assumption; intros k.
  - rewrite !(secret_for_same_epubs _ _ _ _ E). apply Hs.
  - rewrite !(id_for_same_epubs _ _ _ _ E). apply Hi.
Qed.

Lemma gunOnceDefined_defined_at p c w :
  gunOnceDefined p c w =
  match defined_at w p with Some v => Done v c w | None => Hang c w end.
Proof.
  unfold gunOnceDefined, defined_at. destruct (store w !! p) as [[]|]; reflexivity.
Qed.

Lemma obj_get_set_ne k k' v o : k <> k' -> obj_get k' (obj_set k v o) = obj_get k' o.
Proof. intros Hne. unfold obj_get. rewrite assoc_set_ne by assumption. reflexivity. Qed.

(** [getSecret] returns [secret_for], caching it; it hangs when there is
    none. *)
Lemma getSecret_outcome c w k :
  match secret_for c w k with
  | Some s =>
      exists c', getSecret k c w = Done s c' w /\ caches_agree w c c' /\
                 ourSecretChatIds c' = ourSecretChatIds c /\
                 (In k (List.map fst (secrets c)) ->
                  List.map fst (secrets c') = List.map fst (secrets c))
  | None => getSecret k c w = Hang c w
  end.
Proof.
  unfold secret_for at 1, getSecret, bind, this, ret, update_this.
  destruct (truthy (obj_get k (secrets c))) eqn:Etr; cbn [negb].
  - exists c. auto using caches_agree_refl.
  - rewrite gunOnceDefined_defined_at.
    destruct (defined_at w [k; js "epub"]) as [e|] eqn:Ee; cbn [option_map]; [|reflexivity].
    eexists. split; [cbn [secrets with_secrets]; rewrite obj_get_set_eq; reflexivity|].
    split; [|split; [reflexivity|apply keys_set_In]].
    assert (Hs : forall k', secret_for
              (with_secrets (obj_set k (SEA_secret e (key c)) (secrets c)) c) w k'
              = secret_for c w k').
    { intros k'. unfold secret_for. cbn [secrets key with_secrets].
      destruct (decide (k = k')) as [<-|Hne].
      - rewrite obj_get_set_eq, Etr, Ee. cbn [option_map].
        destruct (truthy (SEA_secret e (key c))); reflexivity.
      - rewrite obj_get_set_ne by assumption. reflexivity. }
    repeat split; [exact Hs|].
    intros k'. unfold id_for. rewrite Hs. reflexivity.
Qed.

(** [getOurSecretChatId] returns [id_for], caching it; it hangs when there
    is none. *)
Lemma getOurSecretChatId_outcome c w k :
  match id_for c w k with
  | Some i =>
      exists c', getOurSecretChatId k c w = Done i c' w /\ caches_agree w c c' /\
                 (In k (List.map fst (secrets c)) ->
                  List.map fst (secrets c') = List.map fst (secrets c))
  | None => getOurSecretChatId k c w = Hang c w
  end.
Proof.
  unfold id_for at 1, getOurSecretChatId, bind, this, ret, update_this.
  destruct (truthy (obj_get k (ourSecretChatIds c))) eqn:Etr; cbn [negb].
  - exists c. auto using caches_agree_refl.
  - pose proof (getSecret_outcome c w k) as Hg.
    destruct (secret_for c w k) as [s|] eqn:Es; cbn [option_map]; [|rewrite Hg; reflexivity].
    destruct Hg as (c1 & E & (Hk & Hon & Hs & Hi) & Hours & Hkeys).
    rewrite E. eexists.
    split; [cbn [ourSecretChatIds with_ourSecretChatIds]; rewrite obj_get_set_eq; reflexivity|].
    split; [|exact Hkeys].
    assert (Hs' : forall k', secret_for
              (with_ourSecretChatIds (obj_set k (channel_id s k) (ourSecretChatIds c1)) c1) w k'
              = secret_for c w k').
    { intros k'. rewrite <- Hs. reflexivity. }
    repeat split; [exact Hk|exact Hon|exact Hs'|].
    intros k'. unfold id_for at 1. rewrite Hs'.
    cbn [ourSecretChatIds with_ourSecretChatIds]. rewrite Hours.
    destruct (decide (k = k')) as [<-|Hne].
    + rewrite obj_get_set_eq. unfold id_for. rewrite Etr, Es. cbn [option_map].
      match goal with |- context [if ?b then _ else _] => destruct b end; reflexivity.
    + rewrite obj_get_set_ne by assumption. reflexivity.
Qed.

End Caching.

Lemma forallb_pointwise {A} (f g : A -> bool) l :
  (forall x, f x = g x) -> forallb f l = forallb g l.
Proof. intros E. induction l as [|x l IH]; cbn; [reflexivity|]. rewrite E, IH. reflexivity. Qed.

Section Save.
Context `{SEA} `{Builtins}.

Lemma same_epubs_refl w : same_epubs w w.
Proof. intros k. reflexivity. Qed.

Lemma same_epubs_trans w1 w2 w3 : same_epubs w1 w2 -> same_epubs w2 w3 -> same_epubs w1 w3.
Proof. intros E1 E2 k. rewrite E2, E1. reflexivity. Qed.

Lemma same_process_refl w : same_process w w.
Proof. repeat split. Qed.

Lemma same_process_trans w1 w2 w3 : same_process w1 w2 -> same_process w2 w3 -> same_process w1 w3.
Proof. unfold same_process. intuition congruence. Qed.

(** A write into a channel leaves the published keys alone. *)
Lemma same_epubs_put_chats w user i rest v :
  (forall fs, v <> JObj fs) ->
  same_epubs w (gun_put (user :: js "chats" :: i :: rest) v w).
Proof.
  intros Hv k. unfold gun_put. cbn [store log with_store].
  destruct v; try (cbn [graph_put]; rewrite lookup_insert_ne; [reflexivity|discriminate]).
  exfalso. eapply Hv. reflexivity.
Qed.

Lemma ids_until_stuck_agree c c' w w' ks :
  caches_agree w c c' -> same_epubs w w' ->
  ids_until_stuck c' w' ks = ids_until_stuck c w ks.
Proof.
  intros (_&_&_&Hi) Hw. induction ks as [|k ks IH]; cbn; [reflexivity|].
  rewrite (id_for_same_epubs _ _ _ _ Hw), Hi, IH. reflexivity.
Qed.

Lemma Object_keys_same {V W} (o : list (jsstring * V)) (o' : list (jsstring * W)) :
  List.map fst o' = List.map fst o -> Object_keys o' = Object_keys o.
Proof. intros E. unfold Object_keys. rewrite E. reflexivity. Qed.

Lemma for_each_cons {K} (k : K) ks body c w :
  for_each (k :: ks) body c w =
  match body k c w with
  | Done _ c' w' => for_each ks body c' w'
  | Hang c' w' => Hang c' w'
  | Throw c' w' => Throw c' w'
  end.
Proof. reflexivity. Qed.

(** One round of the loop of [save]. *)
Lemma save_for_outcome c w k :
  match id_for c w k with
  | Some i =>
      exists c', save_for k c w = Done tt c' (gun_put (msgs_node c i (js "a")) JNull w) /\
                 caches_agree w c c' /\
                 (In k (List.map fst (secrets c)) ->
                  List.map fst (secrets c') = List.map fst (secrets c))
  | None => save_for k c w = Hang c w
  end.
Proof.
  pose proof (getOurSecretChatId_outcome c w k) as Hg.
  destruct (id_for c w k) as [i|]; unfold save_for, bind at 1; [|rewrite Hg; reflexivity].
  destruct Hg as (c1 & E & Hc1 & Hkeys1). rewrite E.
  exists c1. cbn. unfold msgs_node. rewrite (caches_agree_me _ _ _ Hc1). auto.
Qed.

(** The loop of [save] over the participants [ks]: it writes the sentinel
    for the ids up to the first that cannot be derived, where it hangs. *)
Lemma save_loop ks : forall c w,
  (forall k, In k ks -> In k (List.map fst (secrets c))) ->
  let o := for_each ks save_for c w in
  let ids := ids_until_stuck c w ks in
  caches_agree w c (chat_after o) /\
  List.map fst (secrets (chat_after o)) = List.map fst (secrets c) /\
  same_epubs w (after o) /\ same_process w (after o) /\
  store (after o) = with_sentinels c ids (store w) /\
  events (after o) = events w ++ List.map (sentinel c) ids /\
  returned o = forallb (fun k => bool_decide (is_Some (id_for c w k))) ks /\
  hangs o = negb (returned o).
Proof.
  induction ks as [|k ks IH]; intros c w Hks.
  - cbn. rewrite app_nil_r.
    repeat split.
  - rewrite for_each_cons.
    pose proof (save_for_outcome c w k) as Hg.
    cbn [ids_until_stuck forallb].
    destruct (id_for c w k) as [i|] eqn:Ei.
    + destruct Hg as (c1 & E & Hc1 & Hkeys1). rewrite E.
      specialize (Hkeys1 (Hks k (or_introl eq_refl))).
      assert (Hme : me c1 = me c) by (eapply caches_agree_me, Hc1).
      set (w1 := gun_put (msgs_node c i (js "a")) JNull w).
      assert (Hw1 : same_epubs w w1) by (apply same_epubs_put_chats; discriminate).
      destruct (IH c1 w1) as (Hc & Hk & Hw & Hp & Hst & Hev & Hret & Hh).
      { intros k' Hin. rewrite Hkeys1. apply Hks. right. exact Hin. }
      rewrite (ids_until_stuck_agree c c1 w w1 ks Hc1 Hw1) in Hst, Hev.
      split; [|split; [|split; [|split; [|split; [|split; [|split]]]]]].
      * eapply caches_agree_trans; [exact Hc1|].
        eapply caches_agree_same_epubs; [|exact Hc].
        intros q. symmetry. apply Hw1.
      * rewrite Hk. exact Hkeys1.
      * eapply same_epubs_trans; eassumption.
      * eapply same_process_trans; [|exact Hp]. repeat split.
      * rewrite Hst. unfold with_sentinels, msgs_node. rewrite Hme. reflexivity.
      * rewrite Hev. unfold sentinel, msgs_node. rewrite Hme.
        cbn [events w1 gun_put log with_store List.map]. rewrite <- app_assoc. reflexivity.
      * rewrite Hret. rewrite bool_decide_eq_true_2 by eauto. cbn [andb].
        apply forallb_pointwise. intros k'.
        destruct Hc1 as (_&_&_&Hi).
        rewrite (id_for_same_epubs _ _ _ _ Hw1), Hi. reflexivity.
      * exact Hh.
    + rewrite Hg. cbn. rewrite app_nil_r.
      repeat split.
Qed.

Lemma with_sentinels_lookup c ids g p :
  with_sentinels c ids g !! p =
  if bool_decide (p ∈ List.map (fun i => msgs_node c i (js "a")) ids)
  then Some JNull else g !! p.
Proof.
  unfold with_sentinels. revert g. induction ids as [|i ids IH]; intros g; cbn [List.fold_left List.map].
  - rewrite bool_decide_eq_false_2 by (apply not_elem_of_nil). reflexivity.
  - rewrite IH.
    destruct (decide (p ∈ List.map (fun i => msgs_node c i (js "a")) ids)) as [Hin|Hnin].
    + rewrite !bool_decide_eq_true_2; [reflexivity|apply elem_of_cons; right; exact Hin|exact Hin].
    + rewrite (bool_decide_eq_false_2 _ Hnin).
      destruct (decide (msgs_node c i (js "a") = p)) as [<-|Hne].
      * rewrite lookup_insert_eq. rewrite bool_decide_eq_true_2 by (apply elem_of_cons; left; reflexivity).
        reflexivity.
      * rewrite lookup_insert_ne by assumption.
        rewrite bool_decide_eq_false_2; [reflexivity|].
        intros [E|Hin]%elem_of_cons; [exact (Hne (eq_sym E))|exact (Hnin Hin)].
Qed.

Lemma with_sentinels_idempotent c ids g :
  with_sentinels c ids (with_sentinels c ids g) = with_sentinels c ids g.
Proof.
  apply map_eq. intros p. rewrite !with_sentinels_lookup.
  destruct (bool_decide _); reflexivity.
Qed.

(** C3.  For every Chat object and every world: [save()] never throws; a
    second [save()] right after the first leaves the store as the first left
    it, makes exactly the writes the first made (the sentinel [null] under
    the fixed key [a] of the [msgs] node of a participant's channel, for the
    same channels in the same order) and ends as the first ended; and the
    first changed no node of the store but those. *)
Theorem save_twice_is_save_once (c : Chat) (w : World) :
  let o1 := save c w in
  let o2 := save (chat_after o1) (after o1) in
  let ids := ids_until_stuck c w (Object_keys (secrets c)) in
    store (after o2) = store (after o1) /\
    events (after o1) = events w ++ List.map (sentinel c) ids /\
    events (after o2) = events (after o1) ++ List.map (sentinel c) ids /\
    store (after o1) = with_sentinels c ids (store w) /\
    (forall p, p ∉ List.map (fun i => msgs_node c i (js "a")) ids ->
               store (after o1) !! p = store w !! p) /\
    same_process w (after o1) /\ same_process (after o1) (after o2) /\
    returned o2 = returned o1 /\ hangs o1 = negb (returned o1) /\ hangs o2 = negb (returned o2).
Proof.
  intros o1 o2 ids. subst ids.
  pose proof (save_loop (Object_keys (secrets c)) c w (fun k => Object_keys_In k (secrets c)))
    as (Hc & Hk & Hw & Hp & Hst & Hev & Hret & Hh).
  change (for_each _ _ c w) with o1 in Hc, Hk, Hw, Hp, Hst, Hev, Hret, Hh.
  set (c1 := chat_after o1) in *. set (w1 := after o1) in *.
  pose proof (save_loop (Object_keys (secrets c1)) c1 w1 (fun k => Object_keys_In k (secrets c1)))
    as (Hc' & Hk' & Hw' & Hp' & Hst' & Hev' & Hret' & Hh').
  change (for_each _ _ c1 w1) with o2 in Hc', Hk', Hw', Hp', Hst', Hev', Hret', Hh'.
  rewrite (Object_keys_same _ _ Hk) in Hst', Hev', Hret'.
  rewrite (ids_until_stuck_agree c c1 w w1 _ Hc Hw) in Hst', Hev'.
  assert (Hme : me c1 = me c) by (eapply caches_agree_me, Hc).
  assert (Hsent : forall ids g, with_sentinels c1 ids g = with_sentinels c ids g).
  { intros. unfold with_sentinels, msgs_node. rewrite Hme. reflexivity. }
  assert (Hsent' : forall ids, List.map (sentinel c1) ids = List.map (sentinel c) ids).
  { intros. unfold sentinel, msgs_node. rewrite Hme. reflexivity. }
  split; [|split; [|split; [|split; [|split; [|split; [|split; [|split; [|split]]]]]]]].
  - rewrite Hst', Hsent, Hst. apply with_sentinels_idempotent.
  - exact Hev.
  - rewrite Hev', Hsent'. reflexivity.
  - exact Hst.
  - intros p Hp0. rewrite Hst, with_sentinels_lookup.
    rewrite bool_decide_eq_false_2 by exact Hp0. reflexivity.
  - exact Hp.
  - exact Hp'.
  - rewrite Hret', Hret. apply forallb_pointwise. intros k.
    destruct Hc as (_&_&_&Hi).
    rewrite (id_for_same_epubs _ _ _ _ Hw), Hi. reflexivity.
  - exact Hh.
  - exact Hh'.
Qed.

End Save.

(** ** The conversation store: [send] *)

Section Send.
Context `{SEA} `{Builtins}.

Lemma id_for_of_secret c w k s :
  secret_for c w k = Some s -> exists i, id_for c w k = Some i.
Proof.
  intros Es. unfold id_for. rewrite Es.
  destruct (truthy (obj_get k (ourSecretChatIds c))); cbn; eauto.
Qed.

Lemma secret_for_published c w k e : published w k e -> is_Some (secret_for c w k).
Proof.
  intros [E Hne]. unfold secret_for, defined_at. rewrite E.
  destruct (truthy (obj_get k (secrets c))); [eauto|].
  destruct e; cbn; eauto. congruence.
Qed.

Lemma payload_agree c c' w w' msg v :
  caches_agree w c c' -> same_epubs w w' ->
  List.map fst (secrets c') = List.map fst (secrets c) ->
  payload c' w' msg v -> payload c w msg v.
Proof.
  intros (_&_&Hs&_) Hw Hk (n & k & s & Hin & Es & ->).
  exists n, k, s. rewrite Hk in Hin.
  rewrite (secret_for_same_epubs _ _ _ _ Hw), Hs in Es. auto.
Qed.

Lemma msgs_node_eq c c' i i' t :
  me c' = me c -> ToString i' = ToString i -> msgs_node c' i' t = msgs_node c i t.
Proof. intros E1 E2. unfold msgs_node. rewrite E1, E2. reflexivity. Qed.

Lemma latestMsg_node_eq c c' i i' :
  me c' = me c -> ToString i' = ToString i -> latestMsg_node c' i' = latestMsg_node c i.
Proof. intros E1 E2. unfold latestMsg_node. rewrite E1, E2. reflexivity. Qed.

Lemma msgs_node_inv c i i' t t' :
  msgs_node c i t = msgs_node c i' t' -> ToString i = ToString i' /\ t = t'.
Proof. unfold msgs_node. intros E. injection E. auto. Qed.

Lemma latestMsg_node_inv c i i' :
  latestMsg_node c i = latestMsg_node c i' -> ToString i = ToString i'.
Proof. unfold latestMsg_node. intros E. injection E. auto. Qed.

Lemma msgs_not_latestMsg c i i' t : msgs_node c i t <> latestMsg_node c i'.
Proof. unfold msgs_node, latestMsg_node. intros E. injection E. discriminate. Qed.

(** One round of the loop of [send]: the message, encrypted under the
    participant's secret with fresh randomness, goes to the slot of its time
    and to [latestMsg]. *)
Lemma send_to_outcome c w k msg s i :
  nullish msg = false ->
  secret_for c w k = Some s -> id_for c w k = Some i ->
  let enc := JStr (SEA_encrypt (entropy w) (JStr (JSON_stringify msg)) s) in
  let t := ToString (js_prop msg (js "time")) in
  exists c',
    send_to msg k c w =
      Done tt c' (gun_put (latestMsg_node c i) enc
                    (gun_put (msgs_node c i t) enc (with_entropy (S (entropy w)) w))) /\
    caches_agree w c c' /\
    (In k (List.map fst (secrets c)) -> List.map fst (secrets c') = List.map fst (secrets c)).
Proof.
  intros Hmsg Es Ei enc t.
  pose proof (getSecret_outcome c w k) as Hg. rewrite Es in Hg.
  destruct Hg as (c1 & E1 & Hc1 & _ & Hk1).
  set (w1 := with_entropy (S (entropy w)) w).
  assert (Hw1 : same_epubs w w1) by (intros q; reflexivity).
  pose proof (getOurSecretChatId_outcome c1 w1 k) as Hg.
  assert (Ei1 : id_for c1 w1 k = Some i).
  { rewrite (id_for_same_epubs _ _ _ _ Hw1). destruct Hc1 as (_&_&_&Hi). rewrite Hi. exact Ei. }
  rewrite Ei1 in Hg. destruct Hg as (c2 & E2 & Hc2 & Hk2).
  exists c2. split; [|split].
  - unfold send_to, bind at 1. rewrite E1.
    unfold bind at 1, encrypt. fold w1. unfold bind at 1. rewrite E2.
    unfold bind at 1, this. rewrite Hmsg.
    assert (Hme : me c2 = me c).
    { rewrite (caches_agree_me _ _ _ Hc2). apply (caches_agree_me _ _ _ Hc1). }
    unfold bind, update_world, msgs_node, latestMsg_node. rewrite Hme. reflexivity.
  - eapply caches_agree_trans; [exact Hc1|].
    eapply caches_agree_same_epubs; [|exact Hc2]. intros q. reflexivity.
  - intros Hin. rewrite Hk2; [auto|]. rewrite Hk1; assumption.
Qed.

Lemma slots_hold_after_put c w0 msg msg' t t' g i0 i v :
  slots_hold c w0 msg t g i0 ->
  (ToString i = ToString i0 -> t' = t /\ msg' = msg /\ payload c w0 msg v) ->
  (ToString i <> ToString i0 \/ t' = t) ->
  slots_hold c w0 msg t (<[latestMsg_node c i := v]> (<[msgs_node c i t' := v]> g)) i0.
Proof.
  intros (v0 & Em & El & Hp) Hsame Hcase.
  destruct (decide (ToString i = ToString i0)) as [Ei|Hne].
  - destruct (Hsame Ei) as (-> & -> & Hv).
    exists v. rewrite <- (msgs_node_eq c c i i0 t eq_refl (eq_sym Ei)).
    rewrite <- (latestMsg_node_eq c c i i0 eq_refl (eq_sym Ei)).
    rewrite lookup_insert_ne by (apply not_eq_sym, msgs_not_latestMsg).
    rewrite !lookup_insert_eq. auto.
  - exists v0.
    rewrite lookup_insert_ne by (apply not_eq_sym, msgs_not_latestMsg).
    rewrite lookup_insert_ne by (intros E; apply msgs_node_inv in E as [E _]; auto).
    rewrite lookup_insert_ne by (intros E; apply latestMsg_node_inv in E; auto).
    rewrite lookup_insert_ne by (apply msgs_not_latestMsg).
    auto.
Qed.

(** The loop of [send] over participants whose secret can be derived: it
    returns; it writes no node but [msgs/<time>] and [latestMsg] of
    channels; afterwards both slots of every participant's channel hold one
    payload of the message. *)
Lemma send_loop msg ks : forall c w,
  nullish msg = false ->
  (forall k, In k ks -> In k (List.map fst (secrets c)) /\ is_Some (secret_for c w k)) ->
  let t := ToString (js_prop msg (js "time")) in
  exists c' w',
    for_each ks (send_to msg) c w = Done tt c' w' /\
    caches_agree w c c' /\
    List.map fst (secrets c') = List.map fst (secrets c) /\
    same_epubs w w' /\
    (forall p, ~ written_by_send c t p -> store w' !! p = store w !! p) /\
    (forall i, slots_hold c w msg t (store w) i -> slots_hold c w msg t (store w') i) /\
    (forall k, In k ks -> exists i, id_for c w k = Some i /\ slots_hold c w msg t (store w') i).
Proof.
  induction ks as [|k ks IH]; intros c w Hmsg Hks t.
  - exists c, w. repeat split; auto using caches_agree_refl, same_epubs_refl.
    intros k [].
  - destruct (Hks k (or_introl eq_refl)) as (Hin & s & Es).
    destruct (id_for_of_secret _ _ _ _ Es) as (i & Ei).
    destruct (send_to_outcome c w k msg s i Hmsg Es Ei) as (c1 & E1 & Hc1 & Hk1).
    specialize (Hk1 Hin). fold t in E1.
    set (enc := JStr (SEA_encrypt (entropy w) (JStr (JSON_stringify msg)) s)) in *.
    set (w1 := gun_put (latestMsg_node c i) enc
                 (gun_put (msgs_node c i t) enc (with_entropy (S (entropy w)) w))) in *.
    assert (Hst1 : store w1 = <[latestMsg_node c i := enc]> (<[msgs_node c i t := enc]> (store w)))
      by reflexivity.
    assert (Hw1 : same_epubs w w1).
    { intros q. rewrite Hst1. unfold latestMsg_node, msgs_node.
      rewrite !lookup_insert_ne by discriminate. reflexivity. }
    assert (Hme : me c1 = me c) by (eapply caches_agree_me, Hc1).
    assert (Henc : payload c w msg enc).
    { exists (entropy w), k, s. auto. }
    destruct (IH c1 w1 Hmsg) as (c2 & w2 & E2 & Hc2 & Hk2 & Hw2 & Hfr & Hpres & Hall).
    { intros k' Hin'. destruct (Hks k' (or_intror Hin')) as (Hin2 & Hs2).
      rewrite Hk1. split; [assumption|].
      destruct Hc1 as (_&_&Hs&_).
      rewrite (secret_for_same_epubs _ _ _ _ Hw1), Hs. assumption. }
    fold t in Hfr, Hpres, Hall.
    assert (Hc12 : caches_agree w c c2).
    { eapply caches_agree_trans; [exact Hc1|].
      eapply caches_agree_same_epubs; [|exact Hc2]. intros q. symmetry. apply Hw1. }
    (* statements about [c1], [w1] read as statements about [c], [w] *)
    assert (Hslots : forall g i0, slots_hold c1 w1 msg t g i0 -> slots_hold c w msg t g i0).
    { intros g i0 (v & Em & El & Hp). exists v.
      rewrite <- (msgs_node_eq c c1 i0 i0 t) by auto.
      rewrite <- (latestMsg_node_eq c c1 i0 i0) by auto.
      eauto using payload_agree. }
    assert (Hslots' : forall g i0, slots_hold c w msg t g i0 -> slots_hold c1 w1 msg t g i0).
    { intros g i0 (v & Em & El & (n & k' & s' & Hin' & Es' & ->)). eexists.
      rewrite (msgs_node_eq c c1 i0 i0 t) by auto.
      rewrite (latestMsg_node_eq c c1 i0 i0) by auto.
      split; [exact Em|split; [exact El|]].
      exists n, k', s'. rewrite Hk1. destruct Hc1 as (_&_&Hs&_).
      rewrite (secret_for_same_epubs _ _ _ _ Hw1), Hs. auto. }
    assert (Hstep : forall i0, slots_hold c w msg t (store w) i0 ->
                               slots_hold c w msg t (store w1) i0).
    { intros i0 Hi0. rewrite Hst1. eapply slots_hold_after_put; eauto. }
    assert (Hhead : slots_hold c w msg t (store w1) i).
    { exists enc. rewrite Hst1.
      rewrite lookup_insert_ne by (apply not_eq_sym, msgs_not_latestMsg).
      rewrite !lookup_insert_eq. auto. }
    exists c2, w2. rewrite for_each_cons, E1.
    split; [exact E2|]. split; [exact Hc12|]. split; [congruence|].
    split; [eapply same_epubs_trans; eassumption|].
    split; [|split].
    + intros p Hp. rewrite Hfr.
      * rewrite Hst1. rewrite !lookup_insert_ne; [reflexivity| |].
        -- intros E. apply Hp. exists i. auto.
        -- intros E. apply Hp. exists i. auto.
      * intros (i0 & Hi0). apply Hp. exists i0.
        rewrite <- (msgs_node_eq c c1 i0 i0 t) by auto.
        rewrite <- (latestMsg_node_eq c c1 i0 i0) by auto. exact Hi0.
    + intros i0 Hi0. apply Hslots, Hpres, Hslots', Hstep, Hi0.
    + intros k' [<-|Hin'].
      * exists i. split; [exact Ei|]. apply Hslots, Hpres, Hslots', Hhead.
      * destruct (Hall k' Hin') as (i' & Ei' & Hi').
        exists i'. split; [|apply Hslots, Hi'].
        destruct Hc1 as (_&_&_&Hi).
        rewrite (id_for_same_epubs _ _ _ _ Hw1), Hi in Ei'. exact Ei'.
Qed.

End Send.

Section SendFacts.
Context `{SEA} `{Builtins}.

Lemma normalize_object fs w : normalize (JObj fs) w = JObj fs.
Proof. reflexivity. Qed.

Lemma send_object fs c w :
  send (JObj fs) c w = for_each (Object_keys (secrets c)) (send_to (JObj fs)) c w.
Proof. reflexivity. Qed.


End SendFacts.


(** ** Inbound delivery: [messageReceived] *)

Section Inbound.
Context `{SEA} `{Builtins}.

(** With no callback set nothing happens, not even a key derivation. *)
Lemma messageReceived_without_callback data p selfAuthored c w :
  onMessage c = false -> messageReceived data p selfAuthored c w = Done tt c w.
Proof. intros E. unfold messageReceived, bind, this. rewrite E. reflexivity. Qed.

(** With a callback set and the secret derivable, the update is dropped
    when [typeof] of the decrypted value is not ["object"], and the callback
    is called with it and [{selfAuthored}] when it is. *)
Lemma messageReceived_outcome data p selfAuthored c w s :
  onMessage c = true -> secret_for c w p = Some s ->
  exists c',
    messageReceived data p selfAuthored c w =
      Done tt c'
        (if jsstring_eqb (typeof (SEA_decrypt data s)) (js "object")
         then log (EOnMessage (SEA_decrypt data s) (JObj [(js "selfAuthored", selfAuthored)])) w
         else w) /\
    caches_agree w c c'.
Proof.
  intros Eon Es.
  pose proof (getSecret_outcome c w p) as Hg. rewrite Es in Hg.
  destruct Hg as (c1 & E1 & Hc1 & _).
  exists c1. split; [|exact Hc1].
  unfold messageReceived, bind at 1, this. rewrite Eon.
  unfold bind. rewrite E1.
  destruct (jsstring_eqb (typeof (SEA_decrypt data s)) (js "object")); reflexivity.
Qed.

(** What is not an object and not [null] is dropped: no callback, no
    error. *)
Lemma messageReceived_drops data p selfAuthored c w s :
  onMessage c = true -> secret_for c w p = Some s ->
  (forall fs, SEA_decrypt data s <> JObj fs) -> SEA_decrypt data s <> JNull ->
  exists c', messageReceived data p selfAuthored c w = Done tt c' w.
Proof.
  intros Eon Es Hobj Hnull.
  destruct (messageReceived_outcome data p selfAuthored c w s Eon Es) as (c' & E & _).
  exists c'. rewrite E. f_equal.
  destruct (SEA_decrypt data s); try reflexivity; [congruence|exfalso; eapply Hobj; reflexivity].
Qed.

(** An object is delivered. *)
Lemma messageReceived_delivers data p selfAuthored c w s fs :
  onMessage c = true -> secret_for c w p = Some s ->
  SEA_decrypt data s = JObj fs ->
  exists c', messageReceived data p selfAuthored c w =
             Done tt c' (log (EOnMessage (JObj fs) (JObj [(js "selfAuthored", selfAuthored)])) w).
Proof.
  intros Eon Es Hobj.
  destruct (messageReceived_outcome data p selfAuthored c w s Eon Es) as (c' & E & _).
  exists c'. rewrite E, Hobj. reflexivity.
Qed.

(** And so is [null], whose [typeof] is ["object"] too. *)
Lemma messageReceived_delivers_null data p selfAuthored c w s :
  onMessage c = true -> secret_for c w p = Some s ->
  SEA_decrypt data s = JNull ->
  exists c', messageReceived data p selfAuthored c w =
             Done tt c' (log (EOnMessage JNull (JObj [(js "selfAuthored", selfAuthored)])) w).
Proof.
  intros Eon Es Hnull.
  destruct (messageReceived_outcome data p selfAuthored c w s Eon Es) as (c' & E & _).
  exists c'. rewrite E, Hnull. reflexivity.
Qed.

End Inbound.

(** C6 (the code departs from it).  In the toy instance Bob writes the
    encryption of the JSON text [null] into his channel to Alice.  The
    decrypted value is [null], which is no structured object, yet Alice's
    [messageReceived] calls [onMessage(null, {selfAuthored})]. *)
Theorem messageReceived_passes_null_on :
  let secret := Toy.secret (epub Toy.bob) Toy.alice in
  let data := JStr (Toy.encrypt 0 (JStr (js "null")) secret) in
  let c := with_secrets [(js "bob", JNull)] (Toy.fresh Toy.alice true) in
  Toy.decrypt data secret = JNull /\
  events (after (@messageReceived Toy.sea data (js "bob") JUndefined c Toy.world0))
  = [EOnMessage JNull (JObj [(js "selfAuthored", JUndefined)])].
Proof. vm_compute. split; reflexivity. Qed.

(** ** Presence *)



Lemma find_timer_fresh ts id t0 :
  (forall t, In t ts -> (timer_id t < id)%positive) -> timer_id t0 = id ->
  List.find (fun t => Pos.eqb (timer_id t) id) (ts ++ [t0]) = Some t0.
Proof.
  intros Hts E. induction ts as [|t ts IH]; cbn.
  - rewrite E, Pos.eqb_refl. reflexivity.
  - destruct (Pos.eqb_spec (timer_id t) id) as [E'|_].
    + specialize (Hts t (or_introl eq_refl)). lia.
    + apply IH. intros t' Hin. apply Hts. right. exact Hin.
Qed.

Lemma filter_timer_fresh ts id t0 :
  (forall t, In t ts -> (timer_id t < id)%positive) -> timer_id t0 = id ->
  List.filter (fun t => negb (Pos.eqb (timer_id t) id)) (ts ++ [t0]) = ts.
Proof.
  intros Hts E. induction ts as [|t ts IH]; cbn.
  - rewrite E, Pos.eqb_refl. reflexivity.
  - destruct (Pos.eqb_spec (timer_id t) id) as [E'|_]; cbn.
    + specialize (Hts t (or_introl eq_refl)). lia.
    + f_equal. apply IH. intros t' Hin. apply Hts. right. exact Hin.
Qed.



(** C8 (as amended).  On a store handle authenticated for [user], with no
    heartbeat active, [setOnline(gun, true)] writes the store clock in
    seconds, rounded to the nearest integer ([Math.round], not the floor),
    to [user]'s [lastActive] slot in the call itself, arms one repeating
    timer of 3000 ms (whose firing repeats the write) and records it; a
    second [setOnline(gun, true)] changes nothing, so no second timer is
    armed. *)
Theorem setOnline_starts_one_heartbeat (w : World) (user : jsstring) :
  auth w = Some user -> setOnlineInterval w = None ->
  let w' := setOnline true w in
  let beat := {| timer_id := next_timer w; timer_delay := 3000;
                 timer_repeats := true; timer_action_of := TUpdate |} in
  store w' !! [user; js "lastActive"] = Some (JNum (Math_round (Qdiv (clock w) (inject_Z 1000)))) /\
  events w' = events w ++ [EPut [user; js "lastActive"] (JNum (now_seconds w))] /\
  timers w' = timers w ++ [beat] /\
  setOnlineInterval w' = Some (next_timer w) /\
  run_timer_action (timer_action_of beat) w' = update_lastActive w' /\
  setOnline true w' = w'.
Proof.
  intros Ha Hi w' beat. unfold w', setOnline. rewrite Hi.
  unfold update_lastActive. rewrite Ha.
  cbn. rewrite lookup_insert_eq. repeat split.
Qed.

(** The toy world, authenticated for Alice. *)
Lemma setOnline_starts_one_heartbeat_witness :
  let w := with_auth (Some (js "alice")) Toy.world0 in
  store (setOnline true w) !! [js "alice"; js "lastActive"] = Some (JNum 2) /\
  List.map timer_delay (timers (setOnline true w)) = [3000] /\
  setOnline true (setOnline true w) = setOnline true w.
Proof.
  intros w.
  destruct (setOnline_starts_one_heartbeat w (js "alice") eq_refl eq_refl)
    as (Hst & _ & Hts & _ & _ & Hagain).
  split; [rewrite Hst; reflexivity|].
  split; [rewrite Hts; reflexivity|exact Hagain].
Defined.

(** While a heartbeat is active [setOnline(gun, true)] does nothing. *)
Lemma setOnline_active w id : setOnlineInterval w = Some id -> setOnline true w = w.
Proof. intros E. unfold setOnline. rewrite E. reflexivity. Qed.

(** C8 as stated fails: at 1500 ms of the store clock the floor of the time
    in seconds is 1, and [setOnline] writes 2. *)
Lemma setOnline_rounds_not_floors :
  let w := with_auth (Some (js "alice")) Toy.world0 in
  Qfloor (Qdiv (clock w) (inject_Z 1000)) = 1 /\
  store (setOnline true w) !! [js "alice"; js "lastActive"] = Some (JNum 2).
Proof. vm_compute. split; reflexivity. Qed.

(** ** The constructor *)

Section ConstructorFacts.
Context `{SEA} `{Builtins}.

(** While the Chat has no participant yet, [save] writes nothing. *)
Lemma save_without_participants c w : secrets c = [] -> save c w = Done tt c w.
Proof. intros E. unfold save, bind, this. rewrite E. reflexivity. Qed.

(** The chat-link branch runs on an object whose [secrets] are still empty
    (line 24): between its start and the registration of the subscription of
    line 41 the world does not change. *)
Lemma chatLink_branch_registers c w o link root query owner sharedSecret linkId :
  secrets c = [] ->
  opt_chatLink o = Some link -> link <> [] -> split 63 link = [root; query] ->
  getUrlParameter (js "chatWith") query = Some owner ->
  strict_eq owner (pub (key c)) = false ->
  getUrlParameter (js "s") query = Some sharedSecret ->
  getUrlParameter (js "k") query = Some linkId ->
  truthy sharedSecret = true -> truthy linkId = true ->
  chatLink_branch o c w =
    Done (true, POne owner) c
      (gun_subscribe On
         [ToString owner; js "chatLinks"; ToString linkId; js "encryptedSharedKey"]
         (HEncryptedSharedKey sharedSecret) w).
Proof.
  intros Es El Hl Hsplit Hw Hne Hs Hk Hts Htk.
  unfold chatLink_branch. rewrite El.
  replace (truthy (JStr link)) with true by (destruct link; [congruence|reflexivity]).
  rewrite Hsplit, Hw. unfold bind at 1, this. rewrite Hne. cbn [negb].
  rewrite Hs, Hk, Hts, Htk. cbn [andb].
  unfold bind at 1, spawn. rewrite (save_without_participants c w Es).
  reflexivity.
Qed.





End ConstructorFacts.

(** C9 (the code departs from it).  Alice opens Bob's invite link in the toy
    instance.  The constructor publishes her [epub] and then registers the
    subscription to Bob's [chatLinks/id1/encryptedSharedKey]; nothing has
    been written under [chats] by then, and the sentinel of [save] is not
    written at all: the [save()] of line 39 runs while [this.secrets] is
    empty, and [saved = true] skips the [save()] of line 66. *)
Theorem constructor_with_link_subscribes_before_any_save :
  let o := {| opt_key := Toy.alice;
              opt_chatLink := Some (js "https://x/?chatWith=bob&s=sec&k=id1");
              opt_onMessage := false; opt_participants := POne JUndefined |} in
  let w := after (@new_Chat Toy.sea o Toy.world0) in
  events w =
    [EPut [js "alice"] (JObj [(js "epub", JNum 32)]);
     ESubscribe On [js "bob"; js "chatLinks"; js "id1"; js "encryptedSharedKey"]
       (HEncryptedSharedKey (JStr (js "sec")));
     EPut [js "alice"; js "chats"; js "#635291bob"; js "pub"] (JStr (js "SEA554333|0|bob"));
     ESubscribe MapOnce [js "bob"; js "chats"; js "#635291alice"; js "msgs"]
       (HMessageReceived (js "bob") JUndefined);
     ESubscribe MapOnce [js "alice"; js "chats"; js "#635291bob"; js "msgs"]
       (HMessageReceived (js "bob") (JBool true))] /\
  store w !! [js "alice"; js "chats"; js "#635291bob"; js "msgs"; js "a"] = None.
Proof. vm_compute. split; reflexivity. Qed.

(** Constructed from the participant instead of the link, the same chat is
    saved by line 66. *)
Lemma constructor_without_link_saves :
  let o := {| opt_key := Toy.alice; opt_chatLink := None;
              opt_onMessage := false; opt_participants := POne (JStr (js "bob")) |} in
  let w := after (@new_Chat Toy.sea o Toy.world0) in
  store w !! [js "alice"; js "chats"; js "#635291bob"; js "msgs"; js "a"] = Some JNull.
Proof. vm_compute. reflexivity. Qed.

(** ** getMyChatLinks: each link and each request is handled once *)

Lemma count_app {A} (f : A -> bool) l l' : count f (l ++ l') = (count f l + count f l')%nat.
Proof. unfold count. rewrite List.filter_app, length_app. reflexivity. Qed.

Lemma count_one {A} (f : A -> bool) x : count f [x] = if f x then 1%nat else 0%nat.
Proof. unfold count. cbn. destruct (f x); reflexivity. Qed.

Lemma count_delete {A} (f : A -> bool) (l : list A) i x :
  l !! i = Some x -> count f l = (count f (delete i l) + if f x then 1 else 0)%nat.
Proof.
  revert i. induction l as [|y l IH]; intros [|i] E; try discriminate.
  - cbn in E. injection E as ->. unfold count. cbn. destruct (f x); cbn; lia.
  - cbn in E. specialize (IH i E).
    change (delete (S i) (y :: l)) with (y :: delete i l).
    unfold count in *. cbn [List.filter].
    destruct (f y); cbn [length]; lia.
Qed.

Lemma In_delete {A} (l : list A) i x : In x (delete i l) -> In x l.
Proof.
  revert i. induction l as [|y l IH]; intros [|i]; cbn; auto.
  intros [->|Hin]; eauto.
Qed.

Lemma In_lookup {A} (l : list A) i x : l !! i = Some x -> In x l.
Proof.
  revert i. induction l as [|y l IH]; intros [|i] E; try discriminate; cbn in *.
  - injection E as ->. auto.
  - eauto.
Qed.

(** At most one element passes the test: two that do are the same. *)
Lemma count_le_1_unique {A} (f : A -> bool) l x y :
  (count f l <= 1)%nat -> In x l -> In y l -> f x = true -> f y = true -> x = y.
Proof.
  unfold count. induction l as [|z l IH]; cbn; [contradiction|].
  intros Hc [->|Hx] [->|Hy] Fx Fy; try reflexivity.
  - rewrite Fx in Hc. cbn in Hc.
    assert (In y (List.filter f l)) by (apply filter_In; auto).
    destruct (List.filter f l); [contradiction|cbn in Hc; lia].
  - rewrite Fy in Hc. cbn in Hc.
    assert (In x (List.filter f l)) by (apply filter_In; auto).
    destruct (List.filter f l); [contradiction|cbn in Hc; lia].
  - apply IH; auto. destruct (f z); cbn in Hc; lia.
Qed.

Lemma count_In_pos {A} (f : A -> bool) l x : In x l -> f x = true -> (1 <= count f l)%nat.
Proof.
  intros Hin Fx. unfold count.
  assert (Hf : In x (List.filter f l)) by (apply filter_In; auto).
  destruct (List.filter f l); [contradiction|cbn; lia].
Qed.

Lemma includes_app x l y : includes x (l ++ [y]) = includes x l || jsstring_eqb x y.
Proof. unfold includes. rewrite existsb_app. cbn. rewrite orb_false_r. reflexivity. Qed.

Lemma includes_In x l : includes x l = true <-> In x l.
Proof.
  unfold includes. rewrite existsb_exists. split.
  - intros (y & Hin & E). apply jsstring_eqb_eq in E. subst. exact Hin.
  - intros Hin. exists x. split; [exact Hin|apply jsstring_eqb_refl].
Qed.

Lemma jsstring_eqb_sym a b : jsstring_eqb a b = jsstring_eqb b a.
Proof.
  destruct (jsstring_eqb b a) eqn:E.
  - apply jsstring_eqb_eq in E. subst. apply jsstring_eqb_refl.
  - apply jsstring_eqb_neq. intros ->. rewrite jsstring_eqb_refl in E. discriminate.
Qed.

Section Links.
Context `{SEA} `{Builtins}.
Variables (key_ : keypair) (urlRoot : jsval) (callback subscribe : bool).

Abbreviation step := (links_step key_ urlRoot callback subscribe).

Lemma getMyChatLinks_inv w : links_inv (getMyChatLinks key_ w).
Proof. intros L. unfold claimed, count. cbn. lia. Qed.

Lemma getMyChatLinks_requests_inv w : requests_inv (getMyChatLinks key_ w).
Proof.
  split; [|split].
  - intros L s. unfold count. cbn. lia.
  - intros rr [].
  - intros L s p [].
Qed.

Lemma links_step_inv st i : links_inv st -> links_inv (step st i).
Proof.
  intros Hinv. destruct i as [data linkId|sub enc|run|sub encPub requestId|run];
    cbn [links_step].
  - (* the chatLinks callback *)
    destruct (negb (truthy data) || includes linkId (chatLinks st)); [exact Hinv|].
    intros L. apply (Hinv L).
  - (* the ownerEncryptedSharedKey callback, to its first await *)
    destruct (owner_subs st !! sub) as [o|]; [|exact Hinv].
    destruct (negb (truthy enc) || includes (os_linkId o) (chatLinks st)) eqn:G; [exact Hinv|].
    apply orb_false_iff in G as [_ G].
    intros L. destruct (Hinv L) as (H1 & H2 & H3).
    unfold claimed in *. cbn [chatLinks owner_runs request_subs actions].
    rewrite includes_app, !count_app, count_one.
    unfold run_of_link at 2 4. cbn [or_linkId]. rewrite (jsstring_eqb_sym (os_linkId o) L).
    destruct (jsstring_eqb L (os_linkId o)) eqn:E.
    + apply jsstring_eqb_eq in E. subst L. rewrite G in *. cbn [orb]. lia.
    + rewrite orb_false_r. lia.
  - (* the rest of the ownerEncryptedSharedKey callback *)
    destruct (owner_runs st !! run) as [r|] eqn:Er; [|exact Hinv].
    assert (Hdel : forall L, count (run_of_link L) (owner_runs st) =
                     (count (run_of_link L) (delete run (owner_runs st))
                      + if run_of_link L r then 1 else 0)%nat).
    { intros L. apply count_delete, Er. }
    cbv zeta.
    destruct (nullish (SEA_decrypt (or_enc r) (mySecret key_))).
    { intros L. destruct (Hinv L) as (H1 & H2 & H3). specialize (Hdel L).
      unfold claimed in *. cbn [chatLinks owner_runs request_subs actions]. lia. }
    destruct (formatChatLink _ _ _ _) as [url|].
    2:{ intros L. destruct (Hinv L) as (H1 & H2 & H3). specialize (Hdel L).
        unfold claimed in *. cbn [chatLinks owner_runs request_subs actions]. lia. }
    assert (Hcb : forall L,
      (count (is_link_callback L)
         (actions st ++ (if callback then [ALink url (or_linkId r)] else []))
       <= count (is_link_callback L) (actions st) + if run_of_link L r then 1 else 0)%nat).
    { intros L. rewrite count_app. destruct callback; [rewrite count_one|cbn; lia].
      unfold is_link_callback, run_of_link. destruct (jsstring_eqb (or_linkId r) L); lia. }
    assert (Hrq : forall L,
      count (is_requests_subscription L)
         (actions st ++ (if callback then [ALink url (or_linkId r)] else []))
      = count (is_requests_subscription L) (actions st)).
    { intros L. rewrite count_app. destruct callback; cbn; lia. }
    destruct subscribe.
    + intros L. destruct (Hinv L) as (H1 & H2 & H3).
      specialize (Hdel L). specialize (Hcb L). specialize (Hrq L).
      unfold claimed in *. cbn [chatLinks owner_runs request_subs actions].
      rewrite !(count_app _ _ [_]), !count_one.
      unfold sub_of_link, is_requests_subscription, is_link_callback, run_of_link in *.
      cbn [rs_linkId].
      destruct (jsstring_eqb (or_linkId r) L); lia.
    + intros L. destruct (Hinv L) as (H1 & H2 & H3).
      specialize (Hdel L). specialize (Hcb L). specialize (Hrq L).
      unfold claimed in *. cbn [chatLinks owner_runs request_subs actions]. lia.
  - (* the chatRequests callback, to its await or to its end *)
    destruct (request_subs st !! sub) as [r|]; [|exact Hinv].
    destruct (negb (truthy encPub)); [exact Hinv|].
    destruct (owner_subs st !! rs_owner r) as [o|]; [|exact Hinv].
    destruct (negb (includes (JSON_stringify encPub) (os_chats o)));
      intros L; apply (Hinv L).
  - (* the rest of the chatRequests callback *)
    destruct (request_runs st !! run) as [rr|]; [|exact Hinv].
    cbv zeta. destruct (new_Chat _ _); intros L; destruct (Hinv L) as (H1 & H2 & H3);
      unfold claimed in *; cbn [chatLinks owner_runs request_subs actions];
      rewrite ?count_app, ?count_one; cbn; lia.
Qed.

Lemma links_run_inv inputs : forall st,
  links_inv st -> links_inv (links_run key_ urlRoot callback subscribe st inputs).
Proof.
  induction inputs as [|i inputs IH]; intros st Hinv; [exact Hinv|].
  cbn. apply IH, links_step_inv, Hinv.
Qed.

Lemma claimed_le_1 L st : (claimed L st <= 1)%nat.
Proof. unfold claimed. destruct (includes L (chatLinks st)); lia. Qed.

(** C10.  Whatever the store delivers and however often, in any order with
    the suspended callbacks going on: for every link id the [links] callback
    is called at most once, and at most one [chatRequests] subscription is
    registered. *)
Theorem getMyChatLinks_handles_each_link_once (w : World) (inputs : list links_input)
    (linkId : jsstring) :
  let st := links_run key_ urlRoot callback subscribe (getMyChatLinks key_ w) inputs in
  (count (is_link_callback linkId) (actions st) <= 1)%nat /\
  (count (is_requests_subscription linkId) (actions st) <= 1)%nat /\
  (count (sub_of_link linkId) (request_subs st) <= 1)%nat.
Proof.
  intros st.
  destruct (links_run_inv inputs _ (getMyChatLinks_inv w) linkId) as (H1 & H2 & H3).
  fold st in H1, H2, H3. pose proof (claimed_le_1 linkId st). lia.
Qed.

End Links.

Lemma count_pos_In {A} (f : A -> bool) l :
  (1 <= count f l)%nat -> exists x, In x l /\ f x = true.
Proof.
  unfold count. intros Hc.
  destruct (List.filter f l) as [|x t] eqn:E; [cbn in Hc; lia|].
  exists x. apply filter_In. rewrite E. left. reflexivity.
Qed.

Lemma chats_grow_app (subs more : list owner_sub) i x :
  In x (match subs !! i with Some o => os_chats o | None => [] end) ->
  In x (match (subs ++ more) !! i with Some o => os_chats o | None => [] end).
Proof.
  destruct (subs !! i) as [o|] eqn:E; [|contradiction].
  rewrite (lookup_app_l_Some _ _ _ _ E). auto.
Qed.

Lemma chats_grow_push (subs : list owner_sub) i0 o s i x :
  subs !! i0 = Some o ->
  In x (match subs !! i with Some o => os_chats o | None => [] end) ->
  In x (match <[i0 := {| os_linkId := os_linkId o; os_chats := os_chats o ++ [s] |}]> subs !! i
        with Some o => os_chats o | None => [] end).
Proof.
  intros E0. destruct (decide (i0 = i)) as [<-|Hne].
  - rewrite E0. rewrite list_lookup_insert_eq by (eapply lookup_lt_Some, E0).
    cbn. intros Hin. apply in_app_iff. auto.
  - rewrite list_lookup_insert_ne by assumption. auto.
Qed.

Lemma chats_pushed (subs : list owner_sub) i0 o s :
  subs !! i0 = Some o ->
  In s (match <[i0 := {| os_linkId := os_linkId o; os_chats := os_chats o ++ [s] |}]> subs !! i0
        with Some o => os_chats o | None => [] end).
Proof.
  intros E0. rewrite list_lookup_insert_eq by (eapply lookup_lt_Some, E0).
  cbn. apply in_app_iff. right. left. reflexivity.
Qed.

Section Requests.
Context `{SEA} `{Builtins}.
Variables (key_ : keypair) (urlRoot : jsval) (callback subscribe : bool).

Abbreviation step' := (links_step key_ urlRoot callback subscribe).

Lemma requests_step_inv st i :
  links_inv st -> requests_inv st -> requests_inv (step' st i).
Proof.
  intros Hlinks Hreq. pose proof Hreq as (HJ & HK1 & HK2).
  destruct i as [data linkId|sub enc|run|sub encPub requestId|run]; cbn [links_step].
  - (* the chatLinks callback *)
    destruct (negb (truthy data) || includes linkId (chatLinks st)); [exact Hreq|].
    split; [exact HJ|split].
    + intros rr Hin. destruct (HK1 rr Hin) as (Hr & Hs). split; [exact Hr|].
      unfold chats_of in *. cbn [owner_subs]. apply chats_grow_app, Hs.
    + intros L s p Hin. destruct (HK2 L s p Hin) as (r & Hr & El & Hs).
      exists r. split; [exact Hr|split; [exact El|]].
      unfold chats_of in *. cbn [owner_subs]. apply chats_grow_app, Hs.
  - (* the ownerEncryptedSharedKey callback, to its first await *)
    destruct (owner_subs st !! sub) as [o|]; [|exact Hreq].
    destruct (negb (truthy enc) || includes (os_linkId o) (chatLinks st));
      exact Hreq.
  - (* the rest of the ownerEncryptedSharedKey callback *)
    destruct (owner_runs st !! run) as [r|]; [|exact Hreq].
    cbv zeta.
    destruct (nullish (SEA_decrypt (or_enc r) (mySecret key_))); [exact Hreq|].
    destruct (formatChatLink _ _ _ _) as [url|]; [|exact Hreq].
    assert (Hnc : forall L s extra,
      (forall a, In a extra -> is_new_chat L s a = false) ->
      count (is_new_chat L s) (actions st ++ extra) = count (is_new_chat L s) (actions st)).
    { intros L s extra Hex. rewrite count_app.
      assert (count (is_new_chat L s) extra = 0%nat); [|lia].
      unfold count. induction extra as [|a extra IH]; [reflexivity|].
      cbn. rewrite (Hex a (or_introl eq_refl)). apply IH.
      intros a' Hin. apply Hex. right. exact Hin. }
    assert (Hin_acts : forall L s p extra,
      (forall a, In a extra -> match a with ANewChat _ _ _ => False | _ => True end) ->
      In (ANewChat L s p) (actions st ++ extra) -> In (ANewChat L s p) (actions st)).
    { intros L s p extra Hex Hin. apply in_app_iff in Hin as [Hin|Hin]; [exact Hin|].
      destruct (Hex _ Hin). }
    destruct subscribe.
    + split; [|split]; cbn [request_runs request_subs actions owner_subs];
        rewrite <- app_assoc.
      * intros L s. rewrite Hnc; [apply HJ|].
        intros a Hin. apply in_app_iff in Hin as [Hin|[<-|[]]]; [|reflexivity].
        destruct callback; [destruct Hin as [<-|[]]; reflexivity|destruct Hin].
      * intros rr Hin. destruct (HK1 rr Hin) as (Hr & Hs).
        split; [apply in_app_iff; left; exact Hr|exact Hs].
      * intros L s p Hin. apply Hin_acts in Hin.
        -- destruct (HK2 L s p Hin) as (r0 & Hr & El & Hs).
           exists r0. split; [apply in_app_iff; left; exact Hr|split; assumption].
        -- intros a Ha. apply in_app_iff in Ha as [Ha|[<-|[]]]; [|exact I].
           destruct callback; [destruct Ha as [<-|[]]; exact I|destruct Ha].
    + split; [|split]; cbn [request_runs request_subs actions owner_subs].
      * intros L s. rewrite Hnc; [apply HJ|].
        intros a Hin. destruct callback; [destruct Hin as [<-|[]]; reflexivity|destruct Hin].
      * exact HK1.
      * intros L s p Hin. apply Hin_acts in Hin; [exact (HK2 L s p Hin)|].
        intros a Ha. destruct callback; [destruct Ha as [<-|[]]; exact I|destruct Ha].
  - (* the chatRequests callback, to its await or to its end *)
    destruct (request_subs st !! sub) as [r0|] eqn:Er0; [|exact Hreq].
    destruct (negb (truthy encPub)); [exact Hreq|].
    destruct (owner_subs st !! rs_owner r0) as [o|] eqn:Eo; [|exact Hreq].
    destruct (negb (includes (JSON_stringify encPub) (os_chats o))) eqn:G;
      [|exact Hreq].
    apply negb_true_iff in G.
    set (s0 := JSON_stringify encPub) in *.
    assert (Hr0 : In r0 (request_subs st)) by (eapply In_lookup, Er0).
    assert (Hfresh : forall r, In r (request_subs st) -> rs_linkId r = rs_linkId r0 ->
                               ~ In s0 (chats_of st (rs_owner r))).
    { intros r Hr El Hs.
      assert (r = r0) as ->.
      { destruct (Hlinks (rs_linkId r0)) as (H1 & _).
        pose proof (claimed_le_1 (rs_linkId r0) st).
        apply (count_le_1_unique (sub_of_link (rs_linkId r0)) (request_subs st)); auto; try lia;
          unfold sub_of_link; apply jsstring_eqb_eq; auto. }
      unfold chats_of in Hs. rewrite Eo in Hs.
      apply includes_In in Hs. congruence. }
    split; [|split]; cbn [request_runs request_subs actions owner_subs].
    + intros L s. rewrite count_app, count_one. unfold run_of_request at 2. cbn [rr_of rr_s].
      destruct (jsstring_eqb (rs_linkId r0) L && jsstring_eqb s0 s) eqn:E; [|specialize (HJ L s); lia].
      apply andb_prop in E as [E1 E2]. apply jsstring_eqb_eq in E1, E2. subst L s.
      assert (count (run_of_request (rs_linkId r0) s0) (request_runs st) = 0%nat).
      { destruct (count (run_of_request (rs_linkId r0) s0) (request_runs st)) eqn:Ec; [reflexivity|].
        exfalso. destruct (count_pos_In (run_of_request (rs_linkId r0) s0) (request_runs st))
          as (rr & Hin & Hrr); [lia|].
        unfold run_of_request in Hrr. apply andb_prop in Hrr as [E1 E2].
        apply jsstring_eqb_eq in E1, E2.
        destruct (HK1 rr Hin) as (Hr & Hs). rewrite E2 in Hs.
        exact (Hfresh _ Hr E1 Hs). }
      assert (count (is_new_chat (rs_linkId r0) s0) (actions st) = 0%nat).
      { destruct (count (is_new_chat (rs_linkId r0) s0) (actions st)) eqn:Ec; [reflexivity|].
        exfalso. destruct (count_pos_In (is_new_chat (rs_linkId r0) s0) (actions st))
          as (a & Hin & Ha); [lia|].
        destruct a as [| |L s p]; try discriminate.
        cbn in Ha. apply andb_prop in Ha as [E1 E2].
        apply jsstring_eqb_eq in E1, E2. subst L s.
        destruct (HK2 _ _ _ Hin) as (r & Hr & El & Hs).
        exact (Hfresh _ Hr El Hs). }
      lia.
    + intros rr Hin. apply in_app_iff in Hin as [Hin|[<-|[]]].
      * destruct (HK1 rr Hin) as (Hr & Hs). split; [exact Hr|].
        unfold chats_of in *. cbn [owner_subs]. eapply chats_grow_push; eassumption.
      * cbn [rr_of rr_s]. split; [exact Hr0|].
        unfold chats_of. cbn [owner_subs]. apply chats_pushed, Eo.
    + intros L s p Hin. destruct (HK2 L s p Hin) as (r & Hr & El & Hs).
      exists r. split; [exact Hr|split; [exact El|]].
      unfold chats_of in *. cbn [owner_subs]. eapply chats_grow_push; eassumption.
  - (* the rest of the chatRequests callback *)
    destruct (request_runs st !! run) as [rr|] eqn:Err; [|exact Hreq].
    cbv zeta.
    pose proof (In_lookup _ _ _ Err) as Hrr.
    assert (Hstop : requests_inv
      {| ls_world := ls_world st; chatLinks := chatLinks st; owner_subs := owner_subs st;
         owner_runs := owner_runs st; request_subs := request_subs st;
         request_runs := delete run (request_runs st); actions := actions st |}).
    { split; [|split]; cbn [request_runs request_subs actions owner_subs].
      - intros L s. pose proof (count_delete (run_of_request L s) _ _ _ Err) as Hd.
        specialize (HJ L s). lia.
      - intros rr' Hin. apply In_delete in Hin. exact (HK1 rr' Hin).
      - exact HK2. }
    destruct (new_Chat _ _) as [[] chat w|chat w|chat w]; [|exact Hstop|exact Hstop].
    split; [|split]; cbn [request_runs request_subs actions owner_subs].
    + intros L s. rewrite count_app, count_one.
      pose proof (count_delete (run_of_request L s) _ _ _ Err) as Hd.
      specialize (HJ L s). cbn [is_new_chat]. unfold run_of_request in *.
      destruct (jsstring_eqb (rs_linkId (rr_of rr)) L && jsstring_eqb (rr_s rr) s); lia.
    + intros rr' Hin. apply In_delete in Hin. destruct (HK1 rr' Hin) as (Hr & Hs).
      split; assumption.
    + intros L s p Hin. apply in_app_iff in Hin as [Hin|[E|[]]].
      * exact (HK2 L s p Hin).
      * injection E as <- <- _. destruct (HK1 rr Hrr) as (Hr & Hs). eauto.
Qed.

Lemma links_run_requests_inv inputs : forall st,
  links_inv st -> requests_inv st ->
  requests_inv (links_run key_ urlRoot callback subscribe st inputs).
Proof.
  induction inputs as [|i inputs IH]; intros st Hl Hr; [exact Hr|].
  cbn. apply IH; [apply links_step_inv, Hl|apply requests_step_inv; assumption].
Qed.

(** C2.  Whatever the store delivers and however often (the same request
    three times, or more), in any order with the suspended callbacks going
    on: for every link id and every request payload, as [JSON.stringify]
    renders it, at most one Chat is instantiated and saved. *)
Theorem getMyChatLinks_one_chat_per_request (w : World) (inputs : list links_input)
    (linkId : jsstring) (encPub : jsval) :
  let st := links_run key_ urlRoot callback subscribe (getMyChatLinks key_ w) inputs in
  (count (is_new_chat linkId (JSON_stringify encPub)) (actions st) <= 1)%nat.
Proof.
  intros st.
  destruct (links_run_requests_inv inputs _ (getMyChatLinks_inv key_ w)
              (getMyChatLinks_requests_inv key_ w)) as (HJ & _).
  specialize (HJ linkId (JSON_stringify encPub)). fold st in HJ. lia.
Qed.

End Requests.

(** The scenario of the invite flow in the toy instance.  Bob owns the link
    [id1]; the store delivers the link record twice before the first
    [ownerEncryptedSharedKey] value arrives, then that value to both
    subscriptions and again; Alice's request [r1] is delivered three times
    before its Chat is made, and once more after; then the link record and
    the key once more.  Bob's callback is called once, one [chatRequests]
    subscription is registered, and one Chat, with Alice, is made. *)
Example getMyChatLinks_replay :
  let mine := @mySecret Toy.sea Toy.bob in
  let enc := JStr (Toy.encrypt 0 (JStr (js "{sharedKey}")) mine) in
  let sharedKey := Toy.decrypt enc mine in
  let sharedSecret := Toy.secret (js_prop sharedKey (js "epub")) (as_keypair sharedKey) in
  let encPub := JStr (Toy.encrypt 1 (JStr (Toy.stringify (JStr (js "alice")))) sharedSecret) in
  let inputs :=
    [InChatLink (JBool true) (js "id1"); InChatLink (JBool true) (js "id1");
     InOwnerKey 0 enc; InOwnerKey 1 enc; InOwnerKey 0 enc; InOwnerKeyResume 0;
     InChatRequest 0 encPub (js "r1"); InChatRequest 0 encPub (js "r1");
     InChatRequest 0 encPub (js "r1"); InChatRequestResume 0;
     InChatRequest 0 encPub (js "r1");
     InChatLink (JBool true) (js "id1"); InOwnerKey 1 enc] in
  actions (@links_run Toy.sea Toy.builtins Toy.bob (JStr (js "https://x/")) true true
             (@getMyChatLinks Toy.bob Toy.world0) inputs)
  = [ALink (js "https://x/?chatWith=bob&s=453150&k=id1") (js "id1");
     ARequests (js "id1") 0;
     ANewChat (js "id1") (Toy.stringify encPub) (JStr (js "alice"))].
Proof. vm_compute. reflexivity. Qed.

(** ** A link is read back as it was written *)

Lemma split_no_sep sep a : Forall (fun c => c <> sep) a -> split sep a = [a].
Proof.
  induction 1 as [|c a Hc _ IH]; [reflexivity|].
  cbn. destruct (Z.eqb_spec c sep); [contradiction|]. rewrite IH. reflexivity.
Qed.

Lemma split_app_sep sep a b :
  Forall (fun c => c <> sep) a -> split sep (a ++ sep :: b) = a :: split sep b.
Proof.
  induction 1 as [|c a Hc _ IH]; cbn.
  - rewrite Z.eqb_refl. reflexivity.
  - destruct (Z.eqb_spec c sep); [contradiction|]. rewrite IH. reflexivity.
Qed.

(** The characters an encoded component is made of. *)
Lemma hex_digit_range d : 0 <= d < 16 -> 48 <= hex_digit d <= 70.
Proof. unfold hex_digit. intros. destruct (d <? 10) eqn:E; lia. Qed.

Lemma percent_no_sep b sep :
  0 <= b < 256 -> sep = 38 \/ sep = 61 \/ sep = 63 -> Forall (fun c => c <> sep) (percent b).
Proof.
  intros Hb Hsep. unfold percent.
  assert (H1 : 0 <= b / 16 < 16) by zdm. assert (H2 : 0 <= b mod 16 < 16) by zdm.
  pose proof (hex_digit_range _ H1) as R1. pose proof (hex_digit_range _ H2) as R2.
  assert (hex_digit (b / 16) <> 61 /\ hex_digit (b / 16) <> 63 /\
          hex_digit (b mod 16) <> 61 /\ hex_digit (b mod 16) <> 63) as (A1 & A2 & A3 & A4).
  { unfold hex_digit. repeat split; match goal with |- context [?x <? 10] =>
      destruct (Z.ltb_spec x 10) end; lia. }
  repeat constructor; lia.
Qed.

Lemma percent_utf8_no_sep cp sep :
  0 <= cp < 1114112 -> sep = 38 \/ sep = 61 \/ sep = 63 ->
  Forall (fun c => c <> sep) (percent_utf8 cp).
Proof.
  intros Hcp Hsep. unfold percent_utf8, utf8.
  destruct (Z.ltb_spec cp 128); [|destruct (Z.ltb_spec cp 2048); [|destruct (Z.ltb_spec cp 65536)]];
    cbn [List.map List.concat]; rewrite ?app_nil_r;
    repeat (apply Forall_app; split); apply percent_no_sep; auto; zdm.
Qed.

Lemma unreserved_no_sep c sep :
  unreserved c = true -> sep = 38 \/ sep = 61 \/ sep = 63 -> c <> sep.
Proof.
  intros Hu Hsep E. subst c. destruct Hsep as [E|[E|E]]; subst sep; discriminate.
Qed.

Lemma encode_no_sep sep :
  sep = 38 \/ sep = 61 \/ sep = 63 ->
  forall n s e, (length s <= n)%nat -> Forall code_unit s ->
    encodeURIComponent s = Some e -> Forall (fun c => c <> sep) e.
Proof.
  intros Hsep. induction n as [|n IH]; intros s e Hn Hs He.
  - destruct s; [|simpl in Hn; lia]. injection He as <-. constructor.
  - destruct s as [|c r]; [injection He as <-; constructor|].
    simpl in Hn. apply Forall_cons in Hs as [Hc Hr]. simpl in He.
    destruct (unreserved c) eqn:Hu.
    + destruct (encodeURIComponent r) as [e'|] eqn:Er; [|discriminate].
      injection He as <-. constructor; [eapply unreserved_no_sep; eassumption|].
      eapply (IH r); [lia|assumption|exact Er].
    + destruct (is_low_surrogate c) eqn:Hl; [discriminate|].
      destruct (is_high_surrogate c) eqn:Hh.
      * destruct r as [|d r']; [discriminate|].
        destruct (is_low_surrogate d) eqn:Hd; [|discriminate].
        destruct (encodeURIComponent r') as [e'|] eqn:Er; [|discriminate].
        injection He as <-. apply Forall_cons in Hr as [_ Hr'].
        apply Forall_app. split.
        -- apply percent_utf8_no_sep; [|assumption].
           destruct (scalar_pair c d Hh Hd) as [R _]. exact R.
        -- eapply (IH r'); [simpl in Hn; lia|assumption|exact Er].
      * destruct (encodeURIComponent r) as [e'|] eqn:Er; [|discriminate].
        injection He as <-. apply Forall_app. split.
        -- apply percent_utf8_no_sep; [|assumption]. unfold code_unit in Hc. lia.
        -- eapply (IH r); [lia|assumption|exact Er].
Qed.

(** The link [formatChatLink] makes of a root without [?] and three
    well-formed fields splits at its [?] into the root and a query from which
    [getUrlParameter] reads the three fields back. *)
Lemma link_reads_back (urlRoot pubKey sharedSecret linkId link : jsstring) :
  Forall (fun c => c <> 63) urlRoot ->
  well_formed pubKey -> well_formed sharedSecret -> well_formed linkId ->
  formatChatLink (JStr urlRoot) (JStr pubKey) (JStr sharedSecret) (JStr linkId) = Some link ->
  exists query,
    split 63 link = [urlRoot; query] /\
    getUrlParameter (js "chatWith") query = Some (JStr pubKey) /\
    getUrlParameter (js "s") query = Some (JStr sharedSecret) /\
    getUrlParameter (js "k") query = Some (JStr linkId).
Proof.
  intros Hroot Hp Hs Hk Hlink.
  destruct (encode_decode_field _ Hp) as (p & Ep & Dp).
  destruct (encode_decode_field _ Hs) as (s & Es & Ds).
  destruct (encode_decode_field _ Hk) as (k & Ek & Dk).
  assert (El : link = urlRoot ++ js "?chatWith=" ++ p ++ js "&s=" ++ s ++ js "&k=" ++ k).
  { unfold formatChatLink in Hlink. cbn [ToString] in Hlink. rewrite Ep, Es, Ek in Hlink.
    congruence. }
  subst link. clear Hlink.
  pose proof (well_formed_code_units _ Hp) as Cp.
  pose proof (well_formed_code_units _ Hs) as Cs.
  pose proof (well_formed_code_units _ Hk) as Ck.
  assert (Np : forall sep, sep = 38 \/ sep = 61 \/ sep = 63 -> Forall (fun c => c <> sep) p)
    by (intros sep Hsep; eapply (encode_no_sep sep Hsep (length pubKey)); eauto).
  assert (Ns : forall sep, sep = 38 \/ sep = 61 \/ sep = 63 -> Forall (fun c => c <> sep) s)
    by (intros sep Hsep; eapply (encode_no_sep sep Hsep (length sharedSecret)); eauto).
  assert (Nk : forall sep, sep = 38 \/ sep = 61 \/ sep = 63 -> Forall (fun c => c <> sep) k)
    by (intros sep Hsep; eapply (encode_no_sep sep Hsep (length linkId)); eauto).
  assert (Lit : forall sep (l : jsstring), Forall (fun c => c <> sep) l ->
            forall t, Forall (fun c => c <> sep) t -> Forall (fun c => c <> sep) (l ++ t))
    by (intros; apply Forall_app; auto).
  exists (js "chatWith=" ++ p ++ js "&s=" ++ s ++ js "&k=" ++ k).
  split.
  { change (js "?chatWith=") with (63 :: js "chatWith=").
    change ((63 :: js "chatWith=") ++ p ++ js "&s=" ++ s ++ js "&k=" ++ k)
      with (63 :: (js "chatWith=" ++ p ++ js "&s=" ++ s ++ js "&k=" ++ k)).
    rewrite split_app_sep by assumption.
    rewrite split_no_sep; [reflexivity|].
    apply Lit; [repeat constructor; discriminate|].
    apply Lit; [auto|]. apply Lit; [repeat constructor; discriminate|].
    apply Lit; [auto|]. apply Lit; [repeat constructor; discriminate|auto]. }
  assert (Hpieces : split 38 (js "chatWith=" ++ p ++ js "&s=" ++ s ++ js "&k=" ++ k)
                    = [js "chatWith=" ++ p; js "s=" ++ s; js "k=" ++ k]).
  { change (js "&s=") with (38 :: js "s="). change (js "&k=") with (38 :: js "k=").
    rewrite (app_assoc (js "chatWith=") p).
    change ((38 :: js "s=") ++ s ++ (38 :: js "k=") ++ k)
      with (38 :: ((js "s=" ++ s) ++ (38 :: (js "k=" ++ k)))).
    rewrite split_app_sep by (apply Lit; [repeat constructor; discriminate|auto]).
    rewrite split_app_sep by (apply Lit; [repeat constructor; discriminate|auto]).
    rewrite split_no_sep by (apply Lit; [repeat constructor; discriminate|auto]).
    reflexivity. }
  assert (Hpiece : forall name value, Forall (fun c => c <> 61) name ->
            Forall (fun c => c <> 61) value ->
            split 61 (name ++ 61 :: value) = [name; value]).
  { intros name value Hn Hv. rewrite split_app_sep by assumption.
    rewrite split_no_sep by assumption. reflexivity. }
  unfold getUrlParameter. rewrite Hpieces. cbn [getUrlParameter_in].
  change (js "chatWith=" ++ p) with (js "chatWith" ++ 61 :: p).
  change (js "s=" ++ s) with (js "s" ++ 61 :: s).
  change (js "k=" ++ k) with (js "k" ++ 61 :: k).
  rewrite !Hpiece by (auto; repeat constructor; discriminate).
  rewrite Dp, Ds, Dk. repeat split; reflexivity.
Qed.

(** ** What the constructor has done when the link's subscription is registered *)

Section ConstructorTrace.
Context `{SEA} `{Builtins}.

Lemma appends_ret {A} (a : A) : appends (ret a).
Proof. intros c w. exists []. cbn. rewrite app_nil_r. reflexivity. Qed.

Lemma appends_bind {A B} (m : M A) (k : A -> M B) :
  appends m -> (forall a, appends (k a)) -> appends (bind m k).
Proof.
  intros Hm Hk c w. unfold bind. specialize (Hm c w).
  destruct (m c w) as [a c1 w1|c1 w1|c1 w1]; cbn in Hm; [|exact Hm|exact Hm].
  destruct Hm as (l1 & E1). destruct (Hk a c1 w1) as (l2 & E2).
  exists (l1 ++ l2). rewrite E2, E1, app_assoc. reflexivity.
Qed.

Lemma appends_spawn {A} (m : M A) : appends m -> appends (spawn m).
Proof.
  intros Hm c w. unfold spawn. specialize (Hm c w). destruct (m c w); exact Hm.
Qed.

Lemma appends_this : appends this.
Proof. intros c w. exists []. cbn. rewrite app_nil_r. reflexivity. Qed.

Lemma appends_update_this f : appends (update_this f).
Proof. intros c w. exists []. cbn. rewrite app_nil_r. reflexivity. Qed.

Lemma appends_gun_put p v : appends (update_world (gun_put p v)).
Proof. intros c w. exists [EPut p v]. reflexivity. Qed.

Lemma appends_gun_subscribe k p h : appends (update_world (gun_subscribe k p h)).
Proof. intros c w. exists [ESubscribe k p h]. reflexivity. Qed.

Lemma appends_gunOnceDefined p : appends (gunOnceDefined p).
Proof.
  intros c w. exists []. rewrite gunOnceDefined_defined_at, app_nil_r.
  destruct (defined_at w p); reflexivity.
Qed.

Lemma appends_encrypt d s : appends (encrypt d s).
Proof. intros c w. exists []. cbn. rewrite app_nil_r. reflexivity. Qed.

Lemma appends_if {A} (b : bool) (m1 m2 : M A) : appends m1 -> appends m2 -> appends (if b then m1 else m2).
Proof. destruct b; auto. Qed.

Lemma appends_getSecret p : appends (getSecret p).
Proof.
  unfold getSecret.
  repeat first [apply appends_bind; [|intros ?] | apply appends_if | apply appends_this
               | apply appends_ret | apply appends_update_this | apply appends_gunOnceDefined].
Qed.

Lemma appends_getOurSecretChatId p : appends (getOurSecretChatId p).
Proof.
  unfold getOurSecretChatId.
  repeat first [apply appends_getSecret | apply appends_if | apply appends_this
               | apply appends_ret | apply appends_update_this
               | apply appends_bind; [|intros ?]].
Qed.

Lemma appends_getTheirSecretChatId p : appends (getTheirSecretChatId p).
Proof.
  unfold getTheirSecretChatId.
  repeat first [apply appends_getSecret | apply appends_if | apply appends_this
               | apply appends_ret | apply appends_update_this
               | apply appends_bind; [|intros ?]].
Qed.

Lemma appends_addPub p : appends (addPub p).
Proof.
  unfold addPub.
  repeat first [apply appends_getSecret | apply appends_getOurSecretChatId
               | apply appends_getTheirSecretChatId | apply appends_encrypt
               | apply appends_gun_put | apply appends_gun_subscribe
               | apply appends_if | apply appends_this
               | apply appends_ret | apply appends_update_this | apply appends_spawn
               | apply appends_bind; [|intros ?]].
Qed.

Lemma appends_add_participants p : appends (add_participants p).
Proof.
  destruct p as [v|l]; cbn [add_participants].
  - destruct v; try apply appends_ret. apply appends_spawn, appends_addPub.
  - induction l as [|v l IH]; cbn [for_each]; [apply appends_ret|].
    apply appends_bind; [|intros _; exact IH].
    destruct v; try (intros c w; eexists [_]; reflexivity).
    apply appends_spawn, appends_addPub.
Qed.

(** Constructed from a link of another identity that carries a secret and a
    link id, a Chat has made two actions when the subscription of line 41 is
    there: it has published its [epub], and it has registered that
    subscription.  No node under [chats] has been written. *)
Lemma new_Chat_with_link_trace o w link root query owner sharedSecret linkId :
  opt_chatLink o = Some link -> link <> [] -> split 63 link = [root; query] ->
  getUrlParameter (js "chatWith") query = Some owner ->
  strict_eq owner (pub (opt_key o)) = false ->
  getUrlParameter (js "s") query = Some sharedSecret ->
  getUrlParameter (js "k") query = Some linkId ->
  truthy sharedSecret = true -> truthy linkId = true ->
  exists later_actions,
    events (after (new_Chat o w)) =
      events w ++
      [EPut [ToString (pub (opt_key o))] (JObj [(js "epub", epub (opt_key o))]);
       ESubscribe On
         [ToString owner; js "chatLinks"; ToString linkId; js "encryptedSharedKey"]
         (HEncryptedSharedKey sharedSecret)] ++
      later_actions.
Proof.
  intros El Hl Hsplit Hw Hne Hs Hk Hts Htk.
  unfold new_Chat, constructor.
  unfold bind at 1, this. unfold bind at 1, update_world. unfold bind at 1.
  unfold bind at 1.
  erewrite chatLink_branch_registers; try eassumption; [|reflexivity].
  cbn [fst snd negb].
  match goal with |- context [bind (add_participants ?p) ?k ?c0 ?w0] =>
    destruct (appends_bind (add_participants p) k (appends_add_participants p)
                (fun _ => appends_ret tt) c0 w0) as (l & E) end.
  exists l. rewrite E. cbn. rewrite <- !app_assoc. reflexivity.
Qed.

End ConstructorTrace.

(** ** Identity: ordinals *)



(** ** Identity: the most verified attributes *)















(** ** Participants: [addPub] *)

Lemma bind_done {A B} (m : M A) (k : A -> M B) c w a c' w' :
  m c w = Done a c' w' -> bind m k c w = k a c' w'.
Proof. intros E. unfold bind. rewrite E. reflexivity. Qed.

Lemma bind_hang {A B} (m : M A) (k : A -> M B) c w c' w' :
  m c w = Hang c' w' -> bind m k c w = Hang c' w'.
Proof. intros E. unfold bind. rewrite E. reflexivity. Qed.

Lemma spawn_done {A} (m : M A) c w a c' w' :
  m c w = Done a c' w' -> spawn m c w = Done tt c' w'.
Proof. intros E. unfold spawn. rewrite E. reflexivity. Qed.

Section Participants.
Context `{SEA} `{Builtins}.

Lemma published_same_epubs w w' p e : same_epubs w w' -> published w p e -> published w' p e.
Proof. intros E [Hp Hne]. split; [rewrite E; exact Hp|exact Hne]. Qed.

Lemma memo_ok_same_epubs c w w' : same_epubs w w' -> memo_ok c w -> memo_ok c w'.
Proof.
  intros E (Hs & Ho & Ht). split; [|split]; intros p v Ea Hv.
  - destruct (Hs p v Ea Hv) as (e & Hp & ->). eauto using published_same_epubs.
  - destruct (Ho p v Ea Hv) as (e & Hp & ->). eauto using published_same_epubs.
  - destruct (Ht p v Ea Hv) as (e & Hp & ->). eauto using published_same_epubs.
Qed.

(** Forgetting a secret keeps the caches sound. *)
Lemma memo_ok_set_null c w p :
  memo_ok c w -> memo_ok (with_secrets (obj_set p JNull (secrets c)) c) w.
Proof.
  intros (Hs & Ho & Ht). split; [|split; assumption].
  cbn. intros q v Ea Hv. destruct (decide (p = q)) as [<-|Hne].
  - rewrite assoc_set_eq in Ea. injection Ea as <-. discriminate.
  - rewrite assoc_set_ne in Ea by assumption. eauto.
Qed.

Lemma same_epubs_entropy w n : same_epubs w (with_entropy n w).
Proof. intros k. reflexivity. Qed.

Lemma same_epubs_subscribe w k p h : same_epubs w (gun_subscribe k p h w).
Proof. intros q. reflexivity. Qed.

(** [addPub] for a peer whose key is published: the peer's public key goes,
    encrypted under the local secret, to [pub] of the outbound channel; the
    peer's channel to us is subscribed to, unless the peer is ourselves; then
    our own channel is. *)
Lemma addPub_outcome c w p e :
  memo_ok c w -> published w p e ->
  let secret := SEA_secret e (key c) in
  let i := channel_id secret p in
  let j := channel_id secret (me c) in
  let enc := JStr (SEA_encrypt (entropy w) (JStr p) (SEA_secret (epub (key c)) (key c))) in
  let w1 := gun_put (pub_node (me c) i) enc (with_entropy (S (entropy w)) w) in
  let w2 := if strict_eq (JStr p) (pub (key c)) then w1
            else gun_subscribe MapOnce [p; js "chats"; ToString j; js "msgs"]
                   (HMessageReceived p JUndefined) w1 in
  let w3 := gun_subscribe MapOnce [me c; js "chats"; ToString i; js "msgs"]
              (HMessageReceived p (JBool true)) w2 in
  exists c',
    addPub p c w = Done tt c' w3 /\
    memo_ok c' w3 /\ key c' = key c /\ onMessage c' = onMessage c /\
    List.map fst (secrets c') = List.map fst (obj_set p JNull (secrets c)).
Proof.
  intros Hm Hp secret i j enc w1 w2 w3.
  set (c0 := with_secrets (obj_set p JNull (secrets c)) c).
  assert (Hm0 : memo_ok c0 w) by (apply memo_ok_set_null, Hm).
  assert (Hin0 : In p (List.map fst (secrets c0))).
  { eapply assoc_In_keys. cbn. apply assoc_set_eq. }
  destruct (getSecret_spec c0 w p e Hm0 Hp) as (c1 & E1 & Hm1 & Hk1 & Hon1 & Hkeys1).
  specialize (Hkeys1 Hin0).
  destruct (getOurSecretChatId_spec c1 w p e Hm1 Hp) as (c2 & E2 & Hm2 & Hk2 & Hon2 & Hkeys2).
  rewrite Hkeys1 in Hkeys2. specialize (Hkeys2 Hin0).
  assert (Hkey2 : key c2 = key c) by (rewrite Hk2, Hk1; reflexivity).
  assert (Hme2 : me c2 = me c) by (unfold me; rewrite Hkey2; reflexivity).
  assert (Hw1 : same_epubs w w1).
  { eapply same_epubs_trans; [apply (same_epubs_entropy w (S (entropy w)))|].
    apply same_epubs_put_chats. discriminate. }
  assert (Hw2 : same_epubs w w2).
  { unfold w2. destruct (strict_eq (JStr p) (pub (key c))); [exact Hw1|].
    eapply same_epubs_trans; [exact Hw1|apply same_epubs_subscribe]. }
  assert (Hw3 : same_epubs w w3).
  { eapply same_epubs_trans; [exact Hw2|apply same_epubs_subscribe]. }
  assert (Hdone : exists c3, 
    (if negb (strict_eq (JStr p) (pub (key c))) then
       theirSecretChatId <- getTheirSecretChatId p ;;
       update_world (gun_subscribe MapOnce
         [p; js "chats"; ToString theirSecretChatId; js "msgs"]
         (HMessageReceived p JUndefined))
     else ret tt) c2 w1 = Done tt c3 w2 /\
    memo_ok c3 w /\ key c3 = key c /\ onMessage c3 = onMessage c2 /\
    List.map fst (secrets c3) = List.map fst (secrets c2)).
  { unfold w2.
    destruct (strict_eq (JStr p) (pub (key c))); cbn [negb].
    - exists c2. split; [reflexivity|]. split; [exact Hm2|]. split; [exact Hkey2|].
      split; reflexivity.
    - destruct (getTheirSecretChatId_spec c2 w1 p e) as (c3 & E3 & Hm3 & Hk3 & Hon3 & Hkeys3).
      { eapply memo_ok_same_epubs; eassumption. }
      { eapply published_same_epubs; eassumption. }
      exists c3. rewrite (bind_done _ _ _ _ _ _ _ E3).
      rewrite Hkey2, Hme2. fold secret. fold j.
      split; [reflexivity|].
      split; [eapply memo_ok_same_epubs; [|exact Hm3]; intros q; symmetry; apply Hw1|].
      split; [congruence|]. split; [exact Hon3|].
      apply Hkeys3. rewrite Hkeys2. exact Hin0. }
  destruct Hdone as (c3 & E3 & Hm3 & Hk3 & Hon3 & Hkeys3).
  exists c3. split.
  - unfold addPub.
    rewrite (bind_done _ _ c w tt c0 w eq_refl).
    rewrite (bind_done _ _ c0 w tt c1 w (spawn_done _ _ _ _ _ _ E1)).
    rewrite (bind_done _ _ _ _ _ _ _ E2).
    rewrite (bind_done this _ c2 w c2 c2 w eq_refl).
    rewrite Hkey2, Hme2, Hk1. change (key c0) with (key c). fold secret. fold i.
    erewrite bind_done by reflexivity.
    erewrite bind_done by reflexivity.
    change (gun_put [me c; js "chats"; ToString i; js "pub"] _ _) with w1.
    rewrite (bind_done _ _ _ _ _ _ _ E3).
    reflexivity.
  - split; [eapply memo_ok_same_epubs; eassumption|].
    split; [exact Hk3|]. split; [rewrite Hon3, Hon2, Hon1; reflexivity|].
    rewrite Hkeys3, Hkeys2. reflexivity.
Qed.

End Participants.

(** ** From [send] to the peer's callback *)

Section Delivery.
Context `{SEA} `{Builtins}.

(** With sound caches the secret and the ids are those of the published
    key. *)
Lemma secret_for_memo c w k e :
  memo_ok c w -> published w k e -> secret_for c w k = Some (SEA_secret e (key c)).
Proof.
  intros (Hs & _) Hp. unfold secret_for.
  destruct (truthy (obj_get k (secrets c))) eqn:Etr.
  - unfold obj_get in *. destruct (assoc k (secrets c)) as [v|] eqn:Ea; [|discriminate].
    destruct (Hs k v Ea Etr) as (e' & Hp' & ->).
    rewrite (published_functional _ _ _ _ Hp' Hp). reflexivity.
  - destruct Hp as [Hp Hne]. unfold defined_at. rewrite Hp.
    destruct e; try reflexivity. congruence.
Qed.

Lemma id_for_memo c w k e :
  memo_ok c w -> published w k e ->
  id_for c w k = Some (channel_id (SEA_secret e (key c)) k).
Proof.
  intros Hm Hp. unfold id_for.
  destruct (truthy (obj_get k (ourSecretChatIds c))) eqn:Etr.
  - destruct Hm as (_ & Ho & _).
    unfold obj_get in *. destruct (assoc k (ourSecretChatIds c)) as [v|] eqn:Ea; [|discriminate].
    destruct (Ho k v Ea Etr) as (e' & Hp' & ->).
    rewrite (published_functional _ _ _ _ Hp' Hp). reflexivity.
  - rewrite (secret_for_memo _ _ _ _ Hm Hp). reflexivity.
Qed.

(** The loop of [send] and one channel [i0]: when the participants that
    write to it share the secret [s0], and one of them is in the loop or the
    channel holds the message already, then afterwards [msgs/<time>] and
    [latestMsg] of the channel hold the message encrypted under [s0]. *)
Lemma send_loop_slot msg ks : forall c w k0 s0 i0,
  nullish msg = false ->
  (forall k, In k ks -> In k (List.map fst (secrets c)) /\ is_Some (secret_for c w k)) ->
  let t := ToString (js_prop msg (js "time")) in
  (In k0 ks /\ id_for c w k0 = Some i0 /\ secret_for c w k0 = Some s0) \/
  (exists v, sealed msg s0 v /\ store w !! msgs_node c i0 t = Some v /\
             store w !! latestMsg_node c i0 = Some v) ->
  (forall k i, In k ks -> id_for c w k = Some i -> ToString i = ToString i0 ->
               secret_for c w k = Some s0) ->
  exists c' w' v,
    for_each ks (send_to msg) c w = Done tt c' w' /\
    sealed msg s0 v /\
    store w' !! msgs_node c i0 t = Some v /\
    store w' !! latestMsg_node c i0 = Some v.
Proof.
  induction ks as [|k ks IH]; intros c w k0 s0 i0 Hmsg Hks t Hstart Hshare.
  - destruct Hstart as [([] & _)|(v & Hv & Em & El)].
    exists c, w, v. auto.
  - destruct (Hks k (or_introl eq_refl)) as (Hin & s & Es).
    destruct (id_for_of_secret _ _ _ _ Es) as (i & Ei).
    destruct (send_to_outcome c w k msg s i Hmsg Es Ei) as (c1 & E1 & Hc1 & Hk1).
    specialize (Hk1 Hin). fold t in E1.
    set (enc := JStr (SEA_encrypt (entropy w) (JStr (JSON_stringify msg)) s)) in *.
    set (w1 := gun_put (latestMsg_node c i) enc
                 (gun_put (msgs_node c i t) enc (with_entropy (S (entropy w)) w))) in *.
    assert (Hst1 : store w1 = <[latestMsg_node c i := enc]> (<[msgs_node c i t := enc]> (store w)))
      by reflexivity.
    assert (Hw1 : same_epubs w w1).
    { intros q. rewrite Hst1. unfold latestMsg_node, msgs_node.
      rewrite !lookup_insert_ne by discriminate. reflexivity. }
    assert (Hme : me c1 = me c) by (eapply caches_agree_me, Hc1).
    assert (Hsec : forall k', secret_for c1 w1 k' = secret_for c w k').
    { intros k'. destruct Hc1 as (_&_&Hs&_).
      rewrite (secret_for_same_epubs _ _ _ _ Hw1). apply Hs. }
    assert (Hid : forall k', id_for c1 w1 k' = id_for c w k').
    { intros k'. destruct Hc1 as (_&_&_&Hi).
      rewrite (id_for_same_epubs _ _ _ _ Hw1). apply Hi. }
    destruct (IH c1 w1 k0 s0 i0 Hmsg) as (c2 & w2 & v & E2 & Hv & Em & El).
    + intros k' Hin'. destruct (Hks k' (or_intror Hin')) as (Hin2 & Hs2).
      rewrite Hk1, Hsec. auto.
    + fold t.
      rewrite (msgs_node_eq c c1 i0 i0 t) by auto.
      rewrite (latestMsg_node_eq c c1 i0 i0) by auto.
      rewrite Hid, Hsec, Hst1.
      destruct (decide (ToString i = ToString i0)) as [Esame|Hdiff].
      * right. exists enc. split.
        { exists (entropy w). unfold enc.
          assert (Es0 := Hshare k i (or_introl eq_refl) Ei Esame).
          assert (s = s0) by congruence. subst s. reflexivity. }
        rewrite <- (msgs_node_eq c c i i0 t eq_refl (eq_sym Esame)).
        rewrite <- (latestMsg_node_eq c c i i0 eq_refl (eq_sym Esame)).
        rewrite lookup_insert_ne by (apply not_eq_sym, msgs_not_latestMsg).
        rewrite !lookup_insert_eq. auto.
      * destruct Hstart as [([<-|Hin0] & Ei0 & Es0)|(v & Hv & Em & El)].
        -- exfalso. apply Hdiff. congruence.
        -- left. auto.
        -- right. exists v. split; [exact Hv|].
           rewrite lookup_insert_ne by (apply not_eq_sym, msgs_not_latestMsg).
           rewrite lookup_insert_ne by (intros E; apply msgs_node_inv in E as [E _]; auto).
           rewrite lookup_insert_ne by (intros E; apply latestMsg_node_inv in E; auto).
           rewrite lookup_insert_ne by (apply msgs_not_latestMsg).
           auto.
    + intros k' i' Hin' Ei' Esame. rewrite Hid in Ei'. rewrite Hsec.
      apply (Hshare k' i'); [right; exact Hin'|exact Ei'|exact Esame].
    + exists c2, w2, v. rewrite for_each_cons, E1. fold t in Em.
      rewrite (msgs_node_eq c c1 i0 i0 t) in Em by auto.
      rewrite (latestMsg_node_eq c c1 i0 i0) in El by auto.
      auto.
Qed.

End Delivery.

Lemma strip_prefix_app pre r : Toy.strip_prefix pre (pre ++ r) = Some r.
Proof.
  induction pre as [|a pre IH]; cbn; [reflexivity|]. rewrite Z.eqb_refl. exact IH.
Qed.

Lemma after_bar_replicate n r : Toy.after_bar (replicate n 105 ++ 124 :: r) = Some r.
Proof. induction n as [|n IH]; cbn; [reflexivity|exact IH]. Qed.

(** In the second instance a text decrypts to the value it stands for. *)
Lemma wire_decrypt_encrypt n text s :
  Wire.decrypt (JStr (Wire.encrypt n (JStr text) s)) s = Wire.parse text.
Proof.
  unfold Wire.decrypt, Wire.encrypt.
  replace (js "SEA" ++ ToString s ++ [124] ++ replicate n 105 ++ [124] ++ text)
    with ((js "SEA" ++ ToString s ++ [124]) ++ (replicate n 105 ++ 124 :: text))
    by (rewrite <- !app_assoc; reflexivity).
  rewrite strip_prefix_app, after_bar_replicate. reflexivity.
Qed.

Section DeliveryFacts.
Context `{SEA} `{Builtins}.

(** [send] of a message object, seen from the channel to the participant
    [pB], when every participant's key is published, the caches are sound
    and no other participant's channel has the same id: both slots of the
    channel hold the message encrypted under the secret shared with [pB]. *)
Lemma send_seals c w pB eB f :
  memo_ok c w ->
  (forall k, In k (Object_keys (secrets c)) -> exists e, published w k e) ->
  In pB (Object_keys (secrets c)) -> published w pB eB ->
  (forall k e, In k (Object_keys (secrets c)) -> published w k e -> k <> pB ->
     channel_id (SEA_secret e (key c)) k <> channel_id (SEA_secret eB (key c)) pB) ->
  let secret := SEA_secret eB (key c) in
  let i := channel_id secret pB in
  let t := ToString (js_prop (JObj f) (js "time")) in
  exists c' w1 v,
    send (JObj f) c w = Done tt c' w1 /\
    sealed (JObj f) secret v /\
    store w1 !! msgs_node c i t = Some v /\
    store w1 !! latestMsg_node c i = Some v /\
    same_epubs w w1 /\ caches_agree w c c' /\
    List.map fst (secrets c') = List.map fst (secrets c).
Proof.
  intros Hm Hall HinB HB Hcoll secret i t.
  assert (Hks : forall k, In k (Object_keys (secrets c)) ->
            In k (List.map fst (secrets c)) /\ is_Some (secret_for c w k)).
  { intros k Hin. split; [apply Object_keys_In, Hin|].
    destruct (Hall k Hin) as (e & He). eapply secret_for_published, He. }
  destruct (send_loop (JObj f) (Object_keys (secrets c)) c w eq_refl Hks)
    as (c1 & w1 & E1 & Hc1 & Hk1 & Hw1 & _).
  destruct (send_loop_slot (JObj f) (Object_keys (secrets c)) c w pB secret i eq_refl Hks)
    as (c2 & w2 & v & E2 & Hv & Em & El).
  { left. split; [exact HinB|].
    split; [apply id_for_memo|apply secret_for_memo]; assumption. }
  { intros k i' Hin Ei' Esame.
    destruct (Hall k Hin) as (e & He).
    rewrite (id_for_memo _ _ _ _ Hm He) in Ei'. injection Ei' as <-.
    destruct (decide (k = pB)) as [->|Hne].
    - rewrite (secret_for_memo _ _ _ _ Hm He).
      rewrite (published_functional _ _ _ _ He HB). reflexivity.
    - exfalso. apply (Hcoll k e Hin He Hne).
      unfold i, secret, channel_id in *. cbn [ToString] in Esame. rewrite Esame. reflexivity. }
  rewrite E1 in E2. injection E2 as <- <-.
  exists c1, w1, v. rewrite send_object. auto 10.
Qed.

End DeliveryFacts.

Section EndToEnd.
Context `{SEA} `{Builtins}.

(** A message reaches the peer.  Let A and B have distinct public keys and
    published encryption keys, let the key agreement give both the same
    secret, and let a message object encrypted under that secret decrypt to
    itself.  A's Chat has B among its participants, all with published keys
    and none with B's channel id.  Then [addPub(A)] on B's side subscribes to
    [msgs] of one channel in A's namespace; A's [send(msg)] returns and puts
    a value under that very node, at the key [msg.time]; and B's
    [messageReceived] on that value calls [onMessage(msg, {selfAuthored:
    undefined})]. *)
Theorem message_reaches_peer (cA cB : Chat) (w : World) (pA pB : jsstring)
    (f : list (jsstring * jsval)) :
  pub (key cA) = JStr pA -> pub (key cB) = JStr pB -> pA <> pB ->
  published w pA (epub (key cA)) -> published w pB (epub (key cB)) ->
  SEA_secret (epub (key cB)) (key cA) = SEA_secret (epub (key cA)) (key cB) ->
  memo_ok cA w -> memo_ok cB w -> onMessage cB = true ->
  (forall k, In k (Object_keys (secrets cA)) -> exists e, published w k e) ->
  In pB (Object_keys (secrets cA)) ->
  (forall k e, In k (Object_keys (secrets cA)) -> published w k e -> k <> pB ->
     channel_id (SEA_secret e (key cA)) k
     <> channel_id (SEA_secret (epub (key cB)) (key cA)) pB) ->
  opens (SEA_secret (epub (key cB)) (key cA)) (JStr (JSON_stringify (JObj f))) (JObj f) ->
  let secret := SEA_secret (epub (key cB)) (key cA) in
  let node := [pA; js "chats"; ToString (channel_id secret pB); js "msgs"] in
  let t := ToString (js_prop (JObj f) (js "time")) in
  In (ESubscribe MapOnce node (HMessageReceived pA JUndefined))
     (events (after (addPub pA cB w))) /\
  exists cA' w1 data,
    send (JObj f) cA w = Done tt cA' w1 /\
    store w1 !! (node ++ [t]) = Some data /\
    exists cB',
      messageReceived data pA JUndefined cB w1
      = Done tt cB' (log (EOnMessage (JObj f) (JObj [(js "selfAuthored", JUndefined)])) w1).
Proof.
  intros HpA HpB Hne HA HB Hagree HmA HmB Hon Hall HinB Hcoll Hopen secret node t.
  assert (HmeA : me cA = pA) by (unfold me; rewrite HpA; reflexivity).
  assert (HmeB : me cB = pB) by (unfold me; rewrite HpB; reflexivity).
  split.
  - destruct (addPub_outcome cB w pA _ HmB HA) as (cB' & E & _).
    rewrite E. cbn [after]. rewrite HpB. cbn [strict_eq].
    rewrite jsstring_eqb_neq by assumption.
    rewrite HmeB, <- Hagree. fold secret. fold node.
    cbn [events gun_subscribe log]. apply in_app_iff. left.
    apply in_app_iff. right. left. reflexivity.
  - destruct (send_seals cA w pB _ f HmA Hall HinB HB Hcoll)
      as (cA' & w1 & v & E & (n & Hv) & Em & _ & Hw1 & _).
    fold secret in Hv, Em. fold t in Em.
    exists cA', w1, v. split; [exact E|]. split.
    { unfold msgs_node in Em. rewrite HmeA in Em. exact Em. }
    assert (Es : secret_for cB w1 pA = Some secret).
    { rewrite (secret_for_same_epubs _ _ _ _ Hw1), (secret_for_memo _ _ _ _ HmB HA).
      unfold secret. rewrite Hagree. reflexivity. }
    destruct (messageReceived_outcome v pA JUndefined cB w1 secret Hon Es) as (cB' & Er & _).
    exists cB'. rewrite Er, Hv. unfold secret. rewrite (Hopen n). reflexivity.
Qed.

(** The sender hears its own message.  [addPub(B)] subscribes A to [msgs] of
    its own channel to B; [send(msg)] puts a value under that node, at the
    key [msg.time]; and [messageReceived] on that value, with the flag of
    that subscription, calls [onMessage(msg, {selfAuthored: true})]. *)
Theorem own_message_echoes (c : Chat) (w : World) (pB : jsstring) (eB : jsval)
    (f : list (jsstring * jsval)) :
  memo_ok c w -> onMessage c = true -> published w pB eB ->
  (forall k, In k (Object_keys (secrets c)) -> exists e, published w k e) ->
  In pB (Object_keys (secrets c)) ->
  (forall k e, In k (Object_keys (secrets c)) -> published w k e -> k <> pB ->
     channel_id (SEA_secret e (key c)) k <> channel_id (SEA_secret eB (key c)) pB) ->
  opens (SEA_secret eB (key c)) (JStr (JSON_stringify (JObj f))) (JObj f) ->
  let secret := SEA_secret eB (key c) in
  let node := [me c; js "chats"; ToString (channel_id secret pB); js "msgs"] in
  let t := ToString (js_prop (JObj f) (js "time")) in
  In (ESubscribe MapOnce node (HMessageReceived pB (JBool true)))
     (events (after (addPub pB c w))) /\
  exists c' w1 data,
    send (JObj f) c w = Done tt c' w1 /\
    store w1 !! (node ++ [t]) = Some data /\
    exists c'',
      messageReceived data pB (JBool true) c' w1
      = Done tt c'' (log (EOnMessage (JObj f) (JObj [(js "selfAuthored", JBool true)])) w1).
Proof.
  intros Hm Hon HB Hall HinB Hcoll Hopen secret node t.
  split.
  - destruct (addPub_outcome c w pB _ Hm HB) as (c' & E & _).
    rewrite E. cbn [after]. fold secret. fold node.
    cbn [events gun_subscribe log]. apply in_app_iff. right. left. reflexivity.
  - destruct (send_seals c w pB _ f Hm Hall HinB HB Hcoll)
      as (c' & w1 & v & E & (n & Hv) & Em & _ & Hw1 & Hc' & _).
    fold secret in Hv, Em. fold t in Em.
    exists c', w1, v. split; [exact E|]. split; [exact Em|].
    assert (Es : secret_for c' w1 pB = Some secret).
    { destruct Hc' as (_&_&Hs&_).
      rewrite (secret_for_same_epubs _ _ _ _ Hw1), Hs. apply secret_for_memo; assumption. }
    assert (Hon' : onMessage c' = true) by (destruct Hc' as (_&Ho&_); congruence).
    destruct (messageReceived_outcome v pB (JBool true) c' w1 secret Hon' Es) as (c'' & Er & _).
    exists c''. rewrite Er, Hv. unfold secret. rewrite (Hopen n). reflexivity.
Qed.

End EndToEnd.

(** Alice's chat with Bob in the second instance, and Bob's with a callback:
    the message sent at [t1] reaches Bob's callback. *)
Lemma message_reaches_peer_witness :
  let cA := with_secrets [(js "bob", JNull)] (Toy.fresh Toy.alice false) in
  let cB := Toy.fresh Toy.bob true in
  let f := [(js "time", JStr (js "t1")); (js "text", JStr (js "hello"))] in
  let secret := Toy.secret (epub Toy.bob) Toy.alice in
  let node := [js "alice"; js "chats"; ToString (@channel_id Wire.sea secret (js "bob"));
               js "msgs"] in
  In (ESubscribe MapOnce node (HMessageReceived (js "alice") JUndefined))
     (events (after (@addPub Wire.sea (js "alice") cB Toy.world0))) /\
  exists cA' w1 data,
    @send Wire.sea Wire.builtins (JObj f) cA Toy.world0 = Done tt cA' w1 /\
    store w1 !! (node ++ [js "t1"]) = Some data /\
    exists cB',
      @messageReceived Wire.sea data (js "alice") JUndefined cB w1
      = Done tt cB' (log (EOnMessage (JObj f) (JObj [(js "selfAuthored", JUndefined)])) w1).
Proof.
  intros cA cB f secret node.
  apply (@message_reaches_peer Wire.sea Wire.builtins cA cB Toy.world0 (js "alice") (js "bob") f).
  - reflexivity.
  - reflexivity.
  - vm_compute. discriminate.
  - split; [vm_compute; reflexivity|discriminate].
  - split; [vm_compute; reflexivity|discriminate].
  - vm_compute. reflexivity.
  - apply (@memo_ok_set_null Wire.sea (Toy.fresh Toy.alice false) Toy.world0 (js "bob")).
    apply memo_ok_fresh.
  - apply memo_ok_fresh.
  - reflexivity.
  - intros k Hin. vm_compute in Hin. destruct Hin as [<-|[]].
    exists (epub Toy.bob). split; [vm_compute; reflexivity|discriminate].
  - vm_compute. auto.
  - intros k e Hin _ Hne. vm_compute in Hin. destruct Hin as [<-|[]]. contradiction.
  - intros n. cbn [SEA_decrypt SEA_encrypt JSON_stringify Wire.sea Wire.builtins].
    rewrite wire_decrypt_encrypt. vm_compute. reflexivity.
Defined.

(** Alice, with a callback, hears the message she sends to Bob. *)
Lemma own_message_echoes_witness :
  let c := with_secrets [(js "bob", JNull)] (Toy.fresh Toy.alice true) in
  let f := [(js "time", JStr (js "t1")); (js "text", JStr (js "hello"))] in
  let secret := Toy.secret (epub Toy.bob) Toy.alice in
  let node := [js "alice"; js "chats"; ToString (@channel_id Wire.sea secret (js "bob"));
               js "msgs"] in
  In (ESubscribe MapOnce node (HMessageReceived (js "bob") (JBool true)))
     (events (after (@addPub Wire.sea (js "bob") c Toy.world0))) /\
  exists c' w1 data,
    @send Wire.sea Wire.builtins (JObj f) c Toy.world0 = Done tt c' w1 /\
    store w1 !! (node ++ [js "t1"]) = Some data /\
    exists c'',
      @messageReceived Wire.sea data (js "bob") (JBool true) c' w1
      = Done tt c'' (log (EOnMessage (JObj f) (JObj [(js "selfAuthored", JBool true)])) w1).
Proof.
  intros c f secret node.
  apply (@own_message_echoes Wire.sea Wire.builtins c Toy.world0 (js "bob") (epub Toy.bob) f).
  - apply (@memo_ok_set_null Wire.sea (Toy.fresh Toy.alice true) Toy.world0 (js "bob")).
    apply memo_ok_fresh.
  - reflexivity.
  - split; [vm_compute; reflexivity|discriminate].
  - intros k Hin. vm_compute in Hin. destruct Hin as [<-|[]].
    exists (epub Toy.bob). split; [vm_compute; reflexivity|discriminate].
  - vm_compute. auto.
  - intros k e Hin _ Hne. vm_compute in Hin. destruct Hin as [<-|[]]. contradiction.
  - intros n. cbn [SEA_decrypt SEA_encrypt JSON_stringify Wire.sea Wire.builtins].
    rewrite wire_decrypt_encrypt. vm_compute. reflexivity.
Defined.

(** ** The chat listing: from [addPub] to [getChats] *)

Section ListingFacts.
Context `{SEA} `{Builtins}.

(** A chat that has been added is listed.  On a store handle authenticated
    for the local key, with the peer's key published and a public key
    encrypted under the local secret decrypting to itself: after
    [addPub(pub)] the subscription of [getChats] is on the local [chats], the
    channel to the peer is a key under it with [pub] stored below, and the
    callback of [getChats] on that key (with any truthy value) calls
    [callback(pub)]. *)
Theorem added_chat_is_listed (c : Chat) (w : World) (p : jsstring) (e : jsval) :
  memo_ok c w -> published w p e -> auth w = Some (me c) ->
  opens (SEA_secret (epub (key c)) (key c)) (JStr p) (JStr p) ->
  let id := ToString (channel_id (SEA_secret e (key c)) p) in
  exists c' w',
    addPub p c w = Done tt c' w' /\
    getChats w' = [{| reg_kind := MapOn; reg_node := [me c; js "chats"];
                      reg_listener := LChats |}] /\
    is_Some (store w' !! ([me c; js "chats"] ++ [id; js "pub"])) /\
    forall value c0, truthy value = true ->
      on_chats (key c) value id c0 w' = Done (Some (JStr p)) c0 w'.
Proof.
  intros Hm Hp Hauth Hopen id.
  destruct (addPub_outcome c w p e Hm Hp) as (c' & E & _).
  cbv zeta in E.
  set (i := channel_id (SEA_secret e (key c)) p) in *.
  set (enc := JStr (SEA_encrypt (entropy w) (JStr p) (SEA_secret (epub (key c)) (key c)))) in *.
  match type of E with _ = Done tt c' ?w3 => set (w' := w3) in * end.
  assert (Hst : store w' = <[pub_node (me c) i := enc]> (store w)).
  { unfold w'. destruct (strict_eq (JStr p) (pub (key c))); reflexivity. }
  assert (Hau : auth w' = Some (me c)).
  { unfold w'. destruct (strict_eq (JStr p) (pub (key c))); exact Hauth. }
  exists c', w'. split; [exact E|]. split; [|split].
  - unfold getChats. rewrite Hau. reflexivity.
  - rewrite Hst. change ([me c; js "chats"] ++ [id; js "pub"]) with (pub_node (me c) i).
    rewrite lookup_insert_eq. eauto.
  - intros value c0 Hv. unfold on_chats. rewrite Hv.
    rewrite (bind_done world _ c0 w' w' c0 w' eq_refl). rewrite Hau.
    assert (Eg : gunOnceDefined (pub_node (me c) (JStr id)) c0 w' = Done enc c0 w').
    { unfold gunOnceDefined. change (pub_node (me c) (JStr id)) with (pub_node (me c) i).
      rewrite Hst, lookup_insert_eq. reflexivity. }
    rewrite (bind_done _ _ _ _ _ _ _ Eg). unfold enc. rewrite (Hopen (entropy w)). reflexivity.
Qed.

End ListingFacts.

(** Alice adds Bob; her listing names Bob. *)
Lemma added_chat_is_listed_witness :
  let c := Toy.fresh Toy.alice false in
  let w := with_auth (Some (js "alice")) Toy.world0 in
  let id := ToString (@channel_id Wire.sea (Toy.secret (epub Toy.bob) Toy.alice) (js "bob")) in
  exists c' w',
    @addPub Wire.sea (js "bob") c w = Done tt c' w' /\
    getChats w' = [{| reg_kind := MapOn; reg_node := [js "alice"; js "chats"];
                      reg_listener := LChats |}] /\
    is_Some (store w' !! ([js "alice"; js "chats"] ++ [id; js "pub"])) /\
    forall value c0, truthy value = true ->
      @on_chats Wire.sea Toy.alice value id c0 w' = Done (Some (JStr (js "bob"))) c0 w'.
Proof.
  intros c w id.
  apply (@added_chat_is_listed Wire.sea c w (js "bob") (epub Toy.bob)).
  - apply memo_ok_fresh.
  - split; [vm_compute; reflexivity|discriminate].
  - reflexivity.
  - intros n. cbn [SEA_decrypt SEA_encrypt Wire.sea].
    rewrite wire_decrypt_encrypt. vm_compute. reflexivity.
Defined.

(** ** The latest message: from [send] to [getLatestMsg] *)

Section LatestMsg.
Context `{SEA} `{Builtins}.

Lemma for_each_collect_cons {K A} (k : K) ks (body : K -> M A) c w :
  for_each_collect (k :: ks) body c w =
  match body k c w with
  | Done a c' w' =>
      match for_each_collect ks body c' w' with
      | Done l c'' w'' => Done (a :: l) c'' w''
      | Hang c'' w'' => Hang c'' w''
      | Throw c'' w'' => Throw c'' w''
      end
  | Hang c' w' => Hang c' w'
  | Throw c' w' => Throw c' w'
  end.
Proof. reflexivity. Qed.

Lemma Forall2_In_left {A B} (P : A -> B -> Prop) l l' x :
  Forall2 P l l' -> In x l -> exists y, In y l' /\ P x y.
Proof.
  induction 1 as [|a b l l' Hab _ IH]; cbn; [contradiction|].
  intros [<-|Hin]; [eauto|]. destruct (IH Hin) as (y & ? & ?). eauto.
Qed.

(** The loop of [getLatestMsg] over participants whose id can be derived: one
    subscription each, in order, on [latestMsg] of the participant's
    channel. *)
Lemma getLatestMsg_loop ks : forall c w,
  (forall k, In k ks -> is_Some (id_for c w k)) ->
  exists c' regs,
    for_each_collect ks getLatestMsg_for c w = Done regs c' w /\
    caches_agree w c c' /\
    Forall2 (fun k r => exists i, id_for c w k = Some i /\
               r = {| reg_kind := On; reg_node := latestMsg_node c i;
                      reg_listener := LLatestMsg k |}) ks regs.
Proof.
  induction ks as [|k ks IH]; intros c w Hks.
  - exists c, []. split; [reflexivity|]. split; [apply caches_agree_refl|constructor].
  - destruct (Hks k (or_introl eq_refl)) as (i & Ei).
    pose proof (getOurSecretChatId_outcome c w k) as Hg. rewrite Ei in Hg.
    destruct Hg as (c1 & E1 & Hc1 & _).
    assert (Hme : me c1 = me c) by (eapply caches_agree_me, Hc1).
    destruct (IH c1 w) as (c2 & regs & E2 & Hc2 & Hregs).
    { intros k' Hin'. destruct Hc1 as (_&_&_&Hi). rewrite Hi. apply Hks. right. exact Hin'. }
    exists c2, ({| reg_kind := On; reg_node := latestMsg_node c i;
                   reg_listener := LLatestMsg k |} :: regs).
    split; [|split].
    + rewrite for_each_collect_cons. unfold getLatestMsg_for at 1.
      rewrite (bind_done _ _ _ _ _ _ _ E1).
      rewrite (bind_done this _ c1 w c1 c1 w eq_refl). unfold ret at 1.
      rewrite E2. rewrite (latestMsg_node_eq c c1 i i Hme eq_refl). reflexivity.
    + eapply caches_agree_trans; eassumption.
    + constructor; [eauto|].
      eapply Forall2_impl; [exact Hregs|].
      intros k' r (i' & Ei' & ->). exists i'.
      destruct Hc1 as (_&_&_&Hi). rewrite Hi in Ei'.
      rewrite (latestMsg_node_eq c c1 i' i' Hme eq_refl). auto.
Qed.

(** The latest message is listed.  Under the conditions of the delivery to
    the peer's channel: after [send(msg)], [getLatestMsg] on the same Chat
    returns having made one subscription for each participant, the one for
    [pB] on [latestMsg] of the channel to [pB]; that node holds a value; and
    the callback of the subscription on that value calls
    [callback(msg, {})]. *)
Theorem latest_message_is_listed (c : Chat) (w : World) (pB : jsstring) (eB : jsval)
    (f : list (jsstring * jsval)) :
  memo_ok c w -> published w pB eB ->
  (forall k, In k (Object_keys (secrets c)) -> exists e, published w k e) ->
  In pB (Object_keys (secrets c)) ->
  (forall k e, In k (Object_keys (secrets c)) -> published w k e -> k <> pB ->
     channel_id (SEA_secret e (key c)) k <> channel_id (SEA_secret eB (key c)) pB) ->
  opens (SEA_secret eB (key c)) (JStr (JSON_stringify (JObj f))) (JObj f) ->
  let node := latestMsg_node c (channel_id (SEA_secret eB (key c)) pB) in
  exists c' w1 data,
    send (JObj f) c w = Done tt c' w1 /\
    (exists c'' regs,
       getLatestMsg c' w1 = Done regs c'' w1 /\
       length regs = length (Object_keys (secrets c)) /\
       In {| reg_kind := On; reg_node := node; reg_listener := LLatestMsg pB |} regs) /\
    store w1 !! node = Some data /\
    exists c'', on_latestMsg pB data c' w1 = Done (Some (JObj f, JObj [])) c'' w1.
Proof.
  intros Hm HB Hall HinB Hcoll Hopen node.
  destruct (send_seals c w pB _ f Hm Hall HinB HB Hcoll)
    as (c' & w1 & v & E & (n & Hv) & _ & El & Hw1 & Hc' & Hkeys).
  fold node in El.
  assert (Hme : me c' = me c) by (eapply caches_agree_me, Hc').
  assert (Hid : forall k, id_for c' w1 k = id_for c w k).
  { intros k. destruct Hc' as (_&_&_&Hi). rewrite (id_for_same_epubs _ _ _ _ Hw1). apply Hi. }
  exists c', w1, v. split; [exact E|]. split; [|split; [exact El|]].
  - destruct (getLatestMsg_loop (Object_keys (secrets c')) c' w1) as (c'' & regs & Eg & _ & Hregs).
    { intros k Hin. rewrite (Object_keys_same _ _ Hkeys) in Hin.
      destruct (Hall k Hin) as (e & He). rewrite Hid, (id_for_memo _ _ _ _ Hm He). eauto. }
    exists c'', regs. split; [|split].
    + unfold getLatestMsg. rewrite (bind_done this _ c' w1 c' c' w1 eq_refl). exact Eg.
    + rewrite <- (Forall2_length _ _ _ Hregs), (Object_keys_same _ _ Hkeys). reflexivity.
    + rewrite <- (Object_keys_same _ _ Hkeys) in HinB.
      destruct (Forall2_In_left _ _ _ _ Hregs HinB) as (r & Hr & i & Ei & ->).
      rewrite Hid, (id_for_memo _ _ _ _ Hm HB) in Ei. injection Ei as <-.
      unfold node.
      rewrite <- (latestMsg_node_eq c c' _ _ Hme eq_refl). exact Hr.
  - assert (Es : secret_for c' w1 pB = Some (SEA_secret eB (key c))).
    { destruct Hc' as (_&_&Hs&_).
      rewrite (secret_for_same_epubs _ _ _ _ Hw1), Hs. apply secret_for_memo; assumption. }
    pose proof (getSecret_outcome c' w1 pB) as Hg. rewrite Es in Hg.
    destruct Hg as (c'' & Eg & _).
    exists c''. unfold on_latestMsg. rewrite (bind_done _ _ _ _ _ _ _ Eg).
    rewrite Hv, (Hopen n). reflexivity.
Qed.

End LatestMsg.

(** Alice's chat with Bob: the message sent is the one listed as latest. *)
Lemma latest_message_is_listed_witness :
  let c := with_secrets [(js "bob", JNull)] (Toy.fresh Toy.alice false) in
  let f := [(js "time", JStr (js "t1")); (js "text", JStr (js "hello"))] in
  let node := latestMsg_node c
                (@channel_id Wire.sea (Toy.secret (epub Toy.bob) Toy.alice) (js "bob")) in
  exists c' w1 data,
    @send Wire.sea Wire.builtins (JObj f) c Toy.world0 = Done tt c' w1 /\
    (exists c'' regs,
       @getLatestMsg Wire.sea c' w1 = Done regs c'' w1 /\
       length regs = length (Object_keys (secrets c)) /\
       In {| reg_kind := On; reg_node := node; reg_listener := LLatestMsg (js "bob") |} regs) /\
    store w1 !! node = Some data /\
    exists c'', @on_latestMsg Wire.sea (js "bob") data c' w1
                = Done (Some (JObj f, JObj [])) c'' w1.
Proof.
  intros c f node.
  apply (@latest_message_is_listed Wire.sea Wire.builtins c Toy.world0 (js "bob")
           (epub Toy.bob) f).
  - apply (@memo_ok_set_null Wire.sea (Toy.fresh Toy.alice false) Toy.world0 (js "bob")).
    apply memo_ok_fresh.
  - split; [vm_compute; reflexivity|discriminate].
  - intros k Hin. vm_compute in Hin. destruct Hin as [<-|[]].
    exists (epub Toy.bob). split; [vm_compute; reflexivity|discriminate].
  - vm_compute. auto.
  - intros k e Hin _ Hne. vm_compute in Hin. destruct Hin as [<-|[]]. contradiction.
  - intros n. cbn [SEA_decrypt SEA_encrypt JSON_stringify Wire.sea Wire.builtins].
    rewrite wire_decrypt_encrypt. vm_compute. reflexivity.
Defined.

(** ** The last seen time *)

Section LastSeen.
Context `{SEA} `{Builtins}.

Lemma msgsLastSeenTime_node_inv u i i' :
  msgsLastSeenTime_node u i = msgsLastSeenTime_node u i' -> ToString i = ToString i'.
Proof. unfold msgsLastSeenTime_node. intros E. injection E. auto. Qed.

(** One round of the loop of [setMyMsgsLastSeenTime]: the time, encrypted
    under the participant's secret with fresh randomness, goes to
    [msgsLastSeenTime] of the channel. *)
Lemma setMyMsgsLastSeenTime_for_outcome c w k time s i :
  secret_for c w k = Some s -> id_for c w k = Some i ->
  let enc := JStr (SEA_encrypt (entropy w) time s) in
  exists c',
    setMyMsgsLastSeenTime_for time k c w =
      Done tt c' (gun_put (msgsLastSeenTime_node (me c) i) enc
                    (with_entropy (S (entropy w)) w)) /\
    caches_agree w c c' /\
    (In k (List.map fst (secrets c)) -> List.map fst (secrets c') = List.map fst (secrets c)).
Proof.
  intros Es Ei enc.
  pose proof (getSecret_outcome c w k) as Hg. rewrite Es in Hg.
  destruct Hg as (c1 & E1 & Hc1 & _ & Hk1).
  set (w1 := with_entropy (S (entropy w)) w).
  assert (Hw1 : same_epubs w w1) by (intros q; reflexivity).
  pose proof (getOurSecretChatId_outcome c1 w1 k) as Hg.
  assert (Ei1 : id_for c1 w1 k = Some i).
  { rewrite (id_for_same_epubs _ _ _ _ Hw1). destruct Hc1 as (_&_&_&Hi). rewrite Hi. exact Ei. }
  rewrite Ei1 in Hg. destruct Hg as (c2 & E2 & Hc2 & Hk2).
  assert (Hme : me c2 = me c).
  { rewrite (caches_agree_me _ _ _ Hc2). apply (caches_agree_me _ _ _ Hc1). }
  exists c2. split; [|split].
  - unfold setMyMsgsLastSeenTime_for.
    rewrite (bind_done _ _ _ _ _ _ _ E1).
    erewrite (bind_done (encrypt time s)) by reflexivity. fold w1.
    rewrite (bind_done _ _ _ _ _ _ _ E2).
    rewrite (bind_done this _ c2 w1 c2 c2 w1 eq_refl).
    rewrite Hme. reflexivity.
  - eapply caches_agree_trans; [exact Hc1|].
    eapply caches_agree_same_epubs; [|exact Hc2]. intros q. reflexivity.
  - intros Hin. rewrite Hk2; [auto|]. rewrite Hk1; assumption.
Qed.

(** The loop of [setMyMsgsLastSeenTime] and one channel [i0], as for
    [send]; and the loop changes no node but [msgsLastSeenTime] of
    channels. *)
Lemma setMyMsgsLastSeenTime_loop time ks : forall c w k0 s0 i0,
  (forall k, In k ks -> In k (List.map fst (secrets c)) /\ is_Some (secret_for c w k)) ->
  (In k0 ks /\ id_for c w k0 = Some i0 /\ secret_for c w k0 = Some s0) \/
  (exists n, store w !! msgsLastSeenTime_node (me c) i0 = Some (JStr (SEA_encrypt n time s0))) ->
  (forall k i, In k ks -> id_for c w k = Some i -> ToString i = ToString i0 ->
               secret_for c w k = Some s0) ->
  exists c' w' n,
    for_each ks (setMyMsgsLastSeenTime_for time) c w = Done tt c' w' /\
    store w' !! msgsLastSeenTime_node (me c) i0 = Some (JStr (SEA_encrypt n time s0)) /\
    (forall p, (forall i, p <> msgsLastSeenTime_node (me c) i) -> store w' !! p = store w !! p) /\
    caches_agree w c c' /\
    List.map fst (secrets c') = List.map fst (secrets c).
Proof.
  induction ks as [|k ks IH]; intros c w k0 s0 i0 Hks Hstart Hshare.
  - destruct Hstart as [([] & _)|(n & En)].
    exists c, w, n. split; [reflexivity|]. split; [exact En|].
    split; [reflexivity|]. split; [apply caches_agree_refl|reflexivity].
  - destruct (Hks k (or_introl eq_refl)) as (Hin & s & Es).
    destruct (id_for_of_secret _ _ _ _ Es) as (i & Ei).
    destruct (setMyMsgsLastSeenTime_for_outcome c w k time s i Es Ei) as (c1 & E1 & Hc1 & Hk1).
    specialize (Hk1 Hin).
    set (enc := JStr (SEA_encrypt (entropy w) time s)) in *.
    set (w1 := gun_put (msgsLastSeenTime_node (me c) i) enc (with_entropy (S (entropy w)) w)) in *.
    assert (Hst1 : store w1 = <[msgsLastSeenTime_node (me c) i := enc]> (store w)) by reflexivity.
    assert (Hw1 : same_epubs w w1).
    { intros q. rewrite Hst1. unfold msgsLastSeenTime_node.
      rewrite lookup_insert_ne by discriminate. reflexivity. }
    assert (Hme : me c1 = me c) by (eapply caches_agree_me, Hc1).
    assert (Hsec : forall k', secret_for c1 w1 k' = secret_for c w k').
    { intros k'. destruct Hc1 as (_&_&Hs&_).
      rewrite (secret_for_same_epubs _ _ _ _ Hw1). apply Hs. }
    assert (Hid : forall k', id_for c1 w1 k' = id_for c w k').
    { intros k'. destruct Hc1 as (_&_&_&Hi).
      rewrite (id_for_same_epubs _ _ _ _ Hw1). apply Hi. }
    destruct (IH c1 w1 k0 s0 i0) as (c2 & w2 & n & E2 & En & Hfr & Hc2 & Hk2).
    + intros k' Hin'. rewrite Hk1, Hsec. apply Hks. right. exact Hin'.
    + rewrite Hme, Hid, Hsec, Hst1.
      destruct (decide (ToString i = ToString i0)) as [Esame|Hdiff].
      * right. exists (entropy w).
        assert (Es0 := Hshare k i (or_introl eq_refl) Ei Esame).
        assert (s = s0) by congruence. subst s.
        replace (msgsLastSeenTime_node (me c) i0) with (msgsLastSeenTime_node (me c) i)
          by (unfold msgsLastSeenTime_node; rewrite Esame; reflexivity).
        rewrite lookup_insert_eq. reflexivity.
      * destruct Hstart as [([<-|Hin0] & Ei0 & Es0)|(n & En)].
        -- exfalso. apply Hdiff. congruence.
        -- left. auto.
        -- right. exists n.
           rewrite lookup_insert_ne
             by (intros E; apply msgsLastSeenTime_node_inv in E; auto).
           exact En.
    + intros k' i' Hin' Ei' Esame. rewrite Hid in Ei'. rewrite Hsec.
      apply (Hshare k' i'); [right; exact Hin'|exact Ei'|exact Esame].
    + exists c2, w2, n. rewrite for_each_cons, E1. rewrite Hme in En, Hfr.
      split; [exact E2|]. split; [exact En|]. split.
      * intros p Hp. rewrite (Hfr p Hp), Hst1.
        rewrite lookup_insert_ne by (apply not_eq_sym, Hp). reflexivity.
      * split; [|congruence].
        eapply caches_agree_trans; [exact Hc1|].
        eapply caches_agree_same_epubs; [|exact Hc2]. intros q. symmetry. apply Hw1.
Qed.

(** [setMyMsgsLastSeenTime], seen from the channel to [pB]. *)
Lemma setMyMsgsLastSeenTime_seals c w pB eB time :
  memo_ok c w ->
  (forall k, In k (Object_keys (secrets c)) -> exists e, published w k e) ->
  In pB (Object_keys (secrets c)) -> published w pB eB ->
  (forall k e, In k (Object_keys (secrets c)) -> published w k e -> k <> pB ->
     channel_id (SEA_secret e (key c)) k <> channel_id (SEA_secret eB (key c)) pB) ->
  let secret := SEA_secret eB (key c) in
  let i := channel_id secret pB in
  exists c' w1 n,
    setMyMsgsLastSeenTime time c w = Done tt c' w1 /\
    store w1 !! msgsLastSeenTime_node (me c) i
      = Some (JStr (SEA_encrypt n (time_or_now time w) secret)) /\
    (forall p, (forall i, p <> msgsLastSeenTime_node (me c) i) -> store w1 !! p = store w !! p) /\
    caches_agree w c c' /\
    List.map fst (secrets c') = List.map fst (secrets c).
Proof.
  intros Hm Hall HinB HB Hcoll secret i.
  destruct (setMyMsgsLastSeenTime_loop (time_or_now time w) (Object_keys (secrets c))
              c w pB secret i) as (c' & w1 & n & E & En & Hfr & Hc').
  - intros k Hin. split; [apply Object_keys_In, Hin|].
    destruct (Hall k Hin) as (e & He). eapply secret_for_published, He.
  - left. split; [exact HinB|].
    split; [apply id_for_memo|apply secret_for_memo]; assumption.
  - intros k i' Hin Ei' Esame.
    destruct (Hall k Hin) as (e & He).
    rewrite (id_for_memo _ _ _ _ Hm He) in Ei'. injection Ei' as <-.
    destruct (decide (k = pB)) as [->|Hne].
    + rewrite (secret_for_memo _ _ _ _ Hm He).
      rewrite (published_functional _ _ _ _ He HB). reflexivity.
    + exfalso. apply (Hcoll k e Hin He Hne).
      unfold i, secret, channel_id in *. cbn [ToString] in Esame. rewrite Esame. reflexivity.
  - exists c', w1, n. split; [|auto].
    unfold setMyMsgsLastSeenTime.
    rewrite (bind_done this _ c w c c w eq_refl).
    rewrite (bind_done world _ c w w c w eq_refl). exact E.
Qed.

Lemma same_epubs_frame w w' (u : jsstring) :
  (forall p, (forall i, p <> msgsLastSeenTime_node u i) -> store w' !! p = store w !! p) ->
  same_epubs w w'.
Proof. intros Hfr k. apply Hfr. intros i. unfold msgsLastSeenTime_node. discriminate. Qed.

(** The loop of [getMyMsgsLastSeenTime]: one subscription for each
    participant, on [msgsLastSeenTime] of its channel. *)
Lemma getMyMsgsLastSeenTime_loop ks : forall c w,
  (forall k, In k ks -> is_Some (id_for c w k)) ->
  exists c' regs,
    for_each_collect ks getMyMsgsLastSeenTime_for c w = Done regs c' w /\
    Forall2 (fun k r => exists i, id_for c w k = Some i /\
               r = {| reg_kind := On; reg_node := msgsLastSeenTime_node (me c) i;
                      reg_listener := LMyMsgsLastSeenTime k |}) ks regs.
Proof.
  induction ks as [|k ks IH]; intros c w Hks.
  - exists c, []. split; [reflexivity|constructor].
  - destruct (Hks k (or_introl eq_refl)) as (i & Ei).
    pose proof (getOurSecretChatId_outcome c w k) as Hg. rewrite Ei in Hg.
    destruct Hg as (c1 & E1 & Hc1 & _).
    assert (Hme : me c1 = me c) by (eapply caches_agree_me, Hc1).
    destruct (IH c1 w) as (c2 & regs & E2 & Hregs).
    { intros k' Hin'. destruct Hc1 as (_&_&_&Hi). rewrite Hi. apply Hks. right. exact Hin'. }
    exists c2, ({| reg_kind := On; reg_node := msgsLastSeenTime_node (me c) i;
                   reg_listener := LMyMsgsLastSeenTime k |} :: regs).
    split.
    + rewrite for_each_collect_cons. unfold getMyMsgsLastSeenTime_for at 1.
      rewrite (bind_done _ _ _ _ _ _ _ E1).
      rewrite (bind_done this _ c1 w c1 c1 w eq_refl). unfold ret at 1.
      rewrite E2, Hme. reflexivity.
    + constructor; [eauto|].
      eapply Forall2_impl; [exact Hregs|].
      intros k' r (i' & Ei' & ->). exists i'.
      destruct Hc1 as (_&_&_&Hi). rewrite Hi in Ei'. rewrite Hme. auto.
Qed.

(** The loop of [getTheirMsgsLastSeenTime]: one subscription for each
    participant, on [msgsLastSeenTime] of the participant's channel to us. *)
Lemma getTheirMsgsLastSeenTime_loop ks : forall c w,
  memo_ok c w -> (forall k, In k ks -> exists e, published w k e) ->
  exists c' regs,
    for_each_collect ks getTheirMsgsLastSeenTime_for c w = Done regs c' w /\
    Forall2 (fun k r => exists e, published w k e /\
               r = {| reg_kind := On;
                      reg_node := msgsLastSeenTime_node k
                                    (channel_id (SEA_secret e (key c)) (me c));
                      reg_listener := LTheirMsgsLastSeenTime k |}) ks regs.
Proof.
  induction ks as [|k ks IH]; intros c w Hm Hks.
  - exists c, []. split; [reflexivity|constructor].
  - destruct (Hks k (or_introl eq_refl)) as (e & He).
    destruct (getTheirSecretChatId_spec c w k e Hm He) as (c1 & E1 & Hm1 & Hk1 & _).
    assert (Hme : me c1 = me c) by (unfold me; rewrite Hk1; reflexivity).
    destruct (IH c1 w Hm1) as (c2 & regs & E2 & Hregs).
    { intros k' Hin'. apply Hks. right. exact Hin'. }
    eexists c2, (_ :: regs). split.
    + rewrite for_each_collect_cons. unfold getTheirMsgsLastSeenTime_for at 1.
      rewrite (bind_done _ _ _ _ _ _ _ E1). unfold ret at 1. rewrite E2. reflexivity.
    + constructor; [eauto|].
      eapply Forall2_impl; [exact Hregs|].
      intros k' r (e' & He' & ->). exists e'. rewrite Hk1, Hme. auto.
Qed.

End LastSeen.

Section LastSeenFacts.
Context `{SEA} `{Builtins}.

(** The peer sees when its messages were last seen.  For A and B as in the
    delivery of a message, B having A among its participants, all with
    published keys: A's [setMyMsgsLastSeenTime(time)] returns and leaves a
    value at [msgsLastSeenTime] of A's channel to B; B's
    [getTheirMsgsLastSeenTime] subscribes to that very node; and the callback
    of that subscription on that value assigns the time ([time], or the
    current ISO time when [time] is falsy) to [theirMsgsLastSeenTime] and
    passes it to the user's callback, if there is one, together with A's
    key. *)
Theorem seen_time_reaches_peer (cA cB : Chat) (w : World) (pA pB : jsstring) (time : jsval) :
  pub (key cA) = JStr pA -> pub (key cB) = JStr pB ->
  published w pA (epub (key cA)) -> published w pB (epub (key cB)) ->
  SEA_secret (epub (key cB)) (key cA) = SEA_secret (epub (key cA)) (key cB) ->
  memo_ok cA w -> memo_ok cB w ->
  (forall k, In k (Object_keys (secrets cA)) -> exists e, published w k e) ->
  (forall k, In k (Object_keys (secrets cB)) -> exists e, published w k e) ->
  In pB (Object_keys (secrets cA)) -> In pA (Object_keys (secrets cB)) ->
  (forall k e, In k (Object_keys (secrets cA)) -> published w k e -> k <> pB ->
     channel_id (SEA_secret e (key cA)) k
     <> channel_id (SEA_secret (epub (key cB)) (key cA)) pB) ->
  opens (SEA_secret (epub (key cB)) (key cA)) (time_or_now time w) (time_or_now time w) ->
  let secret := SEA_secret (epub (key cB)) (key cA) in
  let node := msgsLastSeenTime_node pA (channel_id secret pB) in
  let seen := time_or_now time w in
  exists cA' w1 data,
    setMyMsgsLastSeenTime time cA w = Done tt cA' w1 /\
    store w1 !! node = Some data /\
    (exists cB' regs,
       getTheirMsgsLastSeenTime cB w1 = Done regs cB' w1 /\
       In {| reg_kind := On; reg_node := node; reg_listener := LTheirMsgsLastSeenTime pA |}
          regs) /\
    forall callback, exists cB',
      on_theirMsgsLastSeenTime callback pA data cB w1
      = Done (seen, if callback then Some (seen, pA) else None) cB' w1.
Proof.
  intros HpA HpB HA HB Hagree HmA HmB HallA HallB HinB HinA Hcoll Hopen secret node seen.
  assert (HmeA : me cA = pA) by (unfold me; rewrite HpA; reflexivity).
  assert (HmeB : me cB = pB) by (unfold me; rewrite HpB; reflexivity).
  destruct (setMyMsgsLastSeenTime_seals cA w pB _ time HmA HallA HinB HB Hcoll)
    as (cA' & w1 & n & E & En & Hfr & _).
  rewrite HmeA in En, Hfr. fold secret in En. fold node in En. fold seen in En.
  assert (Hw1 : same_epubs w w1) by (eapply same_epubs_frame, Hfr).
  assert (HmB1 : memo_ok cB w1) by (eapply memo_ok_same_epubs; eassumption).
  exists cA', w1, (JStr (SEA_encrypt n seen secret)).
  split; [exact E|]. split; [exact En|]. split.
  - destruct (getTheirMsgsLastSeenTime_loop (Object_keys (secrets cB)) cB w1 HmB1)
      as (cB' & regs & Eg & Hregs).
    { intros k Hin. destruct (HallB k Hin) as (e & He).
      exists e. eapply published_same_epubs; eassumption. }
    exists cB', regs. split.
    + unfold getTheirMsgsLastSeenTime.
      rewrite (bind_done this _ cB w1 cB cB w1 eq_refl). exact Eg.
    + destruct (Forall2_In_left _ _ _ _ Hregs HinA) as (r & Hr & e & He & ->).
      assert (e = epub (key cA)).
      { eapply published_functional; [exact He|]. eapply published_same_epubs; eassumption. }
      subst e. rewrite <- Hagree, HmeB in Hr. exact Hr.
  - intros callback.
    assert (Es : secret_for cB w1 pA = Some secret).
    { rewrite (secret_for_same_epubs _ _ _ _ Hw1), (secret_for_memo _ _ _ _ HmB HA).
      unfold secret. rewrite Hagree. reflexivity. }
    pose proof (getSecret_outcome cB w1 pA) as Hg. rewrite Es in Hg.
    destruct Hg as (cB' & Eg & _).
    exists cB'. unfold on_theirMsgsLastSeenTime.
    rewrite (bind_done _ _ _ _ _ _ _ Eg). unfold secret, seen. rewrite (Hopen n). reflexivity.
Qed.

(** The last seen time is kept, and nothing else is touched.  On a Chat
    whose participants have published keys, [setMyMsgsLastSeenTime(time)]
    returns; it changes no node of the store but [msgsLastSeenTime] of the
    local channels (no message, no [latestMsg], no key); afterwards
    [getMyMsgsLastSeenTime] subscribes, for the participant [pB], to a node
    that holds a value, and the callback of the subscription on that value
    assigns the time ([time], or the current ISO time when [time] is falsy)
    to [myMsgsLastSeenTime] and passes it to the user's callback, if there is
    one. *)
Theorem seen_time_is_kept (c : Chat) (w : World) (pB : jsstring) (eB : jsval) (time : jsval) :
  memo_ok c w -> published w pB eB ->
  (forall k, In k (Object_keys (secrets c)) -> exists e, published w k e) ->
  In pB (Object_keys (secrets c)) ->
  (forall k e, In k (Object_keys (secrets c)) -> published w k e -> k <> pB ->
     channel_id (SEA_secret e (key c)) k <> channel_id (SEA_secret eB (key c)) pB) ->
  opens (SEA_secret eB (key c)) (time_or_now time w) (time_or_now time w) ->
  let node := msgsLastSeenTime_node (me c) (channel_id (SEA_secret eB (key c)) pB) in
  let seen := time_or_now time w in
  exists c' w1 data,
    setMyMsgsLastSeenTime time c w = Done tt c' w1 /\
    (forall p, (forall i, p <> msgsLastSeenTime_node (me c) i) -> store w1 !! p = store w !! p) /\
    store w1 !! node = Some data /\
    (exists c'' regs,
       getMyMsgsLastSeenTime c' w1 = Done regs c'' w1 /\
       In {| reg_kind := On; reg_node := node; reg_listener := LMyMsgsLastSeenTime pB |} regs) /\
    forall callback, exists c'',
      on_myMsgsLastSeenTime callback pB data c' w1
      = Done (seen, if callback then Some seen else None) c'' w1.
Proof.
  intros Hm HB Hall HinB Hcoll Hopen node seen.
  destruct (setMyMsgsLastSeenTime_seals c w pB _ time Hm Hall HinB HB Hcoll)
    as (c' & w1 & n & E & En & Hfr & Hc' & Hkeys).
  fold node in En. fold seen in En.
  assert (Hw1 : same_epubs w w1) by (eapply same_epubs_frame, Hfr).
  assert (Hme : me c' = me c) by (eapply caches_agree_me, Hc').
  assert (Hid : forall k, id_for c' w1 k = id_for c w k).
  { intros k. destruct Hc' as (_&_&_&Hi). rewrite (id_for_same_epubs _ _ _ _ Hw1). apply Hi. }
  exists c', w1, (JStr (SEA_encrypt n seen (SEA_secret eB (key c)))).
  split; [exact E|]. split; [exact Hfr|]. split; [exact En|]. split.
  - destruct (getMyMsgsLastSeenTime_loop (Object_keys (secrets c')) c' w1)
      as (c'' & regs & Eg & Hregs).
    { intros k Hin. rewrite (Object_keys_same _ _ Hkeys) in Hin.
      destruct (Hall k Hin) as (e & He). rewrite Hid, (id_for_memo _ _ _ _ Hm He). eauto. }
    exists c'', regs. split.
    + unfold getMyMsgsLastSeenTime.
      rewrite (bind_done this _ c' w1 c' c' w1 eq_refl). exact Eg.
    + rewrite <- (Object_keys_same _ _ Hkeys) in HinB.
      destruct (Forall2_In_left _ _ _ _ Hregs HinB) as (r & Hr & i & Ei & ->).
      rewrite Hid, (id_for_memo _ _ _ _ Hm HB) in Ei. injection Ei as <-.
      rewrite Hme in Hr. exact Hr.
  - intros callback.
    assert (Es : secret_for c' w1 pB = Some (SEA_secret eB (key c))).
    { destruct Hc' as (_&_&Hs&_).
      rewrite (secret_for_same_epubs _ _ _ _ Hw1), Hs. apply secret_for_memo; assumption. }
    pose proof (getSecret_outcome c' w1 pB) as Hg. rewrite Es in Hg.
    destruct Hg as (c'' & Eg & _).
    exists c''. unfold on_myMsgsLastSeenTime.
    rewrite (bind_done _ _ _ _ _ _ _ Eg). unfold seen. rewrite (Hopen n). reflexivity.
Qed.

End LastSeenFacts.

(** Alice marks Bob's messages as seen, giving no time: Bob's callback gets
    the ISO text of the clock, [1500] in the second instance. *)
Lemma seen_time_reaches_peer_witness :
  let cA := with_secrets [(js "bob", JNull)] (Toy.fresh Toy.alice false) in
  let cB := with_secrets [(js "alice", JNull)] (Toy.fresh Toy.bob false) in
  let secret := Toy.secret (epub Toy.bob) Toy.alice in
  let node := msgsLastSeenTime_node (js "alice") (@channel_id Wire.sea secret (js "bob")) in
  let seen := JStr (js "1500") in
  exists cA' w1 data,
    @setMyMsgsLastSeenTime Wire.sea Wire.builtins JUndefined cA Toy.world0 = Done tt cA' w1 /\
    store w1 !! node = Some data /\
    (exists cB' regs,
       @getTheirMsgsLastSeenTime Wire.sea cB w1 = Done regs cB' w1 /\
       In {| reg_kind := On; reg_node := node;
             reg_listener := LTheirMsgsLastSeenTime (js "alice") |} regs) /\
    forall callback, exists cB',
      @on_theirMsgsLastSeenTime Wire.sea callback (js "alice") data cB w1
      = Done (seen, if callback then Some (seen, js "alice") else None) cB' w1.
Proof.
  intros cA cB secret node seen.
  apply (@seen_time_reaches_peer Wire.sea Wire.builtins cA cB Toy.world0
           (js "alice") (js "bob") JUndefined).
  - reflexivity.
  - reflexivity.
  - split; [vm_compute; reflexivity|discriminate].
  - split; [vm_compute; reflexivity|discriminate].
  - vm_compute. reflexivity.
  - apply (@memo_ok_set_null Wire.sea (Toy.fresh Toy.alice false) Toy.world0 (js "bob")).
    apply memo_ok_fresh.
  - apply (@memo_ok_set_null Wire.sea (Toy.fresh Toy.bob false) Toy.world0 (js "alice")).
    apply memo_ok_fresh.
  - intros k Hin. vm_compute in Hin. destruct Hin as [<-|[]].
    exists (epub Toy.bob). split; [vm_compute; reflexivity|discriminate].
  - intros k Hin. vm_compute in Hin. destruct Hin as [<-|[]].
    exists (epub Toy.alice). split; [vm_compute; reflexivity|discriminate].
  - vm_compute. auto.
  - vm_compute. auto.
  - intros k e Hin _ Hne. vm_compute in Hin. destruct Hin as [<-|[]]. contradiction.
  - intros n.
    change (Wire.decrypt (JStr (Wire.encrypt n (JStr (js "1500")) secret)) secret
            = JStr (js "1500")).
    rewrite wire_decrypt_encrypt. vm_compute. reflexivity.
Defined.

(** Alice marks Bob's messages as seen at a time she gives, and reads it
    back. *)
Lemma seen_time_is_kept_witness :
  let c := with_secrets [(js "bob", JNull)] (Toy.fresh Toy.alice false) in
  let secret := Toy.secret (epub Toy.bob) Toy.alice in
  let node := msgsLastSeenTime_node (js "alice") (@channel_id Wire.sea secret (js "bob")) in
  let seen := JStr (js "2020-01-01T00:00:00.000Z") in
  exists c' w1 data,
    @setMyMsgsLastSeenTime Wire.sea Wire.builtins seen c Toy.world0 = Done tt c' w1 /\
    (forall p, (forall i, p <> msgsLastSeenTime_node (js "alice") i) ->
               store w1 !! p = store Toy.world0 !! p) /\
    store w1 !! node = Some data /\
    (exists c'' regs,
       @getMyMsgsLastSeenTime Wire.sea c' w1 = Done regs c'' w1 /\
       In {| reg_kind := On; reg_node := node;
             reg_listener := LMyMsgsLastSeenTime (js "bob") |} regs) /\
    forall callback, exists c'',
      @on_myMsgsLastSeenTime Wire.sea callback (js "bob") data c' w1
      = Done (seen, if callback then Some seen else None) c'' w1.
Proof.
  intros c secret node seen.
  apply (@seen_time_is_kept Wire.sea Wire.builtins c Toy.world0 (js "bob") (epub Toy.bob) seen).
  - apply (@memo_ok_set_null Wire.sea (Toy.fresh Toy.alice false) Toy.world0 (js "bob")).
    apply memo_ok_fresh.
  - split; [vm_compute; reflexivity|discriminate].
  - intros k Hin. vm_compute in Hin. destruct Hin as [<-|[]].
    exists (epub Toy.bob). split; [vm_compute; reflexivity|discriminate].
  - vm_compute. auto.
  - intros k e Hin _ Hne. vm_compute in Hin. destruct Hin as [<-|[]]. contradiction.
  - intros n.
    change (Wire.decrypt (JStr (Wire.encrypt n seen secret)) secret = seen).
    unfold seen. rewrite wire_decrypt_encrypt. vm_compute. reflexivity.
Defined.

(** ** Housekeeping: [initUser], [deleteChat] *)

Section Housekeeping.
Context `{SEA} `{Builtins}.

(** [initUser] makes a user reachable.  While [key.pub] has no encryption
    key in the store, [getSecret(key.pub)] on a Chat that has no secret for
    it never returns.  [initUser(gun, key)], for a key whose [epub] is a
    plain value, authenticates the store handle for [key.pub], publishes
    [key.epub] and changes no other node; afterwards [getSecret(key.pub)]
    returns the secret derived from [key.epub] on every such Chat. *)
Theorem initUser_makes_reachable (k : keypair) (p : jsstring) (w : World) :
  pub k = JStr p -> plain (epub k) ->
  let w' := initUser k w in
  (forall c, truthy (obj_get p (secrets c)) = false -> defined_at w [p; js "epub"] = None ->
             getSecret p c w = Hang c w) /\
  auth w' = Some p /\
  published w' p (epub k) /\
  (forall q, q <> [p; js "epub"] -> store w' !! q = store w !! q) /\
  (forall c, truthy (obj_get p (secrets c)) = false ->
     exists c', getSecret p c w' = Done (SEA_secret (epub k) (key c)) c' w').
Proof.
  intros Hp [Hdef Hobj] w'.
  assert (Hst : store w' = <[ [p; js "epub"] := epub k ]> (store w)).
  { unfold w', initUser. rewrite Hp. cbn [ToString gun_put store log with_store with_auth].
    cbn [graph_put app]. destruct (epub k); try reflexivity.
    exfalso. eapply Hobj. reflexivity. }
  assert (Hpub : published w' p (epub k)).
  { split; [rewrite Hst; apply lookup_insert_eq|exact Hdef]. }
  split; [|split; [|split; [|split]]].
  - intros c Hc Hnone. pose proof (getSecret_outcome c w p) as Hg.
    unfold secret_for in Hg. rewrite Hc, Hnone in Hg. exact Hg.
  - unfold w', initUser. rewrite Hp. reflexivity.
  - exact Hpub.
  - intros q Hq. rewrite Hst. apply lookup_insert_ne. congruence.
  - intros c Hc. pose proof (getSecret_outcome c w' p) as Hg.
    assert (Es : secret_for c w' p = Some (SEA_secret (epub k) (key c))).
    { unfold secret_for. rewrite Hc. destruct Hpub as [E _]. unfold defined_at. rewrite E.
      destruct (epub k); try reflexivity. congruence. }
    rewrite Es in Hg. destruct Hg as (c' & E & _). eauto.
Qed.

(** [deleteChat] finds the channel.  For a Chat of the key [key] with sound
    caches and a peer [pub] whose key is published, [deleteChat(gun, key,
    pub)] on a store handle in any state authenticates it for [key.pub],
    puts [null] at one node and returns that node for [off()]: the node
    [chats/<id>] whose id is the one [getOurSecretChatId(pub)] returns on the
    Chat, the parent of [pub], [msgs] and [latestMsg] of the channel.  With
    no key of the peer in the store it never returns, and writes nothing. *)
Theorem deleteChat_finds_the_channel (c c0 : Chat) (w : World) (p : jsstring) :
  memo_ok c w ->
  let user := me c in
  (forall e, published w p e ->
     exists c' i,
       getOurSecretChatId p c w = Done i c' w /\
       deleteChat (key c) p c0 w
       = Done (chat_node user i) c0 (gun_put (chat_node user i) JNull (with_auth (Some user) w)) /\
       pub_node user i = chat_node user i ++ [js "pub"] /\
       latestMsg_node c i = chat_node user i ++ [js "latestMsg"] /\
       forall t, msgs_node c i t = chat_node user i ++ [js "msgs"; t]) /\
  (defined_at w [p; js "epub"] = None ->
   deleteChat (key c) p c0 w = Hang c0 (with_auth (Some user) w)).
Proof.
  intros Hm user. split.
  - intros e Hp.
    destruct (getOurSecretChatId_spec c w p e Hm Hp) as (c' & E & _).
    exists c', (channel_id (SEA_secret e (key c)) p).
    split; [exact E|]. split; [|repeat split].
    unfold deleteChat. fold (me c). fold user.
    erewrite (bind_done (update_world _)) by reflexivity.
    assert (Hp' : published (with_auth (Some user) w) p e) by exact Hp.
    unfold Static.getOurSecretChatId.
    erewrite bind_done; [|erewrite bind_done; [reflexivity|]].
    2: { apply gunOnceDefined_published. exact Hp'. }
    reflexivity.
  - intros Hnone. unfold deleteChat. fold (me c). fold user.
    erewrite (bind_done (update_world _)) by reflexivity.
    apply bind_hang. unfold Static.getOurSecretChatId. apply bind_hang.
    rewrite gunOnceDefined_defined_at.
    change (defined_at (with_auth (Some user) w) [p; js "epub"])
      with (defined_at w [p; js "epub"]).
    rewrite Hnone. reflexivity.
Qed.

End Housekeeping.

(** Carol, new to the store of the toy instance. *)
Lemma initUser_makes_reachable_witness :
  let k := Toy.pair "carol" 3 in
  let w' := initUser k Toy.world0 in
  (forall c, truthy (obj_get (js "carol") (secrets c)) = false ->
             defined_at Toy.world0 [js "carol"; js "epub"] = None ->
             @getSecret Toy.sea (js "carol") c Toy.world0 = Hang c Toy.world0) /\
  auth w' = Some (js "carol") /\
  published w' (js "carol") (epub k) /\
  (forall q, q <> [js "carol"; js "epub"] -> store w' !! q = store Toy.world0 !! q) /\
  (forall c, truthy (obj_get (js "carol") (secrets c)) = false ->
     exists c', @getSecret Toy.sea (js "carol") c w'
                = Done (Toy.secret (epub k) (key c)) c' w').
Proof.
  intros k w'.
  apply (@initUser_makes_reachable Toy.sea k (js "carol") Toy.world0).
  - reflexivity.
  - split; [discriminate|intros fs; discriminate].
Defined.

(** Alice deletes her chat with Bob. *)
Lemma deleteChat_finds_the_channel_witness :
  let c := Toy.fresh Toy.alice false in
  let c0 := Toy.fresh Toy.bob false in
  let user := js "alice" in
  (forall e, published Toy.world0 (js "bob") e ->
     exists c' i,
       @getOurSecretChatId Toy.sea (js "bob") c Toy.world0 = Done i c' Toy.world0 /\
       @deleteChat Toy.sea Toy.alice (js "bob") c0 Toy.world0
       = Done (chat_node user i) c0
           (gun_put (chat_node user i) JNull (with_auth (Some user) Toy.world0)) /\
       pub_node user i = chat_node user i ++ [js "pub"] /\
       latestMsg_node c i = chat_node user i ++ [js "latestMsg"] /\
       forall t, msgs_node c i t = chat_node user i ++ [js "msgs"; t]) /\
  (defined_at Toy.world0 [js "bob"; js "epub"] = None ->
   @deleteChat Toy.sea Toy.alice (js "bob") c0 Toy.world0
   = Hang c0 (with_auth (Some user) Toy.world0)).
Proof.
  intros c c0 user.
  apply (@deleteChat_finds_the_channel Toy.sea c c0 Toy.world0 (js "bob")).
  apply memo_ok_fresh.
Defined.

(** ** Presence: from the heartbeat to the watcher *)

Lemma floor_shift (x : Q) (k : Z) : Qfloor (x + inject_Z k) = Qfloor x + k.
Proof.
  pose proof (Qfloor_le x) as Hl. pose proof (Qlt_floor x) as Hu.
  pose proof (Qfloor_le (x + inject_Z k)) as Hl'. pose proof (Qlt_floor (x + inject_Z k)) as Hu'.
  rewrite inject_Z_plus in Hu, Hu'.
  assert (H1 : (inject_Z (Qfloor (x + inject_Z k)) < inject_Z (Qfloor x + k + 1))%Q).
  { rewrite !inject_Z_plus. lra. }
  assert (H2 : (inject_Z (Qfloor x + k) < inject_Z (Qfloor (x + inject_Z k) + 1))%Q).
  { rewrite !inject_Z_plus. lra. }
  rewrite <- Zlt_Qlt in H1, H2. lia.
Qed.

Lemma now_seconds_mono w w2 : (clock w <= clock w2)%Q -> now_seconds w <= now_seconds w2.
Proof.
  intros Hc. unfold now_seconds, Math_round. apply Qfloor_resp_le.
  unfold Qdiv. change (/ inject_Z 1000)%Q with (1 # 1000)%Q. lra.
Qed.

(** A whole number of seconds later the clock reads that many seconds
    more. *)
Lemma now_seconds_shift w w2 (k : Z) :
  (clock w2 == clock w + inject_Z (1000 * k))%Q -> now_seconds w2 = now_seconds w + k.
Proof.
  intros Hc. unfold now_seconds, Math_round. rewrite <- floor_shift.
  apply Qfloor_comp. rewrite Hc, inject_Z_mult.
  unfold Qdiv. change (/ inject_Z 1000)%Q with (1 # 1000)%Q.
  change (inject_Z 1000) with (1000 # 1)%Q. lra.
Qed.

Lemma on_lastActive_events la o w :
  events (snd (on_lastActive la o w))
  = events w ++ [EOnline ((now_seconds w - 10 <? la) && (la <? now_seconds w + 30)) la].
Proof.
  unfold on_lastActive.
  assert (Hnow : now_seconds (clear_timer (timeout o) w) = now_seconds w)
    by (destruct (timeout o); reflexivity).
  assert (Hev : events (clear_timer (timeout o) w) = events w)
    by (destruct (timeout o); reflexivity).
  rewrite Hnow.
  destruct ((now_seconds w - 10 <? la) && (la <? now_seconds w + 30));
    cbn; rewrite Hev; reflexivity.
Qed.

(** A heartbeat keeps the user online.  [setOnline(gun, true)], with no
    heartbeat active, writes the time [lastActive] of the store clock.  A
    watcher's callback ([getOnline]) that gets this value when the clock
    reads at most 9 seconds more reports [isOnline: true]; when the clock
    reads 10 seconds more or later, it reports [isOnline: false]. *)
Theorem heartbeat_keeps_online (w w2 : World) (user : jsstring) (o : OnlineWatch) :
  auth w = Some user -> setOnlineInterval w = None ->
  let lastActive := now_seconds w in
  store (setOnline true w) !! [user; js "lastActive"] = Some (JNum lastActive) /\
  ((clock w <= clock w2)%Q -> (clock w2 <= clock w + 9000)%Q ->
   events (snd (on_lastActive lastActive o w2)) = events w2 ++ [EOnline true lastActive]) /\
  ((clock w + 10000 <= clock w2)%Q ->
   events (snd (on_lastActive lastActive o w2)) = events w2 ++ [EOnline false lastActive]).
Proof.
  intros Hauth Hnone lastActive. split; [|split].
  - unfold setOnline. rewrite Hnone. unfold update_lastActive. rewrite Hauth.
    cbn. apply lookup_insert_eq.
  - intros Hlo Hhi. rewrite on_lastActive_events.
    pose proof (now_seconds_mono w w2 Hlo) as H1.
    assert (H2 : now_seconds w2 <= now_seconds w + 9).
    { rewrite <- (now_seconds_shift w (with_clock (clock w + inject_Z (1000 * 9)) w) 9)
        by reflexivity.
      apply now_seconds_mono. cbn [clock with_clock].
      change (inject_Z (1000 * 9)) with (9000 # 1)%Q. lra. }
    fold lastActive in H1, H2.
    destruct (Z.ltb_spec (now_seconds w2 - 10) lastActive); [|lia].
    destruct (Z.ltb_spec lastActive (now_seconds w2 + 30)); [|lia].
    reflexivity.
  - intros Hlate. rewrite on_lastActive_events.
    assert (H2 : now_seconds w + 10 <= now_seconds w2).
    { rewrite <- (now_seconds_shift w (with_clock (clock w + inject_Z (1000 * 10)) w) 10)
        by reflexivity.
      apply now_seconds_mono. cbn [clock with_clock].
      change (inject_Z (1000 * 10)) with (10000 # 1)%Q. lra. }
    fold lastActive in H2.
    destruct (Z.ltb_spec (now_seconds w2 - 10) lastActive); [lia|].
    reflexivity.
Qed.

(** At 1500 ms Alice starts her heartbeat; a watcher asked at 9 s is told she
    is online. *)
Lemma heartbeat_keeps_online_witness :
  let w := with_auth (Some (js "alice")) Toy.world0 in
  let w2 := with_clock (inject_Z 9000) Toy.world0 in
  let o := {| timeout := None |} in
  let lastActive := 2 in
  store (setOnline true w) !! [js "alice"; js "lastActive"] = Some (JNum lastActive) /\
  ((clock w <= clock w2)%Q -> (clock w2 <= clock w + 9000)%Q ->
   events (snd (on_lastActive lastActive o w2)) = events w2 ++ [EOnline true lastActive]) /\
  ((clock w + 10000 <= clock w2)%Q ->
   events (snd (on_lastActive lastActive o w2)) = events w2 ++ [EOnline false lastActive]).
Proof.
  intros w w2 o lastActive.
  apply (heartbeat_keeps_online w w2 (js "alice") o); reflexivity.
Defined.

Lemma find_timer_none ts id :
  (forall t, In t ts -> (timer_id t < id)%positive) ->
  List.find (fun t => Pos.eqb (timer_id t) id) ts = None.
Proof.
  intros Hts. induction ts as [|t ts IH]; cbn; [reflexivity|].
  destruct (Pos.eqb_spec (timer_id t) id) as [E|_].
  - specialize (Hts t (or_introl eq_refl)). lia.
  - apply IH. intros t' Hin. apply Hts. right. exact Hin.
Qed.

(** The heartbeat runs until it is stopped.  After [setOnline(gun, true)]
    has started a heartbeat, every firing of its timer writes the time of
    the store clock at that moment to [lastActive] and leaves the timer
    pending.  [setOnline(gun, false)] then removes exactly that timer,
    forgets it and writes nothing; the timer, were it to fire, does nothing
    any more; and a later [setOnline(gun, true)] starts a heartbeat
    again. *)
Theorem heartbeat_runs_until_stopped (w : World) (user : jsstring) :
  auth w = Some user -> setOnlineInterval w = None -> timers_ok w ->
  let w1 := setOnline true w in
  let id := next_timer w in
  let w2 := setOnline false w1 in
  (forall t,
     let tick := fire_timer id (with_clock t w1) in
     store tick !! [user; js "lastActive"] = Some (JNum (now_seconds (with_clock t w1))) /\
     timers tick = timers w1 /\ setOnlineInterval tick = Some id) /\
  timers w2 = timers w /\ setOnlineInterval w2 = None /\
  store w2 = store w1 /\ events w2 = events w1 /\
  (forall t, fire_timer id (with_clock t w2) = with_clock t w2) /\
  setOnlineInterval (setOnline true w2) = Some (next_timer w2) /\
  List.map timer_delay (timers (setOnline true w2)) = List.map timer_delay (timers w) ++ [3000].
Proof.
  intros Hauth Hnone Hok w1 id w2.
  set (beat := {| timer_id := id; timer_delay := 3000;
                  timer_repeats := true; timer_action_of := TUpdate |}).
  assert (Ht1 : timers w1 = timers w ++ [beat]).
  { unfold w1, setOnline. rewrite Hnone. unfold update_lastActive. rewrite Hauth. reflexivity. }
  assert (Hi1 : setOnlineInterval w1 = Some id).
  { unfold w1, setOnline. rewrite Hnone. unfold update_lastActive. rewrite Hauth. reflexivity. }
  assert (Ha1 : auth w1 = Some user).
  { unfold w1, setOnline. rewrite Hnone. unfold update_lastActive. rewrite Hauth. exact Hauth. }
  clearbody w1.
  assert (Ht2 : timers w2 = timers w).
  { unfold w2, setOnline. rewrite Hi1. cbn. rewrite Ht1.
    apply filter_timer_fresh; [exact Hok|reflexivity]. }
  assert (Hi2 : setOnlineInterval w2 = None) by reflexivity.
  assert (Ha2 : auth w2 = Some user) by (unfold w2, setOnline; rewrite Hi1; exact Ha1).
  assert (Hs2 : store w2 = store w1) by (unfold w2, setOnline; rewrite Hi1; reflexivity).
  assert (He2 : events w2 = events w1) by (unfold w2, setOnline; rewrite Hi1; reflexivity).
  clearbody w2.
  split; [|split; [exact Ht2|split; [exact Hi2|split; [exact Hs2|split; [exact He2|]]]]].
  - intros t tick. unfold tick, fire_timer. cbn [timers with_clock]. rewrite Ht1.
    rewrite (find_timer_fresh (timers w) id beat Hok eq_refl).
    cbn [timer_repeats timer_action_of beat run_timer_action].
    unfold update_lastActive. cbn [auth with_clock]. rewrite Ha1.
    cbn. rewrite lookup_insert_eq. rewrite Ht1, Hi1. repeat split.
  - split; [|split].
    + intros t. unfold fire_timer. cbn [timers with_clock]. rewrite Ht2.
      rewrite (find_timer_none (timers w) id Hok). reflexivity.
    + unfold setOnline. rewrite Hi2. unfold update_lastActive. rewrite Ha2. reflexivity.
    + unfold setOnline. rewrite Hi2. unfold update_lastActive. rewrite Ha2.
      cbn. rewrite Ht2, map_app. reflexivity.
Qed.

(** Alice's heartbeat in the toy world. *)
Lemma heartbeat_runs_until_stopped_witness :
  let w := with_auth (Some (js "alice")) Toy.world0 in
  let w1 := setOnline true w in
  let id := 1%positive in
  let w2 := setOnline false w1 in
  (forall t,
     let tick := fire_timer id (with_clock t w1) in
     store tick !! [js "alice"; js "lastActive"] = Some (JNum (now_seconds (with_clock t w1))) /\
     timers tick = timers w1 /\ setOnlineInterval tick = Some id) /\
  timers w2 = timers w /\ setOnlineInterval w2 = None /\
  store w2 = store w1 /\ events w2 = events w1 /\
  (forall t, fire_timer id (with_clock t w2) = with_clock t w2) /\
  setOnlineInterval (setOnline true w2) = Some (next_timer w2) /\
  List.map timer_delay (timers (setOnline true w2)) = List.map timer_delay (timers w) ++ [3000].
Proof.
  intros w w1 id w2.
  apply (heartbeat_runs_until_stopped w (js "alice")); [reflexivity|reflexivity|].
  intros t [].
Defined.

(** ** Invite links: from [createChatLink] to [getMyChatLinks] *)

Lemma as_keypair_object k : as_keypair (keypair_object k) = k.
Proof. destruct k. reflexivity. Qed.

Section InviteFacts.
Context `{SEA} `{Builtins} `{Pairs}.

(** What [createChatLink] does, step by step. *)
Lemma createChatLink_outcome key_ urlRoot c w :
  let user := ToString (pub key_) in
  let sharedKey := SEA_pair (entropy w) in
  let text := JStr (JSON_stringify (keypair_object sharedKey)) in
  let sharedSecret := SEA_secret (epub sharedKey) sharedKey in
  let enc := JStr (SEA_encrypt (S (entropy w)) text sharedSecret) in
  let ownerEnc := JStr (SEA_encrypt (S (S (entropy w))) text (SEA_secret (epub key_) key_)) in
  let linkId := take 12 (SEA_work enc) in
  let w1 :=
    gun_put [user; js "chatLinks"; linkId]
      (JObj [(js "encryptedSharedKey", enc); (js "ownerEncryptedSharedKey", ownerEnc)])
      (put_as (keypair_object sharedKey) [js "chatRequests"] (JObj [(js "a", JNum 1)])
         (with_entropy (S (S (S (entropy w)))) (with_auth (Some user) w))) in
  createChatLink key_ urlRoot c w =
    match formatChatLink urlRoot (pub key_) sharedSecret (JStr linkId) with
    | Some url => Done url c w1
    | None => Throw c w1
    end.
Proof.
  cbv zeta. unfold createChatLink, bind, update_world, pair, encrypt. cbn [entropy with_auth with_entropy].
  destruct (formatChatLink _ _ _ _); reflexivity.
Qed.

(** A created link is reported to its owner.  When [createChatLink]
    returns the link [url], the store holds an [ownerEncryptedSharedKey]
    under [chatLinks/<linkId>] of the owner; and when the store delivers the
    link record and then that value to [getMyChatLinks] of the same owner and
    root, the callback is called once, with [{url, id: linkId}] for the same
    [url], and, if asked for, the [chatRequests] of the link's key pair are
    subscribed to.  (The key pair, encrypted under the owner's secret,
    decrypts to itself; a ciphertext is not the empty string.) *)
Theorem created_link_is_reported (key_ : keypair) (urlRoot : jsval) (c : Chat) (w w1 w2 : World)
    (url : jsstring) (callback subscribe : bool) (data : jsval) :
  createChatLink key_ urlRoot c w = Done url c w1 ->
  opens (SEA_secret (epub key_) key_)
        (JStr (JSON_stringify (keypair_object (SEA_pair (entropy w)))))
        (keypair_object (SEA_pair (entropy w))) ->
  (forall n d s, SEA_encrypt n d s <> []) ->
  truthy data = true ->
  let sharedKey := SEA_pair (entropy w) in
  exists linkId ownerEnc,
    store w1 !! [ToString (pub key_); js "chatLinks"; linkId; js "ownerEncryptedSharedKey"]
      = Some ownerEnc /\
    let st := links_run key_ urlRoot callback subscribe (getMyChatLinks key_ w2)
                [InChatLink data linkId; InOwnerKey 0 ownerEnc; InOwnerKeyResume 0] in
    actions st = (if callback then [ALink url linkId] else []) ++
                 (if subscribe then [ARequests linkId 0] else []) /\
    (subscribe = true ->
     In (ESubscribe MapOn [ToString (pub sharedKey); js "chatRequests"] (HChatRequests linkId))
        (events (ls_world st))).
Proof.
  intros Hc Hopen Hne Hdata sharedKey.
  rewrite createChatLink_outcome in Hc. cbv zeta in Hc. fold sharedKey in Hc.
  set (text := JStr (JSON_stringify (keypair_object sharedKey))) in *.
  set (sharedSecret := SEA_secret (epub sharedKey) sharedKey) in *.
  set (enc := JStr (SEA_encrypt (S (entropy w)) text sharedSecret)) in *.
  set (ownerEnc := JStr (SEA_encrypt (S (S (entropy w))) text (SEA_secret (epub key_) key_))) in *.
  set (linkId := take 12 (SEA_work enc)) in *.
  destruct (formatChatLink urlRoot (pub key_) sharedSecret (JStr linkId)) as [url'|] eqn:Eurl;
    [|discriminate].
  injection Hc as -> <-.
  exists linkId, ownerEnc. split.
  { cbn [store gun_put put_as log with_store graph_put app].
    unfold ownerEnc at 1. cbn [graph_put].
    rewrite lookup_insert_eq. reflexivity. }
  assert (Htr : truthy ownerEnc = true).
  { unfold ownerEnc. cbn [truthy].
    destruct (SEA_encrypt (S (S (entropy w))) text (SEA_secret (epub key_) key_)) eqn:E;
      [exfalso; eapply Hne, E|reflexivity]. }
  assert (Hdec : SEA_decrypt ownerEnc (mySecret key_) = keypair_object sharedKey)
    by apply Hopen.
  set (user := ToString (pub key_)).
  set (st1 := {| ls_world := gun_subscribe On
                   [user; js "chatLinks"; linkId; js "ownerEncryptedSharedKey"]
                   (HOwnerEncryptedSharedKey linkId) (ls_world (getMyChatLinks key_ w2));
                 chatLinks := [];
                 owner_subs := [{| os_linkId := linkId; os_chats := [] |}];
                 owner_runs := []; request_subs := []; request_runs := [];
                 actions := [] |}).
  set (st2 := {| ls_world := ls_world st1; chatLinks := [linkId];
                 owner_subs := owner_subs st1;
                 owner_runs := [{| or_sub := 0; or_linkId := linkId; or_enc := ownerEnc |}];
                 request_subs := []; request_runs := []; actions := [] |}).
  assert (E1 : links_step key_ urlRoot callback subscribe (getMyChatLinks key_ w2)
                 (InChatLink data linkId) = st1).
  { unfold links_step. rewrite Hdata. reflexivity. }
  assert (E2 : links_step key_ urlRoot callback subscribe st1 (InOwnerKey 0 ownerEnc) = st2).
  { unfold links_step.
    change (owner_subs st1 !! 0%nat) with (Some {| os_linkId := linkId; os_chats := [] |}).
    cbv beta iota. rewrite Htr. reflexivity. }
  unfold links_run. cbn [List.fold_left]. rewrite E1, E2.
  unfold links_step.
  change (owner_runs st2 !! 0%nat)
    with (Some {| or_sub := 0%nat; or_linkId := linkId; or_enc := ownerEnc |}).
  cbv beta iota zeta. cbn [or_enc or_linkId or_sub].
  rewrite Hdec.
  change (nullish (keypair_object sharedKey)) with false. cbv iota.
  change (js_prop (keypair_object sharedKey) (js "epub")) with (epub sharedKey).
  change (js_prop (keypair_object sharedKey) (js "pub")) with (pub sharedKey).
  rewrite as_keypair_object. fold sharedSecret. rewrite Eurl.
  destruct subscribe, callback; cbn [actions app]; (split; [reflexivity|]);
    intros Hs; try discriminate;
    cbn [ls_world events gun_subscribe log]; apply in_app_iff; right; left; reflexivity.
Qed.

End InviteFacts.

(** Bob creates a link in the second instance and finds it among his
    links. *)
Lemma created_link_is_reported_witness :
  let url := js "https://x/?chatWith=bob&s=453150&k=%23SEA453150%7Ci" in
  let w1 := after (@createChatLink Wire.sea Wire.builtins Wire.pairs Toy.bob
                     (JStr (js "https://x/")) (Toy.fresh Toy.bob false) Toy.world0) in
  exists linkId ownerEnc,
    store w1 !! [js "bob"; js "chatLinks"; linkId; js "ownerEncryptedSharedKey"]
      = Some ownerEnc /\
    let st := @links_run Wire.sea Wire.builtins Toy.bob (JStr (js "https://x/")) true true
                (@getMyChatLinks Toy.bob w1)
                [InChatLink (JBool true) linkId; InOwnerKey 0 ownerEnc; InOwnerKeyResume 0] in
    actions st = [ALink url linkId] ++ [ARequests linkId 0] /\
    (true = true ->
     In (ESubscribe MapOn [js "link"; js "chatRequests"] (HChatRequests linkId))
        (events (ls_world st))).
Proof.
  intros url w1.
  apply (@created_link_is_reported Wire.sea Wire.builtins Wire.pairs Toy.bob
           (JStr (js "https://x/")) (Toy.fresh Toy.bob false) Toy.world0 w1 w1 url
           true true (JBool true)).
  - vm_compute. reflexivity.
  - intros n. cbn [SEA_decrypt SEA_encrypt JSON_stringify Wire.sea Wire.builtins].
    rewrite wire_decrypt_encrypt. vm_compute. reflexivity.
  - intros n d s. unfold SEA_encrypt, Wire.sea, Wire.encrypt. discriminate.
  - reflexivity.
Defined.

Section Handshake.
Context `{SEA} `{Builtins} `{Pairs}.


End Handshake.



(** ** What is derived once is not derived again *)

Section Cached.
Context `{SEA} `{Builtins}.

Lemma getSecret_returns_cached p c w s c' w' :
  getSecret p c w = Done s c' w' -> obj_get p (secrets c') = s.
Proof.
  unfold getSecret, bind, this, ret, update_this.
  destruct (truthy (obj_get p (secrets c))); cbn [negb].
  - intros E. injection E as <- <- _. reflexivity.
  - destruct (gunOnceDefined [p; js "epub"] c w); [|discriminate|discriminate].
    intros E. injection E as <- <- _. reflexivity.
Qed.

Lemma getOurSecretChatId_returns_cached p c w i c' w' :
  getOurSecretChatId p c w = Done i c' w' -> obj_get p (ourSecretChatIds c') = i.
Proof.
  unfold getOurSecretChatId, bind, this, ret, update_this.
  destruct (truthy (obj_get p (ourSecretChatIds c))); cbn [negb].
  - intros E. injection E as <- <- _. reflexivity.
  - destruct (getSecret p c w); [|discriminate|discriminate].
    intros E. injection E as <- <- _. reflexivity.
Qed.

Lemma getTheirSecretChatId_returns_cached p c w i c' w' :
  getTheirSecretChatId p c w = Done i c' w' -> obj_get p (theirSecretChatIds c') = i.
Proof.
  unfold getTheirSecretChatId, bind, this, ret, update_this.
  destruct (truthy (obj_get p (theirSecretChatIds c))); cbn [negb].
  - intros E. injection E as <- <- _. reflexivity.
  - destruct (getSecret p c w); [|discriminate|discriminate].
    intros E. injection E as <- <- _. reflexivity.
Qed.

(** A Chat derives a secret and a channel id once.  When [getSecret],
    [getOurSecretChatId] or [getTheirSecretChatId] has returned a truthy
    value for a participant, every later call on that Chat returns the same
    value and leaves the Chat and the store as they are, whatever the store
    holds by then: a key the participant publishes later is not looked
    at. *)
Theorem derived_once_and_kept (p : jsstring) (c c' : Chat) (w w' : World) (v : jsval) :
  truthy v = true ->
  (getSecret p c w = Done v c' w' ->
   forall w2, getSecret p c' w2 = Done v c' w2) /\
  (getOurSecretChatId p c w = Done v c' w' ->
   forall w2, getOurSecretChatId p c' w2 = Done v c' w2) /\
  (getTheirSecretChatId p c w = Done v c' w' ->
   forall w2, getTheirSecretChatId p c' w2 = Done v c' w2).
Proof.
  intros Hv. split; [|split]; intros E w2.
  - apply getSecret_returns_cached in E.
    unfold getSecret, bind, this, ret. rewrite E, Hv. cbn [negb]. rewrite E. reflexivity.
  - apply getOurSecretChatId_returns_cached in E.
    unfold getOurSecretChatId, bind, this, ret. rewrite E, Hv. cbn [negb]. rewrite E. reflexivity.
  - apply getTheirSecretChatId_returns_cached in E.
    unfold getTheirSecretChatId, bind, this, ret. rewrite E, Hv. cbn [negb]. rewrite E.
    reflexivity.
Qed.

End Cached.

(** Alice derives the secret she shares with Bob; Bob's key may then change
    or vanish. *)
Lemma derived_once_and_kept_witness :
  let c := Toy.fresh Toy.alice false in
  let c' := chat_after (@getSecret Toy.sea (js "bob") c Toy.world0) in
  let v := Toy.secret (epub Toy.bob) Toy.alice in
  (@getSecret Toy.sea (js "bob") c Toy.world0 = Done v c' Toy.world0 ->
   forall w2, @getSecret Toy.sea (js "bob") c' w2 = Done v c' w2) /\
  (@getOurSecretChatId Toy.sea (js "bob") c Toy.world0 = Done v c' Toy.world0 ->
   forall w2, @getOurSecretChatId Toy.sea (js "bob") c' w2 = Done v c' w2) /\
  (@getTheirSecretChatId Toy.sea (js "bob") c Toy.world0 = Done v c' Toy.world0 ->
   forall w2, @getTheirSecretChatId Toy.sea (js "bob") c' w2 = Done v c' w2).
Proof.
  intros c c' v.
  apply (@derived_once_and_kept Toy.sea (js "bob") c c' Toy.world0 Toy.world0 v).
  reflexivity.
Defined.

(** ** Messages with the same time *)

Section SameTime.
Context `{SEA} `{Builtins}.

Lemma send_loop_clock msg ks : forall c w c' w',
  nullish msg = false ->
  (forall k, In k ks -> In k (List.map fst (secrets c)) /\ is_Some (secret_for c w k)) ->
  for_each ks (send_to msg) c w = Done tt c' w' -> clock w' = clock w.
Proof.
  induction ks as [|k ks IH]; intros c w c' w' Hmsg Hks E.
  - injection E as _ <-. reflexivity.
  - destruct (Hks k (or_introl eq_refl)) as (Hin & s & Es).
    destruct (id_for_of_secret _ _ _ _ Es) as (i & Ei).
    destruct (send_to_outcome c w k msg s i Hmsg Es Ei) as (c1 & E1 & Hc1 & Hk1).
    specialize (Hk1 Hin). rewrite for_each_cons, E1 in E.
    apply IH in E; [exact E|exact Hmsg|].
    intros k' Hin'. destruct (Hks k' (or_intror Hin')) as (Hin2 & Hs2).
    rewrite Hk1. split; [assumption|].
    destruct Hc1 as (_&_&Hs&_).
    erewrite secret_for_same_epubs; [rewrite Hs; exact Hs2|].
    intros q. cbn. unfold latestMsg_node, msgs_node.
    rewrite !lookup_insert_ne by discriminate. reflexivity.
Qed.

(** [send] of a message object, seen from one channel, by the secrets and
    ids the Chat would derive. *)
Lemma send_seals_at c w pB s i f :
  (forall k, In k (Object_keys (secrets c)) -> is_Some (secret_for c w k)) ->
  In pB (Object_keys (secrets c)) ->
  secret_for c w pB = Some s -> id_for c w pB = Some i ->
  (forall k i', In k (Object_keys (secrets c)) -> id_for c w k = Some i' ->
                ToString i' = ToString i -> secret_for c w k = Some s) ->
  let t := ToString (js_prop (JObj f) (js "time")) in
  exists c' w1 v,
    send (JObj f) c w = Done tt c' w1 /\
    sealed (JObj f) s v /\
    store w1 !! msgs_node c i t = Some v /\
    store w1 !! latestMsg_node c i = Some v /\
    same_epubs w w1 /\ caches_agree w c c' /\
    List.map fst (secrets c') = List.map fst (secrets c) /\
    clock w1 = clock w.
Proof.
  intros Hall HinB Es Ei Hshare t.
  assert (Hks : forall k, In k (Object_keys (secrets c)) ->
            In k (List.map fst (secrets c)) /\ is_Some (secret_for c w k)).
  { intros k Hin. split; [apply Object_keys_In, Hin|apply Hall, Hin]. }
  destruct (send_loop (JObj f) (Object_keys (secrets c)) c w eq_refl Hks)
    as (c1 & w1 & E1 & Hc1 & Hk1 & Hw1 & _).
  destruct (send_loop_slot (JObj f) (Object_keys (secrets c)) c w pB s i eq_refl Hks)
    as (c2 & w2 & v & E2 & Hv & Em & El); [left; auto|exact Hshare|].
  pose proof (send_loop_clock (JObj f) _ _ _ _ _ eq_refl Hks E1) as Hclock.
  rewrite E1 in E2. injection E2 as <- <-.
  exists c1, w1, v. rewrite send_object. auto 10.
Qed.

(** [send] of a string is [send] of the message made of it. *)
Lemma send_text s c w :
  send (JStr s) c w =
  send (JObj [(js "time", JStr (toISOString (clock w)));
              (js "author", JStr (js "anonymous")); (js "text", JStr s)]) c w.
Proof. reflexivity. Qed.

(** Two texts sent at the same reading of the clock share a slot.  [send]
    of a string makes the message [{time, author: 'anonymous', text}] with
    the ISO time of the clock, and files it under that time.  So of two
    strings sent one after the other while the clock reads the same, the
    second replaces the first in [msgs]: after the first [send] the slot of
    that time holds the first message, after the second it (and
    [latestMsg]) holds the second. *)
Theorem texts_at_the_same_time_collide (c : Chat) (w : World) (pB : jsstring) (eB : jsval)
    (s1 s2 : jsstring) :
  memo_ok c w -> published w pB eB ->
  (forall k, In k (Object_keys (secrets c)) -> exists e, published w k e) ->
  In pB (Object_keys (secrets c)) ->
  (forall k e, In k (Object_keys (secrets c)) -> published w k e -> k <> pB ->
     channel_id (SEA_secret e (key c)) k <> channel_id (SEA_secret eB (key c)) pB) ->
  let secret := SEA_secret eB (key c) in
  let i := channel_id secret pB in
  let iso := toISOString (clock w) in
  let message text := JObj [(js "time", JStr iso); (js "author", JStr (js "anonymous"));
                            (js "text", JStr text)] in
  exists c1 w1 c2 w2 v1 v2,
    send (JStr s1) c w = Done tt c1 w1 /\
    send (JStr s2) c1 w1 = Done tt c2 w2 /\
    store w1 !! msgs_node c i iso = Some v1 /\ sealed (message s1) secret v1 /\
    store w2 !! msgs_node c i iso = Some v2 /\ sealed (message s2) secret v2 /\
    store w2 !! latestMsg_node c i = Some v2.
Proof.
  intros Hm HB Hall HinB Hcoll secret i iso message.
  assert (Hsec : forall k, In k (Object_keys (secrets c)) -> is_Some (secret_for c w k)).
  { intros k Hin. destruct (Hall k Hin) as (e & He). eapply secret_for_published, He. }
  assert (Es : secret_for c w pB = Some secret) by (apply secret_for_memo; assumption).
  assert (Ei : id_for c w pB = Some i) by (apply id_for_memo; assumption).
  assert (Hshare : forall k i', In k (Object_keys (secrets c)) -> id_for c w k = Some i' ->
                     ToString i' = ToString i -> secret_for c w k = Some secret).
  { intros k i' Hin Ei' Esame.
    destruct (Hall k Hin) as (e & He).
    rewrite (id_for_memo _ _ _ _ Hm He) in Ei'. injection Ei' as <-.
    destruct (decide (k = pB)) as [->|Hne]; [exact Es|].
    exfalso. apply (Hcoll k e Hin He Hne).
    unfold i, secret, channel_id in *. cbn [ToString] in Esame. rewrite Esame. reflexivity. }
  destruct (send_seals_at c w pB secret i
              [(js "time", JStr iso); (js "author", JStr (js "anonymous"));
               (js "text", JStr s1)] Hsec HinB Es Ei Hshare)
    as (c1 & w1 & v1 & E1 & Hv1 & Em1 & _ & Hw1 & Hc1 & Hk1 & Hclock1).
  assert (Hme : me c1 = me c) by (eapply caches_agree_me, Hc1).
  assert (Hsec1 : forall k, secret_for c1 w1 k = secret_for c w k).
  { intros k. destruct Hc1 as (_&_&Hs&_).
    rewrite (secret_for_same_epubs _ _ _ _ Hw1). apply Hs. }
  assert (Hid1 : forall k, id_for c1 w1 k = id_for c w k).
  { intros k. destruct Hc1 as (_&_&_&Hi).
    rewrite (id_for_same_epubs _ _ _ _ Hw1). apply Hi. }
  destruct (send_seals_at c1 w1 pB secret i
              [(js "time", JStr (toISOString (clock w1)));
               (js "author", JStr (js "anonymous")); (js "text", JStr s2)])
    as (c2 & w2 & v2 & E2 & Hv2 & Em2 & El2 & _).
  { intros k Hin. rewrite (Object_keys_same _ _ Hk1) in Hin. rewrite Hsec1. auto. }
  { rewrite (Object_keys_same _ _ Hk1). exact HinB. }
  { rewrite Hsec1. exact Es. }
  { rewrite Hid1. exact Ei. }
  { intros k i' Hin Ei' Esame. rewrite (Object_keys_same _ _ Hk1) in Hin.
    rewrite Hid1 in Ei'. rewrite Hsec1. eauto. }
  exists c1, w1, c2, w2, v1, v2.
  rewrite !send_text. rewrite Hclock1 in *. fold iso in Hv2, Em2, E2 |- *.
  cbn [js_prop assoc default from_option ToString] in Em1, Em2.
  rewrite (msgs_node_eq c c1 i i _ Hme eq_refl) in Em2.
  rewrite (latestMsg_node_eq c c1 i i Hme eq_refl) in El2.
  auto 10.
Qed.

End SameTime.

(** Alice sends Bob two texts while the clock reads 1500 ms. *)
Lemma texts_at_the_same_time_collide_witness :
  let c := with_secrets [(js "bob", JNull)] (Toy.fresh Toy.alice false) in
  let secret := Toy.secret (epub Toy.bob) Toy.alice in
  let i := @channel_id Toy.sea secret (js "bob") in
  let iso := js "1500" in
  let message text := JObj [(js "time", JStr iso); (js "author", JStr (js "anonymous"));
                            (js "text", JStr text)] in
  exists c1 w1 c2 w2 v1 v2,
    @send Toy.sea Toy.builtins (JStr (js "hello")) c Toy.world0 = Done tt c1 w1 /\
    @send Toy.sea Toy.builtins (JStr (js "again")) c1 w1 = Done tt c2 w2 /\
    store w1 !! msgs_node c i iso = Some v1 /\
    @sealed Toy.sea Toy.builtins (message (js "hello")) secret v1 /\
    store w2 !! msgs_node c i iso = Some v2 /\
    @sealed Toy.sea Toy.builtins (message (js "again")) secret v2 /\
    store w2 !! latestMsg_node c i = Some v2.
Proof.
  intros c secret i iso message.
  apply (@texts_at_the_same_time_collide Toy.sea Toy.builtins c Toy.world0 (js "bob")
           (epub Toy.bob) (js "hello") (js "again")).
  - apply (@memo_ok_set_null Toy.sea (Toy.fresh Toy.alice false) Toy.world0 (js "bob")).
    apply memo_ok_fresh.
  - split; [vm_compute; reflexivity|discriminate].
  - intros k Hin. vm_compute in Hin. destruct Hin as [<-|[]].
    exists (epub Toy.bob). split; [vm_compute; reflexivity|discriminate].
  - vm_compute. auto.
  - intros k e Hin _ Hne. vm_compute in Hin. destruct Hin as [<-|[]]. contradiction.
Defined.

(** ** A participant without a key *)

Lemma for_each_app {K} (l1 l2 : list K) body c w :
  for_each (l1 ++ l2) body c w =
  match for_each l1 body c w with
  | Done _ c' w' => for_each l2 body c' w'
  | Hang c' w' => Hang c' w'
  | Throw c' w' => Throw c' w'
  end.
Proof.
  revert c w. induction l1 as [|k l1 IH]; intros c w; [reflexivity|].
  cbn [app]. rewrite !for_each_cons. destruct (body k c w); [apply IH|reflexivity|reflexivity].
Qed.

Section Unreachable.
Context `{SEA} `{Builtins}.

(** [send] stops at the first participant it cannot reach.  Let the
    participants of the Chat be [ks1], then [k], then [ks2], in the order of
    [Object.keys]; those of [ks1] have published keys, while for [k] the Chat
    has no secret and the store no key.  Then [send(msg)] of a message object
    never returns and never throws; by then the message has been written,
    encrypted, to [msgs/<time>] and [latestMsg] of the channel of every
    participant in [ks1]; and no other node has changed. *)
Theorem send_stops_at_unreachable (c : Chat) (w : World) (f : list (jsstring * jsval))
    (ks1 ks2 : list jsstring) (k : jsstring) :
  Object_keys (secrets c) = ks1 ++ k :: ks2 ->
  (forall k1, In k1 ks1 -> exists e, published w k1 e) ->
  truthy (obj_get k (secrets c)) = false -> defined_at w [k; js "epub"] = None ->
  let t := ToString (js_prop (JObj f) (js "time")) in
  exists c' w',
    send (JObj f) c w = Hang c' w' /\
    (forall k1, In k1 ks1 ->
       exists i, id_for c w k1 = Some i /\ slots_hold c w (JObj f) t (store w') i) /\
    (forall p, ~ written_by_send c t p -> store w' !! p = store w !! p).
Proof.
  intros Hkeys Hpub Hcache Hstore t.
  destruct (send_loop (JObj f) ks1 c w eq_refl)
    as (c1 & w1 & E1 & Hc1 & Hk1 & Hw1 & Hfr & _ & Hall).
  { intros k1 Hin. split.
    - apply Object_keys_In. rewrite Hkeys. apply in_app_iff. left. exact Hin.
    - destruct (Hpub k1 Hin) as (e & He). eapply secret_for_published, He. }
  assert (Es : secret_for c1 w1 k = None).
  { destruct Hc1 as (_&_&Hs&_). rewrite (secret_for_same_epubs _ _ _ _ Hw1), Hs.
    unfold secret_for. rewrite Hcache, Hstore. reflexivity. }
  pose proof (getSecret_outcome c1 w1 k) as Hg. rewrite Es in Hg.
  exists c1, w1. split; [|split; [exact Hall|exact Hfr]].
  rewrite send_object, Hkeys, for_each_app, E1, for_each_cons.
  unfold send_to at 1. rewrite (bind_hang _ _ _ _ _ _ Hg). reflexivity.
Qed.

End Unreachable.

(** Alice's chat with Bob and Carol; Carol has published no key. *)
Lemma send_stops_at_unreachable_witness :
  let c := with_secrets [(js "bob", JNull); (js "carol", JNull)] (Toy.fresh Toy.alice false) in
  let f := [(js "time", JStr (js "t1")); (js "text", JStr (js "hello"))] in
  exists c' w',
    @send Toy.sea Toy.builtins (JObj f) c Toy.world0 = Hang c' w' /\
    (forall k1, In k1 [js "bob"] ->
       exists i, @id_for Toy.sea c Toy.world0 k1 = Some i /\
                 @slots_hold Toy.sea Toy.builtins c Toy.world0 (JObj f) (js "t1") (store w') i) /\
    (forall p, ~ written_by_send c (js "t1") p -> store w' !! p = store Toy.world0 !! p).
Proof.
  intros c f.
  apply (@send_stops_at_unreachable Toy.sea Toy.builtins c Toy.world0 f
           [js "bob"] [] (js "carol")).
  - vm_compute. reflexivity.
  - intros k1 [<-|[]]. exists (epub Toy.bob). split; [vm_compute; reflexivity|discriminate].
  - reflexivity.
  - vm_compute. reflexivity.
Defined.

(** ** A link with more than one question mark *)

Lemma split_length sep s :
  length (split sep s) = S (length (List.filter (fun c => c =? sep) s)).
Proof.
  induction s as [|c r IH]; [reflexivity|]. cbn [split List.filter].
  destruct (c =? sep); cbn [length]; [rewrite IH; reflexivity|].
  destruct (split sep r) as [|h t]; [discriminate|exact IH].
Qed.

Lemma filter_In_length {A} (f : A -> bool) l x :
  In x l -> f x = true -> (1 <= length (List.filter f l))%nat.
Proof.
  intros Hin Hx. assert (Hf : In x (List.filter f l)) by (apply filter_In; auto).
  destruct (List.filter f l); [contradiction|cbn; lia].
Qed.

Section LinkShape.
Context `{SEA} `{Builtins}.

(** The constructor reads a chat link only if it has exactly one [?]. *)
Lemma chatLink_branch_ignores o link c w :
  opt_chatLink o = Some link -> length (split 63 link) <> 2%nat ->
  chatLink_branch o c w = Done (false, opt_participants o) c w.
Proof.
  intros El Hlen. unfold chatLink_branch. rewrite El.
  destruct (truthy (JStr link)); [|reflexivity].
  destruct (split 63 link) as [|a [|b [|d l]]]; try reflexivity.
  cbn in Hlen. congruence.
Qed.

(** An invite link made with a root that has a [?] in it is of no use.
    [formatChatLink] puts its own [?] after the root, and the constructor
    reads a link only if it splits at [?] in two: given such a link it
    behaves as if no link had been given at all (no request to join is
    prepared, and the participants are those of [options.participants], not
    the owner named in the link). *)
Theorem link_of_root_with_query_is_ignored (o : Options) (w : World)
    (urlRoot pub_ sharedSecret linkId : jsval) (link : jsstring) :
  formatChatLink urlRoot pub_ sharedSecret linkId = Some link ->
  In 63 (ToString urlRoot) ->
  opt_chatLink o = Some link ->
  (3 <= length (split 63 link))%nat /\
  new_Chat o w =
  new_Chat {| opt_key := opt_key o; opt_chatLink := None;
              opt_onMessage := opt_onMessage o;
              opt_participants := opt_participants o |} w.
Proof.
  intros Hf Hroot El.
  assert (Hlen : (3 <= length (split 63 link))%nat).
  { unfold formatChatLink in Hf.
    destruct (encodeURIComponent (ToString pub_)) as [p|]; [|discriminate].
    destruct (encodeURIComponent (ToString sharedSecret)) as [s|]; [|discriminate].
    destruct (encodeURIComponent (ToString linkId)) as [k|]; [|discriminate].
    assert (Hshape : exists rest, link = ToString urlRoot ++ 63 :: rest).
    { injection Hf as <-. eexists. reflexivity. }
    destruct Hshape as [rest ->].
    rewrite split_length, List.filter_app, length_app.
    pose proof (filter_In_length (fun c => c =? 63) _ 63 Hroot eq_refl).
    cbn [List.filter]. change (63 =? 63) with true. cbn [length]. lia. }
  split; [exact Hlen|].
  unfold new_Chat, constructor. cbn [opt_key opt_onMessage].
  unfold bind at 1 3, this.
  unfold bind at 1 4, update_world.
  unfold bind at 1 3.
  unfold bind at 1 3.
  rewrite (chatLink_branch_ignores o link) by (auto; lia).
  reflexivity.
Qed.

End LinkShape.

(** A root with a query of its own, in the toy instance. *)
Lemma link_of_root_with_query_is_ignored_witness :
  let link := js "https://x/?page=chat?chatWith=bob&s=sec&k=id1" in
  let o := {| opt_key := Toy.alice; opt_chatLink := Some link;
              opt_onMessage := false; opt_participants := POne JUndefined |} in
  (3 <= length (split 63 link))%nat /\
  @new_Chat Toy.sea o Toy.world0 =
  @new_Chat Toy.sea {| opt_key := Toy.alice; opt_chatLink := None;
                       opt_onMessage := false; opt_participants := POne JUndefined |}
    Toy.world0.
Proof.
  intros link o.
  apply (@link_of_root_with_query_is_ignored Toy.sea o Toy.world0
           (JStr (js "https://x/?page=chat")) (JStr (js "bob")) (JStr (js "sec"))
           (JStr (js "id1")) link).
  - vm_compute. reflexivity.
  - vm_compute. auto 20.
  - reflexivity.
Defined.

(** ** The participants of a new chat *)


Section ParticipantsKept.
Context `{SEA} `{Builtins}.




















End ParticipantsKept.

